(** * GlbToolsWeb: atlas packing, rect reuse, UV remapping, geometry baking

    A shallow embedding of the atlas core ([scripts/atlas-lib.mjs], shipped
    inside [src/scripts/atlas-cli.mjs]) and of its browser port
    ([src/web/src/atlas-worker.js]), with the properties the specification
    states about them, and further properties of the baker, the merger, the
    packers, the texture optimizer
    ([src/web/src/texture-optimizer-worker.js]) and the layout check.

    Conventions.
    - A JavaScript number that is a pixel size, a count or an index is a [Z].
    - A JavaScript number that is a coordinate, a scale or an area is a
      rational [Q]: binary floating point is idealised as exact arithmetic.
      The scales of the single-bin search are dyadic rationals with a few
      bits, which doubles represent exactly.
    - A slot of a [Float32Array] is a [num]: a finite value or [NaN].
      Reading past the end of an array gives [undefined], which arithmetic
      and typed-array stores turn into [NaN].
    - Objects compared by identity (materials, textures) carry an id.
    - Where the code rounds (an operation on doubles, a store into a
      [Float32Array]) the model keeps the exact value. A statement about
      computed coordinates is therefore either a bound that rounding
      respects, or an equality stated for inputs on which every value the
      code forms is held exactly: integers of small magnitude, and scalings
      by a power of two. *)

From Stdlib Require Import ZArith QArith Qround Lia Lqa Bool Ascii String.
From stdpp Require Import gmap strings list pretty.

Local Open Scope Z_scope.

(** * Part I: the model *)

(** ** JavaScript numbers held in typed arrays *)

Inductive num : Type :=
  | Fin (q : Q)
  | NaN.

Definition num_add (a b : num) : num :=
  match a, b with
  | Fin x, Fin y => Fin (x + y)
  | _, _ => NaN
  end.

Definition num_sub (a b : num) : num :=
  match a, b with
  | Fin x, Fin y => Fin (x - y)
  | _, _ => NaN
  end.

Definition num_mul (a b : num) : num :=
  match a, b with
  | Fin x, Fin y => Fin (x * y)
  | _, _ => NaN
  end.

(** [arr[i]] used as a number. *)
Definition js_get (arr : list num) (i : nat) : num := nth i arr NaN.

(** ** Accessors and primitives of the document model *)

Inductive ElemType : Type := SCALAR | VEC2 | VEC3 | VEC4.

Definition getElementSize (t : ElemType) : nat :=
  match t with
  | SCALAR => 1
  | VEC2 => 2
  | VEC3 => 3
  | VEC4 => 4
  end%nat.

(** An attribute accessor. [acc_name] is the accessor's own (optional) name,
    not the semantic it is attached under. *)
Record Accessor : Type := mkAccessor {
  acc_name : string;
  acc_type : ElemType;
  acc_array : list num
}.

(** [accessor.getCount()]: the array holds whole elements (every accessor
    read from a glTF container does), so the count is the exact quotient. *)
Definition getCount (a : Accessor) : Z :=
  Z.of_nat (length (acc_array a)) / Z.of_nat (getElementSize (acc_type a)).

(** [doc.createAccessor().setType(type).setArray(arr)]: a fresh, unnamed accessor. *)
Definition createAccessor (type : ElemType) (arr : list num) : Accessor :=
  mkAccessor "" type arr.

(** Index storage. A typed-array constructor converts every element to the
    element type: modulo 2^16 or 2^32. *)
Inductive IndexArray : Type :=
  | Uint16Array (l : list Z)
  | Uint32Array (l : list Z).

Definition new_Uint16Array (l : list Z) : IndexArray :=
  Uint16Array (map (fun z => z mod 65536) l).

Definition new_Uint32Array (l : list Z) : IndexArray :=
  Uint32Array (map (fun z => z mod 4294967296) l).

Definition index_values (a : IndexArray) : list Z :=
  match a with
  | Uint16Array l => l
  | Uint32Array l => l
  end.

Definition is_32bit (a : IndexArray) : bool :=
  match a with
  | Uint16Array _ => false
  | Uint32Array _ => true
  end.

(** A material object: [mat_id] tells objects apart, [mat_name] is its name
    ([""] when unnamed). Two records are the same object when they are equal. *)
Record Material : Type := mkMaterial {
  mat_id : nat;
  mat_name : string
}.

#[global] Instance Material_eq_dec : EqDecision Material.
Proof. solve_decision. Defined.

#[global] Program Instance Material_countable : Countable Material :=
  inj_countable' (fun m => (mat_id m, mat_name m)) (fun p => mkMaterial p.1 p.2) _.
Next Obligation. by intros []. Qed.

Inductive Semantic : Type :=
  | POSITION
  | NORMAL
  | TANGENT
  | TEXCOORD (n : nat)
  | OTHER (s : string).

#[global] Instance Semantic_eq_dec : EqDecision Semantic.
Proof. solve_decision. Defined.

Record Primitive : Type := mkPrimitive {
  attributes : list (Semantic * Accessor);
  indices : option IndexArray;
  material : option Material
}.

(** [prim.getAttribute(semantic)] *)
Fixpoint lookup_attr (s : Semantic) (l : list (Semantic * Accessor)) : option Accessor :=
  match l with
  | [] => None
  | (k, a) :: rest => if decide (k = s) then Some a else lookup_attr s rest
  end.

Definition getAttribute (p : Primitive) (s : Semantic) : option Accessor :=
  lookup_attr s (attributes p).

(** [prim.setAttribute(semantic, accessor)]: replaces the accessor under an
    existing semantic, appends otherwise. *)
Fixpoint set_attr (s : Semantic) (a : Accessor) (l : list (Semantic * Accessor))
  : list (Semantic * Accessor) :=
  match l with
  | [] => [(s, a)]
  | (k, b) :: rest => if decide (k = s) then (k, a) :: rest else (k, b) :: set_attr s a rest
  end.

Definition setAttribute (p : Primitive) (s : Semantic) (a : Accessor) : Primitive :=
  mkPrimitive (set_attr s a (attributes p)) (indices p) (material p).

(** ** Primitive Merger ([mergePrimitivesIntoOne]) *)

Module Merger.

(** The closures [addVec3], [addVec4], [addVec2]: copy the array element by
    element; a trailing partial element reads [undefined]. *)
Fixpoint addVec3 (array : list num) : list num :=
  match array with
  | a :: b :: c :: rest => a :: b :: c :: addVec3 rest
  | [a; b] => [a; b; NaN]
  | [a] => [a; NaN; NaN]
  | [] => []
  end.

Fixpoint addVec4 (array : list num) : list num :=
  match array with
  | a :: b :: c :: d :: rest => a :: b :: c :: d :: addVec4 rest
  | [a; b; c] => [a; b; c; NaN]
  | [a; b] => [a; b; NaN; NaN]
  | [a] => [a; NaN; NaN; NaN]
  | [] => []
  end.

Fixpoint addVec2 (array : list num) : list num :=
  match array with
  | a :: b :: rest => a :: b :: addVec2 rest
  | [a] => [a; NaN]
  | [] => []
  end.

Definition add_opt (f : list num -> list num) (attr : option Accessor) (arr : list num)
  : list num :=
  match attr with
  | None => arr
  | Some a => arr ++ f (acc_array a)
  end.

(** The running arrays of the collection loop. *)
Record Collected : Type := mkCollected {
  positions : list num;
  normals : list num;
  tangents : list num;
  uvs : list num;
  merged_indices : list Z;
  indexBase : Z
}.

Definition collect_start : Collected := mkCollected [] [] [] [] [] 0.

(** [0, 1, ..., n-1] *)
Definition upto (n : Z) : list Z := map Z.of_nat (seq 0 (Z.to_nat n)).

(** One iteration of [for (const prim of prims)]. *)
Definition collect_step (c : Collected) (prim : Primitive) : Collected :=
  match getAttribute prim POSITION with
  | None => c
  | Some pos =>
      let norm := getAttribute prim NORMAL in
      let tan := getAttribute prim TANGENT in
      let uv := getAttribute prim (TEXCOORD 0) in
      let new_indices :=
        match indices prim with
        | Some idx => map (fun v => v + indexBase c) (index_values idx)
        | None => map (fun i => i + indexBase c) (upto (getCount pos))
        end in
      mkCollected
        (add_opt addVec3 (Some pos) (positions c))
        (add_opt addVec3 norm (normals c))
        (add_opt addVec4 tan (tangents c))
        (add_opt addVec2 uv (uvs c))
        (merged_indices c ++ new_indices)
        (indexBase c + getCount pos)
  end.

Definition collect (prims : list Primitive) : Collected :=
  fold_left collect_step prims collect_start.

Definition len (l : list num) : Q := inject_Z (Z.of_nat (length l)).

(** [if (cond) newPrim.setAttribute(semantic, createAccessor(arr, type))] *)
Definition set_if (cond : bool) (s : Semantic) (type : ElemType) (arr : list num)
    (p : Primitive) : Primitive :=
  if cond then setAttribute p s (createAccessor type arr) else p.

(** The index accessor of the merged primitive. *)
Definition index_accessor (indices : list Z) : IndexArray :=
  if 65535 <? Z.of_nat (length indices)
  then new_Uint32Array indices
  else new_Uint16Array indices.

Definition build_merged (prims : list Primitive) (c : Collected) : Primitive :=
  let p0 := mkPrimitive [] None None in
  let p1 := setAttribute p0 POSITION (createAccessor VEC3 (positions c)) in
  let p2 := set_if (Nat.eqb (length (normals c)) (length (positions c)))
              NORMAL VEC3 (normals c) p1 in
  let p3 := set_if (Qeq_bool (len (tangents c)) ((len (positions c) / 3) * 4))
              TANGENT VEC4 (tangents c) p2 in
  let p4 := set_if (Qeq_bool (len (uvs c)) ((len (positions c) / 3) * 2))
              (TEXCOORD 0) VEC2 (uvs c) p3 in
  let firstMat := match prims with p :: _ => material p | [] => None end in
  mkPrimitive (attributes p4) (Some (index_accessor (merged_indices c))) firstMat.

(** The mesh is its list of primitives; the result is the list after the call. *)
Definition mergePrimitivesIntoOne (prims : list Primitive) : list Primitive :=
  if (length prims <=? 1)%nat then prims
  else
    let c := collect prims in
    if (Nat.eqb (length (positions c)) 0 || Nat.eqb (length (merged_indices c)) 0)%bool
    then prims
    else [build_merged prims c].

(** Total vertex count of the primitives that contribute to the merge. *)
Definition total_vertex_count (prims : list Primitive) : Z :=
  indexBase (collect prims).

End Merger.

(** ** Outcomes of calls that may throw or loop forever *)

Inductive outcome (A : Type) : Type :=
  | Ok (a : A)
  | Throw (msg : string)
  | Diverge.

Arguments Ok {A} a.
Arguments Throw {A} msg.
Arguments Diverge {A}.

#[global] Instance outcome_ret : MRet outcome := fun A a => Ok a.

#[global] Instance outcome_bind : MBind outcome := fun A B k m =>
  match m with
  | Ok a => k a
  | Throw msg => Throw msg
  | Diverge => Diverge
  end.

(** ** Powers of two *)

Module Pow2.

(** [nearestPow2]: [let p = 1; while (p * 2 <= n) p *= 2; return p].
    The product is a double and does not wrap. *)
Fixpoint nearestPow2_loop (fuel : nat) (p n : Z) : Z :=
  match fuel with
  | O => p
  | S f => if p * 2 <=? n then nearestPow2_loop f (p * 2) n else p
  end.

(** [p] at least doubles in each round, so [n] rounds are more than the
    loop ever takes (see [nearestPow2_spec]). *)
Definition nearestPow2 (n : Z) : Z := nearestPow2_loop (Z.to_nat n) 1 n.

(** [clampPow2(n, min, max)] *)
Definition clampPow2 (n min max : Z) : Z :=
  Z.max min (Z.min max (nearestPow2 n)).

(** [ToInt32], the result type of [<<]. *)
Definition to_int32 (z : Z) : Z := (z + 2147483648) mod 4294967296 - 2147483648.

(** [nextPow2] and [nextPow2Ceil] (the same body):
    [let p = 1; while (p < n) p <<= 1; return p].
    The shift wraps at 32 bits: for [n] above 2^30 the loop reaches
    [p = -2^31], then [p = 0], and never ends; [None] is that case. *)
Fixpoint nextPow2_loop (fuel : nat) (p n : Z) : option Z :=
  match fuel with
  | O => None
  | S f => if p <? n then nextPow2_loop f (to_int32 (Z.shiftl p 1)) n else Some p
  end.

Definition nextPow2 (n : Z) : option Z := nextPow2_loop 64 1 n.

Definition nextPow2Ceil (n : Z) : option Z := nextPow2_loop 64 1 n.

Definition is_pow2 (z : Z) : Prop := exists k, 0 <= k /\ z = 2 ^ k.

End Pow2.

(** ** Texture Sizer ([suggestSizeBestFill] and the target sizing of [atlasMap]) *)

Module Sizer.
Import Pow2.

Inductive SizeMode : Type := BestFill | Buckets.

(** [[256, 512, 1024, 2048, 4096].filter((n) => n <= maxSize)] *)
Definition allowed (maxSize : Z) : list Z :=
  filter (fun n => n <= maxSize) [256; 512; 1024; 2048; 4096].

(** The size a relative area asks for. *)
Definition bucket (rel : Q) : Z :=
  if Qle_bool (6 # 10) rel then 2048
  else if Qle_bool (35 # 100) rel then 1024
  else if Qle_bool (15 # 100) rel then 512
  else 256.

(** [allowed.reduce((acc, v) => (v <= target ? v : acc), allowed[0])] for a
    non-empty [allowed]. *)
Definition snap (allowed : list Z) (first target : Z) : Z :=
  fold_left (fun acc v => if v <=? target then v else acc) allowed first.

(** [suggestSizeBestFill]. With no allowed size ([maxSize < 256]),
    [allowed[0]] is [undefined] and the result is [NaN]: [None]. *)
Definition suggestSizeBestFill (matArea maxMatArea : Q) (maxSize srcW srcH : Z)
  : option Z :=
  let base := nearestPow2 (Z.min (Z.min srcW srcH) maxSize) in
  let rel := if Qlt_le_dec 0 maxMatArea then (matArea / maxMatArea)%Q else 0%Q in
  let target := Z.max base (bucket rel) in
  match allowed maxSize with
  | [] => None
  | first :: _ =>
      let target := snap (allowed maxSize) first target in
      Some (clampPow2 target first maxSize)
  end.

(** The legacy buckets of [atlasMap]. *)
Definition legacy_bucket (norm : Q) : Z :=
  if Qle_bool (5 # 10) norm then 2048
  else if Qle_bool (25 # 100) norm then 1024
  else if Qle_bool (1 # 10) norm then 512
  else 256.

(** The "Target sizing" block of [atlasMap]: the side of the square the
    texture is resized to. [hasAreas] is [materialAreas.size > 0];
    [nearestPow2(NaN)] is 1. *)
Definition targetSize (hasAreas : bool) (sizeMode : SizeMode)
    (matArea maxMatArea : Q) (maxSize width height : Z) : Z :=
  let t0 := nearestPow2 (Z.min width maxSize) in
  let p1 :=
    if hasAreas then
      match sizeMode with
      | BestFill =>
          match suggestSizeBestFill matArea maxMatArea maxSize width height with
          | Some t => nearestPow2 t
          | None => 1
          end
      | Buckets => nearestPow2 (legacy_bucket (matArea / maxMatArea)%Q)
      end
    else nearestPow2 t0 in
  let t2 := Z.max 256 (Z.min maxSize p1) in
  Z.min t2 (nearestPow2 (Z.max 1 (Z.min width height))).

End Sizer.
(** ** Document model: materials, textures, entries, rects, bins *)

Inductive MapType : Type := basecolor | normal | orm | emissive.

#[global] Instance MapType_eq_dec : EqDecision MapType.
Proof. solve_decision. Defined.

(** What [image-size] makes of an image: it throws on a buffer it cannot
    type, and may leave a dimension out ([None] is [undefined]). *)
Inductive Image : Type :=
  | Unsupported
  | Sized (width height : option Z).

#[global] Instance Image_eq_dec : EqDecision Image.
Proof. solve_decision. Defined.

(** A texture object: [tex_id] tells objects apart. *)
Record Texture : Type := mkTexture {
  tex_id : nat;
  tex_name : string;
  tex_image : option Image
}.

#[global] Instance Texture_eq_dec : EqDecision Texture.
Proof. solve_decision. Defined.

(** Pixel buffers, as the codec calls that produce them. *)
Inductive Fit : Type := FitInside | FitCover | FitFill.

Inductive Buffer : Type :=
  | SourceImage (tex : nat)
  | Resized (w h : Z) (fit : Fit) (src : Buffer)
  | Solid (map : MapType) (w h : Z).

(** TextureEntry *)
Record Entry : Type := mkEntry {
  e_texture : option Texture;
  e_buffer : Buffer;
  e_width : Z;
  e_height : Z;
  e_materials : list Material
}.

Record PackItem : Type := mkPackItem {
  item_id : nat;
  item_width : Z;
  item_height : Z;
  item_data : Entry
}.

(** A rect of a bin. [r_names] is the [materials] field (names) a rect
    inherits when it is spread from a layout record; the packer's own rects
    have none. *)
Record Rect : Type := mkRect {
  r_x : Z;
  r_y : Z;
  r_width : Z;
  r_height : Z;
  r_data : Entry;
  r_names : list string
}.

Record Bin : Type := mkBin {
  bin_width : Z;
  bin_height : Z;
  bin_rects : list Rect
}.

(** A rect of the layout record (the JSON artifact). *)
Record LayoutRect : Type := mkLayoutRect {
  l_texture : string;
  l_materials : list string;
  l_x : Z;
  l_y : Z;
  l_width : Z;
  l_height : Z
}.

Record LayoutAtlas : Type := mkLayoutAtlas {
  la_index : nat;
  la_width : Z;
  la_height : Z;
  la_rects : list LayoutRect
}.

(** [(x, y, width, height)] *)
Definition rect_geometry (r : Rect) : Z * Z * Z * Z :=
  (r_x r, r_y r, r_width r, r_height r).

Definition layout_geometry (r : LayoutRect) : Z * Z * Z * Z :=
  (l_x r, l_y r, l_width r, l_height r).

(** ** Atlas Packer *)

Module Packer.
Import Pow2.

Section WithPacker.

(** The external bin packer: the bins of
    [new MaxRectsPacker(size, size, padding, opts)] after [addArray(rects)]. *)
Variable MaxRectsPacker : Z -> Z -> list PackItem -> list Bin.

Definition maxDim (rects : list PackItem) : Z :=
  fold_left (fun m r => Z.max (Z.max m (item_width r)) (item_height r)) rects 1.

(** The [while (size <= maxSize)] loop of [packIntoAtlas]. *)
Fixpoint pack_loop (fuel : nat) (size : Z) (rects : list PackItem)
    (maxSize padding : Z) (maxBins : Z) : outcome (Z * list Bin) :=
  match fuel with
  | O => Diverge
  | S f =>
      if size <=? maxSize then
        let bins := MaxRectsPacker size padding rects in
        if Z.of_nat (length bins) <=? maxBins then Ok (size, bins)
        else pack_loop f (size * 2) rects maxSize padding maxBins
      else Throw "Could not pack textures into the atlas bins within max size"
  end.

(** [packIntoAtlas(rects, maxSize, padding, maxBins)]. The size at least
    doubles per round, so [maxSize + 1] rounds are never used up
    (see [pack_loop_terminates]). *)
Definition packIntoAtlas (rects : list PackItem) (maxSize padding maxBins : Z)
  : outcome (Z * list Bin) :=
  match nextPow2 (Z.max (maxDim rects) 256) with
  | None => Diverge
  | Some size => pack_loop (S (Z.to_nat maxSize)) size rects maxSize padding maxBins
  end.

(** [Math.max(1, Math.floor(d * scale))] *)
Definition scale_dim (d : Z) (scale : Q) : Z :=
  Z.max 1 (Qfloor (inject_Z d * scale)).

(** [canPack(rects, maxSize, padding, maxBins, scale)] *)
Definition canPack (rects : list PackItem) (maxSize padding maxBins : Z) (scale : Q)
  : outcome bool :=
  let scaled :=
    map (fun r => mkPackItem (item_id r) (scale_dim (item_width r) scale)
                    (scale_dim (item_height r) scale) (item_data r)) rects in
  match packIntoAtlas scaled maxSize padding maxBins with
  | Ok (_, bins) => Ok (Z.of_nat (length bins) <=? maxBins)
  | Throw _ => Ok false
  | Diverge => Diverge
  end.

(** [while (high > 0.01 && !canPack(rects, maxSize, padding, 1, high)) high *= 0.5] *)
Fixpoint shrink (fuel : nat) (rects : list PackItem) (maxSize padding : Z) (high : Q)
  : outcome Q :=
  match fuel with
  | O => Diverge
  | S f =>
      if negb (Qle_bool high (1 # 100)) then
        fits ← canPack rects maxSize padding 1 high;
        if negb fits then shrink f rects maxSize padding (high * (1 # 2))%Q
        else Ok high
      else Ok high
  end.

(** The state of the refinement loop. *)
Record Search : Type := mkSearch {
  low : Q;
  high : Q;
  best : Q
}.

(** [for (let i = 0; i < 10; i++)] with [n] rounds left. *)
Fixpoint refine (n : nat) (rects : list PackItem) (maxSize padding : Z) (s : Search)
  : outcome Search :=
  match n with
  | O => Ok s
  | S k =>
      let mid := ((low s + high s) / 2)%Q in
      fits ← canPack rects maxSize padding 1 mid;
      if fits : bool then refine k rects maxSize padding (mkSearch mid (high s) mid)
      else refine k rects maxSize padding (mkSearch (low s) mid (best s))
  end.

(** [findBestScaleForSingleBin(rects, maxSize, padding)]. [high] is halved at
    most seven times before it is below the floor; the fuel is never used up
    (see [shrink_terminates]). *)
Definition findBestScaleForSingleBin (rects : list PackItem) (maxSize padding : Z)
  : outcome Q :=
  full ← canPack rects maxSize padding 1 1%Q;
  if full : bool then Ok 1%Q
  else
    high ← shrink 16 rects maxSize padding 1%Q;
    failed ←
      (if Qle_bool high (1 # 100) then
         fits ← canPack rects maxSize padding 1 high; Ok (negb fits)
       else Ok false);
    if failed : bool then Throw "Could not fit into a single atlas even after aggressive downscale."
    else
      s ← refine 10 rects maxSize padding (mkSearch 0%Q high high);
      Ok (best s).

(** [resizePackInputToScale(packInput, scale)] *)
Definition resizePackInputToScale (packInput : list PackItem) (scale : Q)
  : list PackItem :=
  map (fun item =>
         let newW := scale_dim (item_width item) scale in
         let newH := scale_dim (item_height item) scale in
         mkPackItem (item_id item) newW newH
           (mkEntry (e_texture (item_data item))
              (Resized newW newH FitInside (e_buffer (item_data item)))
              newW newH (e_materials (item_data item))))
      packInput.

End WithPacker.

End Packer.

(** ** Channel passes ([atlasMap]) and the pipeline ([processAtlas]) *)

Module Atlas.
Import Pow2 Packer.

Inductive Slot : Type :=
  | BaseColorSlot
  | NormalSlot
  | MetallicRoughnessSlot
  | OcclusionSlot
  | EmissiveSlot.

(** KHR_texture_transform *)
Record Transform : Type := mkTransform {
  t_offset : Q * Q;
  t_scale : Q * Q;
  t_rotation : Q
}.

Record TextureInfo : Type := mkTextureInfo {
  ti_texCoord : nat;
  ti_transform : option Transform
}.

Record SlotRef : Type := mkSlotRef {
  sr_texture : Texture;
  sr_info : TextureInfo
}.

(** The part of the document a channel pass reads. A pass writes only the
    texture slot of its own map, which no other pass reads, so every pass
    of one run sees the slots of the document it was started on. *)
Record Doc : Type := mkDoc {
  doc_materials : list Material;
  doc_slot : Material -> Slot -> option SlotRef;
  doc_hasTexTransformExt : bool
}.

Definition or_else {A : Type} (a b : option A) : option A :=
  match a with
  | Some _ => a
  | None => b
  end.

Definition slot_of (doc : Doc) (map : MapType) (mat : Material) : option SlotRef :=
  match map with
  | basecolor => doc_slot doc mat BaseColorSlot
  | normal => doc_slot doc mat NormalSlot
  | orm => or_else (doc_slot doc mat MetallicRoughnessSlot)
                   (doc_slot doc mat OcclusionSlot)
  | emissive => doc_slot doc mat EmissiveSlot
  end.

(** [getter(mat)] *)
Definition getter (doc : Doc) (map : MapType) (mat : Material) : option Texture :=
  sr_texture <$> slot_of doc map mat.

(** [infoGetter.call(mat)] *)
Definition infoGetter (doc : Doc) (map : MapType) (mat : Material) : option TextureInfo :=
  sr_info <$> slot_of doc map mat.

Record Options : Type := mkOptions {
  maxSize : Z;
  padding : Z;
  maxBins : Z;
  downscale : bool;          (* resizeMode === 'downscale' *)
  resizeCeil : Z;
  sizeMode : Sizer.SizeMode
}.

(** [sizeOf(buffer)] *)
Definition sizeOf (img : Image) : outcome (option Z * option Z) :=
  match img with
  | Unsupported => Throw "unsupported file type"
  | Sized w h => Ok (w, h)
  end.

Definition Qmin2 (a b : Q) : Q := if Qle_bool a b then a else b.
Definition Qmax2 (a b : Q) : Q := if Qle_bool a b then b else a.

(** [Math.max(1e-6, ...materialAreas.values())] *)
Definition maxMatArea (areas : gmap string Q) : Q :=
  foldr Qmax2 (1 # 1000000) (snd <$> map_to_list areas).

Definition cannot_read : string := "Cannot read dimensions for texture".

(** The body of [if (!entry) { ... }]: measure, downscale to the ceiling,
    size, and build the entry (its [materials] still empty). *)
Definition newEntry (opts : Options) (areas : gmap string Q) (mat : Material)
    (tex : Texture) (img : Image) : outcome Entry :=
  dims ← sizeOf img;
  match dims with
  | (Some width, Some height) =>
      if ((width =? 0) || (height =? 0))%bool then Throw cannot_read
      else
        let buffer := SourceImage (tex_id tex) in
        let '(buffer, width, height) :=
          if (downscale opts && (0 <? resizeCeil opts) &&
              ((resizeCeil opts <? width) || (resizeCeil opts <? height)))%bool
          then
            let scale := Qmin2 (inject_Z (resizeCeil opts) / inject_Z width)
                               (inject_Z (resizeCeil opts) / inject_Z height) in
            let newW := Z.max 1 (Qfloor (inject_Z width * scale)) in
            let newH := Z.max 1 (Qfloor (inject_Z height * scale)) in
            (Resized newW newH FitInside buffer, newW, newH)
          else (buffer, width, height) in
        let matArea := default 0%Q (areas !! mat_name mat) in
        let targetSize :=
          Sizer.targetSize (negb (Nat.eqb (size areas) 0)) (sizeMode opts)
            matArea (maxMatArea areas) (maxSize opts) width height in
        let buffer :=
          if targetSize <? Z.min width height
          then Resized targetSize targetSize FitCover buffer
          else buffer in
        Ok (mkEntry (Some tex) buffer targetSize targetSize [])
  | _ => Throw cannot_read
  end.

Definition entry_has_texture (tex : Texture) (e : Entry) : bool :=
  bool_decide (e_texture e = Some tex).

(** [textureToEntry.get(tex)] followed by [entry.materials.push(mat)];
    [None] when the texture has no entry yet. *)
Fixpoint push_material (tex : Texture) (mat : Material) (entries : list Entry)
  : option (list Entry) :=
  match entries with
  | [] => None
  | e :: rest =>
      if entry_has_texture tex e
      then Some (mkEntry (e_texture e) (e_buffer e) (e_width e) (e_height e)
                   (e_materials e ++ [mat]) :: rest)
      else cons e <$> push_material tex mat rest
  end.

(** [for (const mat of materials)]: the entries built so far are [entries]. *)
Fixpoint buildEntries (doc : Doc) (map : MapType) (opts : Options)
    (areas : gmap string Q) (materials : list Material) (entries : list Entry)
  : outcome (list Entry) :=
  match materials with
  | [] => Ok entries
  | mat :: rest =>
      match getter doc map mat with
      | None => buildEntries doc map opts areas rest entries
      | Some tex =>
          match tex_image tex with
          | None => buildEntries doc map opts areas rest entries
          | Some img =>
              match push_material tex mat entries with
              | Some entries' => buildEntries doc map opts areas rest entries'
              | None =>
                  e ← newEntry opts areas mat tex img;
                  buildEntries doc map opts areas rest
                    (entries ++ [mkEntry (e_texture e) (e_buffer e) (e_width e)
                                   (e_height e) [mat]])
              end
          end
      end
  end.

(** [m.getName() || '(unnamed)'] *)
Definition display_name (m : Material) : string :=
  if decide (mat_name m = "") then "(unnamed)" else mat_name m.

(** [findMaterialByName(name, materials)] *)
Fixpoint first_named (name : string) (materials : list Material) : option Material :=
  match materials with
  | [] => None
  | m :: rest => if decide (display_name m = name) then Some m else first_named name rest
  end.

Definition findMaterialByName (name : string) (materials : list Material)
  : option Material :=
  if decide (name = "") then None else first_named name materials.

Definition entry_names (name : string) (e : Entry) : bool :=
  existsb (fun m => bool_decide (display_name m = name)) (e_materials e).

Fixpoint first_entry (name : string) (entries : list Entry) : option Entry :=
  match entries with
  | [] => None
  | e :: rest => if entry_names name e then Some e else first_entry name rest
  end.

(** [findEntryForMaterial(materialName, entries)]; [None] is an absent name. *)
Definition findEntryForMaterial (materialName : option string) (entries : list Entry)
  : option Entry :=
  match materialName with
  | None => None
  | Some name => if decide (name = "") then None else first_entry name entries
  end.

(** [(r.materials || []).map((name) => findMaterialByName(name, allMats)).filter(Boolean)] *)
Definition resolve_names (names : list string) (allMats : list Material)
  : list Material :=
  omap (fun name => findMaterialByName name allMats) names.

(** One round of [for (const r of reuseRects.rects)]: the rect pushed. *)
Definition reuse_rect (map : MapType) (allMats : list Material) (entries : list Entry)
    (r : LayoutRect) : Rect :=
  let resolvedMats := resolve_names (l_materials r) allMats in
  let entry :=
    match findEntryForMaterial (head (l_materials r)) entries with
    | None =>
        mkEntry None (Solid map (l_width r) (l_height r)) (l_width r) (l_height r)
          resolvedMats
    | Some e =>
        mkEntry (e_texture e) (e_buffer e) (e_width e) (e_height e)
          (match resolvedMats with [] => e_materials e | _ => resolvedMats end)
    end in
  mkRect (l_x r) (l_y r) (l_width r) (l_height r) entry (l_materials r).

(** What [processAtlas] hands to the other channels. *)
Record ReuseRects : Type := mkReuseRects {
  reuse_rects : list LayoutRect;
  reuse_size : option (Z * Z)
}.

(** [v || d] on numbers *)
Definition nz_or (v d : Z) : Z := if v =? 0 then d else v.

(** The reuse branch: the atlas size and the single bin. *)
Definition reuse_bins (map : MapType) (allMats : list Material) (entries : list Entry)
    (rects : list LayoutRect) (size : Z * Z) : outcome (Z * list Bin) :=
  let s := Z.max (nz_or (fst size) 0) (nz_or (snd size) 0) in
  match nextPow2Ceil (Z.max s 256) with
  | None => Diverge
  | Some atlasSize =>
      Ok (atlasSize,
          [mkBin atlasSize atlasSize (reuse_rect map allMats entries <$> rects)])
  end.

(** MaterialMapping *)
Record Mapping : Type := mkMapping {
  m_rect : Rect;
  m_atlasIndex : nat;
  m_width : Z;
  m_height : Z;
  m_texCoordIndex : nat;
  m_hasTransform : bool
}.

(** The materials a rect of a bin stands for. *)
Definition rect_materials (allMats : list Material) (rect : Rect) : list Material :=
  match e_materials (r_data rect) with
  | [] => resolve_names (r_names rect) allMats
  | mats => mats
  end.

(** [materialMap.set(mat, {...})] for one material of one rect. *)
Definition set_mapping (doc : Doc) (map : MapType) (binIndex : nat) (size : Z)
    (rect : Rect) (materialMap : gmap Material Mapping) (mat : Material)
  : gmap Material Mapping :=
  let info := infoGetter doc map mat in
  let texCoordIndex := default 0%nat (ti_texCoord <$> info) in
  let hasTransform :=
    (doc_hasTexTransformExt doc &&
     match info with
     | Some i => bool_decide (is_Some (ti_transform i))
     | None => false
     end)%bool in
  <[mat := mkMapping rect binIndex size size texCoordIndex hasTransform]> materialMap.

(** [bin.rects.forEach((rect) => { ... mats.forEach(...) })] *)
Definition map_rects (doc : Doc) (map : MapType) (binIndex : nat) (size : Z)
    (rects : list Rect) (materialMap : gmap Material Mapping) : gmap Material Mapping :=
  fold_left
    (fun mm rect =>
       fold_left (set_mapping doc map binIndex size rect)
         (rect_materials (doc_materials doc) rect) mm)
    rects materialMap.

(** The rect of the layout record. *)
Definition layout_rect (r : Rect) : LayoutRect :=
  mkLayoutRect
    (match e_texture (r_data r) with
     | Some t => if decide (tex_name t = "") then "(unnamed)" else tex_name t
     | None => "(unnamed)"
     end)
    (filter (fun n => n ≠ "") (mat_name <$> e_materials (r_data r)))
    (r_x r) (r_y r) (r_width r) (r_height r).

(** What a channel pass leaves behind. *)
Record Pass : Type := mkPass {
  pass_bins : list Bin;                 (* the bins, forced square *)
  pass_materialMap : gmap Material Mapping;
  pass_atlases : list LayoutAtlas       (* layoutInfo.atlases *)
}.

(** [for (let binIndex = 0; binIndex < bins.length; binIndex++)]: forces
    each bin square, maps its materials, records its layout. Compositing
    and encoding the atlas image change none of the three. *)
Fixpoint bin_loop (doc : Doc) (map : MapType) (binIndex : nat) (bins : list Bin)
    (atlasSize : Z) (acc : Pass) : outcome Pass :=
  match bins with
  | [] => Ok acc
  | bin :: rest =>
      match nextPow2Ceil (Z.max (Z.max (nz_or (bin_width bin) atlasSize)
                                       (nz_or (bin_height bin) atlasSize)) atlasSize) with
      | None => Diverge
      | Some squareSize =>
          let bin' := mkBin squareSize squareSize (bin_rects bin) in
          let size := nz_or (bin_width bin') squareSize in
          bin_loop doc map (S binIndex) rest squareSize
            (mkPass (pass_bins acc ++ [bin'])
               (map_rects doc map binIndex size (bin_rects bin') (pass_materialMap acc))
               (pass_atlases acc ++
                  [mkLayoutAtlas binIndex size (nz_or (bin_height bin') squareSize)
                     (layout_rect <$> bin_rects bin')]))
      end
  end.

Section WithPacker.

Variable MaxRectsPacker : Z -> Z -> list PackItem -> list Bin.

(** The packing branch: scale search, resize, pack. [bins[0].rects] of no
    bin is a TypeError. *)
Definition pack_bins (opts : Options) (packInput : list PackItem)
  : outcome (Z * list Bin) :=
  let targetBins := if maxBins opts <? 1 then 1 else maxBins opts in
  scale ←
    (if ((targetBins =? 1) && downscale opts)%bool
     then findBestScaleForSingleBin MaxRectsPacker packInput (maxSize opts) (padding opts)
     else Ok 1%Q);
  let scaledInput :=
    if Qeq_bool scale 1 then packInput else resizePackInputToScale packInput scale in
  packResult ← packIntoAtlas MaxRectsPacker scaledInput (maxSize opts) (padding opts) targetBins;
  match snd packResult with
  | [] => Throw "TypeError: bins[0] is undefined"
  | _ => Ok packResult
  end.

(** [atlasMap(doc, opts)]; [Ok None] is the early [return] of a channel
    with no texture. *)
Definition atlasMap (doc : Doc) (areas : gmap string Q) (opts : Options)
    (map : MapType) (reuseRects : option ReuseRects) : outcome (option Pass) :=
  entries ← buildEntries doc map opts areas (doc_materials doc) [];
  match entries with
  | [] => Ok None
  | _ =>
      let packInput :=
        imap (fun idx entry => mkPackItem idx (e_width entry) (e_height entry) entry)
          entries in
      packed ←
        match reuseRects with
        | Some (mkReuseRects rects (Some size)) =>
            reuse_bins map (doc_materials doc) entries rects size
        | _ => pack_bins opts packInput
        end;
      pass ← bin_loop doc map 0 (snd packed) (fst packed) (mkPass [] ∅ []);
      Ok (Some pass)
  end.

(** [validMaps.includes('basecolor') ? 'basecolor' : validMaps[0]] *)
Definition canonicalMap (validMaps : list MapType) : option MapType :=
  if bool_decide (basecolor ∈ validMaps) then Some basecolor else head validMaps.

(** Step 2 of [processAtlas]: the passes of the other maps. Destructuring
    the result of a pass that returned nothing is a TypeError. *)
Fixpoint reuse_passes (doc : Doc) (areas : gmap string Q) (opts : Options)
    (canonical : MapType) (reuse : ReuseRects) (maps : list MapType)
  : outcome (list (MapType * Pass)) :=
  match maps with
  | [] => Ok []
  | map :: rest =>
      if decide (map = canonical) then reuse_passes doc areas opts canonical reuse rest
      else
        r ← atlasMap doc areas opts map (Some reuse);
        match r with
        | None => Throw "TypeError: cannot destructure the result of atlasMap"
        | Some pass =>
            others ← reuse_passes doc areas opts canonical reuse rest;
            Ok ((map, pass) :: others)
        end
  end.

(** [processAtlas(doc, opts)] over the supported maps asked for: the passes,
    canonical first. *)
Definition processAtlas (doc : Doc) (areas : gmap string Q) (opts : Options)
    (validMaps : list MapType) : outcome (list (MapType * Pass)) :=
  match canonicalMap validMaps with
  | None => Ok []
  | Some canonical =>
      canonicalResult ← atlasMap doc areas opts canonical None;
      match canonicalResult with
      | None => Throw "TypeError: canonicalResult is undefined"
      | Some pass =>
          let first := head (pass_atlases pass) in
          let canonicalRects := default [] (la_rects <$> first) in
          let canonicalSize := (fun a => (la_width a, la_height a)) <$> first in
          others ← reuse_passes doc areas opts canonical
                     (mkReuseRects canonicalRects canonicalSize) validMaps;
          Ok ((canonical, pass) :: others)
      end
  end.

End WithPacker.

End Atlas.

(** ** Arithmetic on [num] *)

Declare Scope num_scope.
Delimit Scope num_scope with num.
Bind Scope num_scope with num.

Definition num_neg (a : num) : num :=
  match a with
  | Fin x => Fin (- x)
  | NaN => NaN
  end.

(** A zero divisor would give an infinity, which [num] does not hold; no
    divisor below is zero. *)
Definition num_div (a b : num) : num :=
  match a, b with
  | Fin x, Fin y => if Qeq_bool y 0 then NaN else Fin (x / y)
  | _, _ => NaN
  end.

Infix "+" := num_add : num_scope.
Infix "-" := num_sub : num_scope.
Infix "*" := num_mul : num_scope.
Infix "/" := num_div : num_scope.
Notation "- x" := (num_neg x) : num_scope.

(** [!x] on a number: zero and NaN are falsy. *)
Definition falsy (a : num) : bool :=
  match a with
  | Fin x => Qeq_bool x 0
  | NaN => true
  end.

Definition of_Z (z : Z) : num := Fin (inject_Z z).

(** ** Geometry Baker: normal matrices *)

Module Geometry.

(** [identityMat4()] *)
Definition identityMat4 : list num :=
  of_Z <$> [1; 0; 0; 0; 0; 1; 0; 0; 0; 0; 1; 0; 0; 0; 0; 1].

(** The 3x3 identity, in the layout [transformVector] of the library reads. *)
Definition identityMat3 : list num :=
  of_Z <$> [1; 0; 0; 0; 1; 0; 0; 0; 1].

(** [computeNormalMatrix] of [scripts/atlas-lib.mjs]. *)
Definition computeNormalMatrix (m : list num) : list num :=
  let a00 := js_get m 0 in let a01 := js_get m 4 in let a02 := js_get m 8 in
  let a10 := js_get m 1 in let a11 := js_get m 5 in let a12 := js_get m 9 in
  let a20 := js_get m 2 in let a21 := js_get m 6 in let a22 := js_get m 10 in
  let b01 := (a22 * a11 - a12 * a21)%num in
  let b11 := (- a22 * a10 + a12 * a20)%num in
  let b21 := (a21 * a10 - a11 * a20)%num in
  let det := (a00 * b01 + a01 * b11 + a02 * b21)%num in
  let det := if falsy det then of_Z 1 else det in
  let invDet := (of_Z 1 / det)%num in
  let m00 := (b01 * invDet)%num in
  let m01 := ((- a22 * a01 + a02 * a21) * invDet)%num in
  let m02 := ((a12 * a01 - a02 * a11) * invDet)%num in
  let m10 := (b11 * invDet)%num in
  let m11 := ((a22 * a00 - a02 * a20) * invDet)%num in
  let m12 := ((- a12 * a00 + a02 * a10) * invDet)%num in
  let m20 := (b21 * invDet)%num in
  let m21 := ((- a21 * a00 + a01 * a20) * invDet)%num in
  let m22 := ((a11 * a00 - a01 * a10) * invDet)%num in
  [m00; m10; m20; m01; m11; m21; m02; m12; m22].

(** The determinant both versions test: of the upper-left 3x3 block. *)
Definition det3 (m : list num) : num :=
  let a00 := js_get m 0 in let a01 := js_get m 4 in let a02 := js_get m 8 in
  let a10 := js_get m 1 in let a11 := js_get m 5 in let a12 := js_get m 9 in
  let a20 := js_get m 2 in let a21 := js_get m 6 in let a22 := js_get m 10 in
  (a00 * (a22 * a11 - a12 * a21) + a01 * (- a22 * a10 + a12 * a20)
   + a02 * (a21 * a10 - a11 * a20))%num.

(** [transformVector(m3, v)] of the library. *)
Definition transformVector (m3 : list num) (v : num * num * num) : num * num * num :=
  let '(x, y, z) := v in
  ((js_get m3 0 * x + js_get m3 3 * y + js_get m3 6 * z)%num,
   (js_get m3 1 * x + js_get m3 4 * y + js_get m3 7 * z)%num,
   (js_get m3 2 * x + js_get m3 5 * y + js_get m3 8 * z)%num).

(** [computeNormalMatrix] of [web/src/atlas-worker.js] (the mesh-merger
    worker has the same body). *)
Definition worker_computeNormalMatrix (m : list num) : list num :=
  let a00 := js_get m 0 in let a01 := js_get m 1 in let a02 := js_get m 2 in
  let a10 := js_get m 4 in let a11 := js_get m 5 in let a12 := js_get m 6 in
  let a20 := js_get m 8 in let a21 := js_get m 9 in let a22 := js_get m 10 in
  let b01 := (a22 * a11 - a12 * a21)%num in
  let b11 := (- a22 * a10 + a12 * a20)%num in
  let b21 := (a21 * a10 - a11 * a20)%num in
  let det := (a00 * b01 + a01 * b11 + a02 * b21)%num in
  if falsy det then identityMat4
  else
    let det := (of_Z 1 / det)%num in
    [ (b01 * det)%num;
      ((- a22 * a01 + a02 * a21) * det)%num;
      ((a12 * a01 - a02 * a11) * det)%num;
      of_Z 0;
      (b11 * det)%num;
      ((a22 * a00 - a02 * a20) * det)%num;
      ((- a12 * a00 + a02 * a10) * det)%num;
      of_Z 0;
      (b21 * det)%num;
      ((- a21 * a00 + a01 * a20) * det)%num;
      ((a11 * a00 - a01 * a10) * det)%num;
      of_Z 0;
      of_Z 0; of_Z 0; of_Z 0; of_Z 1 ].

(** The determinant the worker tests. *)
Definition worker_det3 (m : list num) : num :=
  let a00 := js_get m 0 in let a01 := js_get m 1 in let a02 := js_get m 2 in
  let a10 := js_get m 4 in let a11 := js_get m 5 in let a12 := js_get m 6 in
  let a20 := js_get m 8 in let a21 := js_get m 9 in let a22 := js_get m 10 in
  (a00 * (a22 * a11 - a12 * a21) + a01 * (- a22 * a10 + a12 * a20)
   + a02 * (a21 * a10 - a11 * a20))%num.

End Geometry.

(** ** UV Remapper *)

Module Remap.
Import Atlas.

(** The destination loop of the library:
    [dst[i] = u * scaleU + offsetU; dst[i + 1] = v * scaleV + offsetV].
    A store past the end of [dst] is dropped. *)
Section RemapLoop.

Variables (scaleU scaleV offsetU offsetV : Q).

Fixpoint remap_loop (working : list num) : list num :=
  match working with
  | u :: v :: rest =>
      (u * Fin scaleU + Fin offsetU)%num :: (v * Fin scaleV + Fin offsetV)%num
        :: remap_loop rest
  | [u] => [(u * Fin scaleU + Fin offsetU)%num]
  | [] => []
  end.

End RemapLoop.

(** The remap of [working] into [rect] of an atlas [aw] by [ah]. *)
Definition remap_uv (rect : Rect) (aw ah : Z) (working : list num) : list num :=
  let scaleU := (inject_Z (r_width rect) / inject_Z aw)%Q in
  let scaleV := (inject_Z (r_height rect) / inject_Z ah)%Q in
  let offsetU := (inject_Z (r_x rect) / inject_Z aw)%Q in
  let offsetV := (inject_Z (r_y rect) / inject_Z ah)%Q in
  remap_loop scaleU scaleV offsetU offsetV working.

(** [remapUVsInPlace(accessor, rect, atlasSize)] of the worker: the array after the call. *)
Fixpoint worker_loop (rect : Rect) (invSize : Q) (arr : list num) : list num :=
  match arr with
  | u :: v :: rest =>
      ((of_Z (r_x rect) + u * of_Z (r_width rect)) * Fin invSize)%num
        :: ((of_Z (r_y rect) + v * of_Z (r_height rect)) * Fin invSize)%num
        :: worker_loop rect invSize rest
  | [u] => [((of_Z (r_x rect) + u * of_Z (r_width rect)) * Fin invSize)%num]
  | [] => []
  end.

Definition remapUVsInPlace (arr : list num) (rect : Rect) (atlasSize : Z) : list num :=
  let invSize := if atlasSize =? 0 then 1%Q else (1 / inject_Z atlasSize)%Q in
  worker_loop rect invSize arr.

(** [/^TEXCOORD_(\d+)$/] and [parseInt]. *)
Definition is_digit (c : ascii) : bool :=
  ((48 <=? nat_of_ascii c) && (nat_of_ascii c <=? 57))%nat.

Fixpoint parse_digits (s : string) (acc : nat) : option nat :=
  match s with
  | EmptyString => Some acc
  | String c rest =>
      if is_digit c then parse_digits rest (10 * acc + (nat_of_ascii c - 48))%nat
      else None
  end.

Fixpoint strip_prefix (p s : string) : option string :=
  match p, s with
  | EmptyString, _ => Some s
  | String a p', String b s' => if Ascii.eqb a b then strip_prefix p' s' else None
  | String _ _, EmptyString => None
  end.

Definition texcoord_of_name (name : string) : option nat :=
  match strip_prefix "TEXCOORD_" name with
  | Some EmptyString => None
  | Some digits => parse_digits digits 0
  | None => None
  end.

(** [nextTexcoordIndex(prim)]: it reads the names of the accessors, not the
    semantics they are attached under. *)
Definition nextTexcoordIndex (prim : Primitive) : nat :=
  let max :=
    fold_left
      (fun max attr =>
         match texcoord_of_name (acc_name (snd attr)) with
         | Some idx => Z.max max (Z.of_nat idx)
         | None => max
         end)
      (attributes prim) (-1) in
  Z.to_nat (max + 1).

Section WithTrig.

(** [Math.cos] and [Math.sin] *)
Variables (cos sin : Q -> Q).

(** The body of the loop of [bakeTextureTransformInPlace] for one pair. *)
Definition bake_pair (t : Transform) (u v : num) : num * num :=
  let cosR := Fin (cos (t_rotation t)) in
  let sinR := Fin (sin (t_rotation t)) in
  let u := (u * Fin (fst (t_scale t)))%num in
  let v := (v * Fin (snd (t_scale t)))%num in
  let ru := (u * cosR - v * sinR)%num in
  let rv := (u * sinR + v * cosR)%num in
  ((ru + Fin (fst (t_offset t)))%num, (rv + Fin (snd (t_offset t)))%num).

Fixpoint bake_loop (t : Transform) (arr : list num) : list num :=
  match arr with
  | u :: v :: rest =>
      fst (bake_pair t u v) :: snd (bake_pair t u v) :: bake_loop t rest
  | [u] => [fst (bake_pair t u NaN)]
  | [] => []
  end.

(** [bakeTextureTransformInPlace(arr, t)]: the array after the call. *)
Definition bakeTextureTransformInPlace (arr : list num) (t : option Transform)
  : list num :=
  match t with
  | None => arr
  | Some t => bake_loop t arr
  end.

(** A primitive together with the texture info of its material's slot. *)
Record RemapState : Type := mkRemapState {
  rs_prim : Primitive;
  rs_info : option TextureInfo
}.

(** The body of the remap loop of [atlasMap] for a primitive whose material
    has the mapping [mapping]. Every accessor it stores is fresh, and the one
    it mutates ([uvAcc.setArray(dst)]) is held by the slot [uvSet] alone until
    it is also stored under [TEXCOORD_0]; a slot's value is therefore the
    value of its accessor. *)
Definition remap_body (mapping : Mapping) (st : RemapState) : outcome RemapState :=
  let prim := rs_prim st in
  let uvSet := m_texCoordIndex mapping in
  match getAttribute prim (TEXCOORD uvSet) with
  | None => Ok st
  | Some uvAcc =>
      let clonedUV := acc_array uvAcc in
      let prim := setAttribute prim (TEXCOORD uvSet) (createAccessor VEC2 clonedUV) in
      baked ←
        (if m_hasTransform mapping then
           match rs_info st with
           | None => Throw "TypeError: info is null"
           | Some info =>
               let t := ti_transform info in
               let newSet := nextTexcoordIndex prim in
               let cloned := bakeTextureTransformInPlace clonedUV t in
               let prim := setAttribute prim (TEXCOORD newSet) (createAccessor VEC2 cloned) in
               Ok (prim, cloned, newSet, Some (mkTextureInfo newSet None))
           end
         else Ok (prim, clonedUV, uvSet, rs_info st));
      let '(prim, working, uvSet, info) := baked in
      let dst := remap_uv (m_rect mapping) (m_width mapping) (m_height mapping) working in
      let uvAcc := createAccessor VEC2 dst in
      let prim := setAttribute prim (TEXCOORD uvSet) uvAcc in
      let prim := setAttribute prim (TEXCOORD 0) uvAcc in
      let info := (fun i => mkTextureInfo 0 (ti_transform i)) <$> info in
      Ok (mkRemapState prim info)
  end.

(** The entry of the material map for the primitive's material, as the bin
    loop computes it from the info at the start of the pass. *)
Definition mapping_of (hasTexTransformExt : bool) (info : option TextureInfo)
    (rect : Rect) (binIndex : nat) (size : Z) : Mapping :=
  mkMapping rect binIndex size size
    (default 0%nat (ti_texCoord <$> info))
    (hasTexTransformExt &&
     match info with
     | Some i => bool_decide (is_Some (ti_transform i))
     | None => false
     end)%bool.

(** One remap run over the primitive: map, then remap. *)
Definition remap_run (hasTexTransformExt : bool) (rect : Rect) (binIndex : nat)
    (size : Z) (st : RemapState) : outcome RemapState :=
  remap_body (mapping_of hasTexTransformExt (rs_info st) rect binIndex size) st.

End WithTrig.

End Remap.

(** ** Geometry Baker: points, matrices, accessors and nodes *)

Module Baker.
Import Geometry Merger.

(** [a === q] for a numeric literal [q] *)
Definition num_is (a : num) (q : Q) : bool :=
  match a with
  | Fin x => Qeq_bool x q
  | NaN => false
  end.

(** [transformPoint(m, v)] of the library: the perspective divide is skipped
    when [rw] is 0 or 1. *)
Definition transformPoint (m : list num) (v : num * num * num) : num * num * num :=
  let '(x, y, z) := v in
  let rx := (js_get m 0 * x + js_get m 4 * y + js_get m 8 * z + js_get m 12)%num in
  let ry := (js_get m 1 * x + js_get m 5 * y + js_get m 9 * z + js_get m 13)%num in
  let rz := (js_get m 2 * x + js_get m 6 * y + js_get m 10 * z + js_get m 14)%num in
  let rw := (js_get m 3 * x + js_get m 7 * y + js_get m 11 * z + js_get m 15)%num in
  if (negb (num_is rw 0) && negb (num_is rw 1))%bool
  then ((rx / rw)%num, (ry / rw)%num, (rz / rw)%num)
  else (rx, ry, rz).

(** [transformVector(v, m)] of the worker: it reads a 4x4 matrix. *)
Definition worker_transformVector (v : num * num * num) (m : list num)
  : num * num * num :=
  let '(x, y, z) := v in
  ((js_get m 0 * x + js_get m 4 * y + js_get m 8 * z)%num,
   (js_get m 1 * x + js_get m 5 * y + js_get m 9 * z)%num,
   (js_get m 2 * x + js_get m 6 * y + js_get m 10 * z)%num).

(** [out[c * 4 + r]] of [multiplyMat4(a, b)] *)
Definition mat4_entry (a b : list num) (c r : nat) : num :=
  (js_get a (0 * 4 + r) * js_get b (c * 4 + 0)
   + js_get a (1 * 4 + r) * js_get b (c * 4 + 1)
   + js_get a (2 * 4 + r) * js_get b (c * 4 + 2)
   + js_get a (3 * 4 + r) * js_get b (c * 4 + 3))%num.

(** [multiplyMat4(a, b)]: column-major, [out = a * b]. The source stores
    each entry in a [Float32Array]; the entries are kept exact here, and are
    the entries of the source wherever single precision holds them. *)
Definition multiplyMat4 (a b : list num) : list num :=
  c ← [0; 1; 2; 3]%nat; r ← [0; 1; 2; 3]%nat; [mat4_entry a b c r].

Section WithHypot.

(** [Math.hypot] on three finite numbers *)
Variable hypot : Q -> Q -> Q -> Q.

(** [normalizeInPlace(v)]: the vector after the call. The length of a
    vector with a NaN component is NaN, which [|| 1] replaces like zero. *)
Definition normalizeInPlace (v : num * num * num) : num * num * num :=
  let '(x, y, z) := v in
  let len :=
    match x, y, z with
    | Fin a, Fin b, Fin c =>
        if Qeq_bool (hypot a b c) 0 then Fin 1 else Fin (hypot a b c)
    | _, _, _ => Fin 1
    end in
  ((x / len)%num, (y / len)%num, (z / len)%num).

(** [transformVec3Accessor]: the array of the accessor created. A read past
    the end of [src] is [undefined]; a store past the end of [dst] is dropped. *)
Fixpoint transformVec3 (matrix : list num) (src : list num) : list num :=
  match src with
  | x :: y :: z :: rest =>
      let v := transformPoint matrix (x, y, z) in
      v.1.1 :: v.1.2 :: v.2 :: transformVec3 matrix rest
  | [x; y] => let v := transformPoint matrix (x, y, NaN) in [v.1.1; v.1.2]
  | [x] => let v := transformPoint matrix (x, NaN, NaN) in [v.1.1]
  | [] => []
  end.

Definition transformVec3Accessor (accessor : Accessor) (matrix : list num) : Accessor :=
  createAccessor VEC3 (transformVec3 matrix (acc_array accessor)).

(** The loop of [transformNormalAccessor] over the normal matrix [normalMat]. *)
Fixpoint transformNormals (normalMat : list num) (src : list num) : list num :=
  match src with
  | x :: y :: z :: rest =>
      let v := normalizeInPlace (transformVector normalMat (x, y, z)) in
      v.1.1 :: v.1.2 :: v.2 :: transformNormals normalMat rest
  | [x; y] =>
      let v := normalizeInPlace (transformVector normalMat (x, y, NaN)) in [v.1.1; v.1.2]
  | [x] => let v := normalizeInPlace (transformVector normalMat (x, NaN, NaN)) in [v.1.1]
  | [] => []
  end.

Definition transformNormalAccessor (accessor : Accessor) (matrix : list num) : Accessor :=
  createAccessor VEC3 (transformNormals (computeNormalMatrix matrix) (acc_array accessor)).

(** The loop of [transformTangentAccessor]: the fourth component is copied. *)
Fixpoint transformTangents (normalMat : list num) (src : list num) : list num :=
  match src with
  | x :: y :: z :: w :: rest =>
      let v := normalizeInPlace (transformVector normalMat (x, y, z)) in
      v.1.1 :: v.1.2 :: v.2 :: w :: transformTangents normalMat rest
  | [x; y; z] =>
      let v := normalizeInPlace (transformVector normalMat (x, y, z)) in [v.1.1; v.1.2; v.2]
  | [x; y] =>
      let v := normalizeInPlace (transformVector normalMat (x, y, NaN)) in [v.1.1; v.1.2]
  | [x] => let v := normalizeInPlace (transformVector normalMat (x, NaN, NaN)) in [v.1.1]
  | [] => []
  end.

Definition transformTangentAccessor (accessor : Accessor) (matrix : list num) : Accessor :=
  createAccessor VEC4 (transformTangents (computeNormalMatrix matrix) (acc_array accessor)).

(** [prim.listSemantics()] *)
Definition listSemantics (prim : Primitive) : list Semantic :=
  fst <$> attributes prim.

(** [bakePrimitiveTransform(prim, matrix, doc)] of the library. The index
    accessor is shared with [prim]; the new primitive has no material yet.
    Morph targets are outside the model. *)
Definition bakePrimitiveTransform (prim : Primitive) (matrix : list num) : Primitive :=
  fold_left
    (fun out semantic =>
       match getAttribute prim semantic with
       | None => out
       | Some accessor =>
           match semantic with
           | POSITION => setAttribute out semantic (transformVec3Accessor accessor matrix)
           | NORMAL => setAttribute out semantic (transformNormalAccessor accessor matrix)
           | TANGENT => setAttribute out semantic (transformTangentAccessor accessor matrix)
           | _ => setAttribute out semantic accessor
           end
       end)
    (listSemantics prim) (mkPrimitive [] (indices prim) None).

(** A node of the scene graph: [getMatrix()], [getMesh()] as the primitives
    of the mesh, [listChildren()]. *)
#[local] Unset Elimination Schemes.

Inductive Node : Type :=
  | mkNode (matrix : option (list num)) (mesh : option (list Primitive))
      (children : list Node).

#[local] Set Elimination Schemes.

Definition setMaterial (prim : Primitive) (material : Material) : Primitive :=
  mkPrimitive (attributes prim) (indices prim) (Some material).

(** [bakeNodeRecursive(node, mergedMesh, material, doc, parentMatrix)]: the
    primitives added to the merged mesh, in the order they are added. *)
Fixpoint bakeNodeRecursive (material : Material) (node : Node)
    (parentMatrix : option (list num)) : list Primitive :=
  match node with
  | mkNode local mesh children =>
      let world :=
        match parentMatrix with
        | Some parent => multiplyMat4 parent (default identityMat4 local)
        | None => default identityMat4 local
        end in
      (match mesh with
       | Some prims =>
           (fun prim => setMaterial (bakePrimitiveTransform prim world) material) <$> prims
       | None => []
       end)
      ++ flat_map (fun child => bakeNodeRecursive material child (Some world)) children
  end.

(** The geometry part of [collapseToSingleMeshAndMaterial]: every child of
    every scene is baked into the merged mesh, whose primitives are then
    merged into one. The result is the list of primitives of the merged mesh. *)
Definition collapseToSingleMeshAndMaterial (material : Material)
    (scenes : list (list Node)) : list Primitive :=
  mergePrimitivesIntoOne
    (flat_map (fun sc => flat_map (fun child => bakeNodeRecursive material child None) sc)
       scenes).

End WithHypot.

End Baker.

(** ** The packer of the worker ([packIntoSingleAtlasWithDownscale]) *)

Module Worker.
Import Pow2 Packer.







Section WithPacker.

(** The bins of [new MaxRectsPacker(size, size, padding, { smart, pot, square })]
    after [addArray(scaled)]. *)
Variable MaxRectsPacker : Z -> Z -> list PackItem -> list Bin.





End WithPacker.

End Worker.

(** ** The texture optimizer ([resizeAndEncode]) and the encodings *)

Module Optimizer.
Import Atlas.

(** The size [resizeAndEncode] draws an image of [width] by [height] at. *)
Definition targetDims (maxSize width height : Z) : Z * Z :=
  let scale := Qmin2 1 (inject_Z maxSize / inject_Z (Z.max width height)) in
  (Z.max 1 (Qfloor (inject_Z width * scale)),
   Z.max 1 (Qfloor (inject_Z height * scale))).

End Optimizer.

Module Encoding.

(** What the atlas image is encoded with. *)
Inductive Codec : Type :=
  | PNG
  | JPEG
  | WEBP (lossless : bool).

(** [fmt === 'png' ? 'image/png' : fmt === 'webp' ? 'image/webp' : 'image/jpeg']
    of [atlasMap], on the lower-cased format. *)
Definition mime (fmt : string) : string :=
  if decide (fmt = "png") then "image/png"
  else if decide (fmt = "webp") then "image/webp"
  else "image/jpeg".

(** The encoder the pipeline of [atlasMap] ends with. *)
Definition encoder (map : MapType) (fmt : string) : Codec :=
  if decide (fmt = "png") then PNG
  else if decide (fmt = "jpeg" \/ fmt = "jpg") then JPEG
  else if decide (fmt = "webp")
       then WEBP (bool_decide (map = normal \/ map = orm))
  else PNG.

(** The media type of the bytes a codec writes. *)
Definition media_type (c : Codec) : string :=
  match c with
  | PNG => "image/png"
  | JPEG => "image/jpeg"
  | WEBP _ => "image/webp"
  end.

(** [type] of [composeAtlas] in the worker, which is also the mime it returns. *)
Definition worker_type (format : string) : string :=
  if decide (format = "webp") then "image/webp"
  else if decide (format = "jpeg" \/ format = "jpg") then "image/jpeg"
  else "image/png".

End Encoding.

(** ** The layout checks of [tests/verify-atlas.mjs] *)

Module Verify.

(** A layout record: the map and its atlases. *)
Definition LayoutInfo : Type := MapType * list LayoutAtlas.

(** The key [`${rect.x},${rect.y},${rect.width},${rect.height}`]: the four
    numbers, which the string tells apart. *)
Definition Key : Type := Z * Z * Z * Z.

(** [rect.materials.join(',')] *)
Definition join (names : list string) : string :=
  String.concat "," names.

(** [if (!seen.has(key)) seen.set(key, []); seen.get(key).push(s)] on a map
    kept in insertion order. *)
Fixpoint seen_push (key : Key) (s : string) (seen : list (Key * list string))
  : list (Key * list string) :=
  match seen with
  | [] => [(key, [s])]
  | (k, l) :: rest =>
      if decide (k = key) then (k, l ++ [s]) :: rest
      else (k, l) :: seen_push key s rest
  end.

(** The rects of all the atlases of a record. *)
Definition rects_of (entry : LayoutInfo) : list LayoutRect :=
  flat_map la_rects (snd entry).

(** [seen] after the loops over the atlases and rects of a record. *)
Definition seen_of (entry : LayoutInfo) : list (Key * list string) :=
  fold_left (fun seen rect => seen_push (layout_geometry rect) (join (l_materials rect)) seen)
    (rects_of entry) [].

(** [findDuplicateRects(layout)] *)
Definition findDuplicateRects (layout : list LayoutInfo)
  : list (MapType * Key * list string) :=
  flat_map
    (fun entry =>
       omap (fun km : Key * list string =>
               if (1 <? length (snd km))%nat then Some (fst entry, fst km, snd km)
               else None)
         (seen_of entry))
    layout.

End Verify.

(** * Part II: predicates and sample data of the statements *)

(** ** Assumptions on the external packer *)

Module PackerContract.

(** No bin is larger than the size the packer was created with. *)
Definition packer_fits (P : Z -> Z -> list PackItem -> list Bin) : Prop :=
  forall size padding rects bin,
    bin ∈ P size padding rects -> bin_width bin <= size /\ bin_height bin <= size.

(** The packer returns the payloads it was given, on rects of its own. *)
Definition packer_keeps_payloads (P : Z -> Z -> list PackItem -> list Bin) : Prop :=
  forall size padding items bin rect,
    bin ∈ P size padding items -> rect ∈ bin_rects bin ->
    r_names rect = [] /\ exists item, item ∈ items /\ r_data rect = item_data item.

End PackerContract.

(** ** Predicates *)

Module Predicates.
Import Pow2 Atlas Remap.

(** What the specification asks of the side of an atlas. *)
Definition good_size (maxSize s : Z) : Prop :=
  is_pow2 s /\ 256 <= s <= maxSize.

(** The bins and atlases of a pass are all [s] by [s]. *)
Definition pass_sized (s : Z) (p : Pass) : Prop :=
  (forall b, b ∈ pass_bins p -> bin_width b = s /\ bin_height b = s) /\
  (forall a, a ∈ pass_atlases p -> la_width a = s /\ la_height a = s).

(** The rect a pass maps a material to, as [(x, y, width, height)]. *)
Definition mapped_geometry (p : Pass) (m : Material) : option (Z * Z * Z * Z) :=
  (fun mp => rect_geometry (m_rect mp)) <$> pass_materialMap p !! m.

(** The rect [bin.rects.forEach] leaves a material mapped to: every rect
    that stands for the material sets its mapping, so the last one stays. *)
Fixpoint holder (allMats : list Material) (mat : Material) (rects : list Rect)
  : option Rect :=
  match rects with
  | [] => None
  | rect :: rest =>
      match holder allMats mat rest with
      | Some later => Some later
      | None => if decide (mat ∈ rect_materials allMats rect) then Some rect else None
      end
  end.

(** A rect of a reused channel against the canonical rect at its position:
    the same (x, y, width, height), standing for the same named materials. *)
Definition same_rect (allMats : list Material) (crect rect : Rect) : Prop :=
  rect_geometry rect = rect_geometry crect /\
  forall mat, mat ∈ rect_materials allMats rect <->
              mat ∈ e_materials (r_data crect) /\ mat_name mat <> "".

(** [image-size] could tell both dimensions, and neither is zero. *)
Definition readable (img : Image) : Prop :=
  exists w h, img = Sized (Some w) (Some h) /\ w <> 0 /\ h <> 0.

(** Every entry built so far has a readable texture. *)
Definition entries_readable (entries : list Entry) : Prop :=
  forall e t img, e ∈ entries -> e_texture e = Some t -> tex_image t = Some img ->
    readable img.






(** The texcoord set a remap run reads. *)
Definition read_set (st : RemapState) : nat :=
  default 0%nat (ti_texCoord <$> rs_info st).

(** The transform-bake step runs when the mapping has a transform and the
    primitive has the UV set. *)
Definition bakes (mapping : Mapping) (st : RemapState) : bool :=
  (m_hasTransform mapping &&
   bool_decide (is_Some (getAttribute (rs_prim st) (TEXCOORD (m_texCoordIndex mapping)))))%bool.

(** The same value in two slots. *)
Definition num_equiv (a b : num) : Prop :=
  match a, b with
  | Fin x, Fin y => (x == y)%Q
  | NaN, NaN => True
  | _, _ => False
  end.

(** The array under [TEXCOORD_0] after a run. *)
Definition texcoord0 (st : outcome RemapState) : list num :=
  match st with
  | Ok st => default [] (acc_array <$> getAttribute (rs_prim st) (TEXCOORD 0))
  | _ => []
  end.

End Predicates.

(** ** Sample data *)

Module Samples.
Import Pow2 Packer Atlas Remap Merger.

(** A shelf packer, standing in for the external library where a statement
    needs a concrete one: rects go left to right in rows, a row is closed
    when the next rect does not fit it, a bin when the next row does not. *)
Record Shelf : Type := mkShelf {
  sh_x : Z;
  sh_y : Z;
  sh_row : Z;
  sh_rects : list Rect;
  sh_full : list Bin
}.

Definition close_bin (size : Z) (st : Shelf) : list Bin :=
  match sh_rects st with
  | [] => sh_full st
  | rs => sh_full st ++ [mkBin size size rs]
  end.

Definition place (size padding : Z) (st : Shelf) (item : PackItem) : Shelf :=
  let w := item_width item in
  let h := item_height item in
  let rect x y := mkRect x y w h (item_data item) [] in
  if ((sh_x st + w <=? size) && (sh_y st + h <=? size))%bool then
    mkShelf (sh_x st + w + padding) (sh_y st) (Z.max (sh_row st) h)
      (sh_rects st ++ [rect (sh_x st) (sh_y st)]) (sh_full st)
  else
    let y := sh_y st + sh_row st + padding in
    if ((w <=? size) && (y + h <=? size))%bool then
      mkShelf (w + padding) y h (sh_rects st ++ [rect 0 y]) (sh_full st)
    else
      mkShelf (w + padding) 0 h [rect 0 0] (close_bin size st).

Definition shelf_packer (size padding : Z) (items : list PackItem) : list Bin :=
  close_bin size (fold_left (place size padding) items (mkShelf 0 0 0 [] [])).

(** What the shelf packer keeps true of its rects and bins. *)
Definition ok_rect (items : list PackItem) (rect : Rect) : Prop :=
  r_names rect = [] /\ exists item, item ∈ items /\ r_data rect = item_data item.

Definition ok_bin (size : Z) (items : list PackItem) (bin : Bin) : Prop :=
  bin_width bin = size /\ bin_height bin = size /\
  forall rect, rect ∈ bin_rects bin -> ok_rect items rect.

Definition ok_shelf (size : Z) (items : list PackItem) (st : Shelf) : Prop :=
  (forall rect, rect ∈ sh_rects st -> ok_rect items rect) /\
  (forall bin, bin ∈ sh_full st -> ok_bin size items bin).

(** Five textures of 1024 by 1024, sized and ready to pack. *)
Definition five : list PackItem :=
  imap (fun i e => mkPackItem i (e_width e) (e_height e) e)
    ((fun n => mkEntry (Some (mkTexture n "" None)) (SourceImage n) 1024 1024
                 [mkMaterial n ""]) <$> [0; 1; 2; 3; 4]%nat).

Definition sample_opts : Options := mkOptions 4096 2 1 true 4096 Sizer.BestFill.

Definition square_texture (n : nat) : Texture :=
  mkTexture n "t" (Some (Sized (Some 256) (Some 256))).

(** Every material has a base color and a normal texture of its own. *)
Definition two_channels (m : Material) (slot : Slot) : option SlotRef :=
  match slot with
  | BaseColorSlot => Some (mkSlotRef (square_texture (mat_id m)) (mkTextureInfo 0 None))
  | NormalSlot => Some (mkSlotRef (square_texture (10 + mat_id m)) (mkTextureInfo 0 None))
  | _ => None
  end.

(** Two materials that share the name ["a"]. *)
Definition twin_a : Material := mkMaterial 0 "a".
Definition twin_b : Material := mkMaterial 1 "a".
Definition twin_doc : Doc := mkDoc [twin_a; twin_b] two_channels false.

(** Two materials with names of their own. *)
Definition wood : Material := mkMaterial 0 "wood".
Definition steel : Material := mkMaterial 1 "steel".
Definition pair_doc : Doc := mkDoc [wood; steel] two_channels false.

Definition no_pass : Pass := mkPass [] ∅ [].

(** The [i]-th pass of a run. *)
Definition pass_of (run : outcome (list (MapType * Pass))) (i : nat) : Pass :=
  match run with
  | Ok passes => default no_pass (snd <$> passes !! i)
  | _ => no_pass
  end.

Definition twin_run : outcome (list (MapType * Pass)) :=
  processAtlas shelf_packer twin_doc ∅ sample_opts [basecolor; normal].

Definition pair_run : outcome (list (MapType * Pass)) :=
  processAtlas shelf_packer pair_doc ∅ sample_opts [basecolor; normal].

(** A material whose base color image has no readable width. *)
Definition torn : Material := mkMaterial 0 "torn".
Definition torn_texture : Texture := mkTexture 0 "t" (Some (Sized None (Some 64))).
Definition torn_doc : Doc :=
  mkDoc [torn]
    (fun m slot =>
       match slot with
       | BaseColorSlot => Some (mkSlotRef torn_texture (mkTextureInfo 0 None))
       | _ => None
       end)
    false.

(** The quarter of a 1024 atlas at x = 256. *)
Definition quarter : Rect :=
  mkRect 256 0 256 256 (mkEntry None (Solid basecolor 256 256) 256 256 []) [].

(** A primitive with one UV pair, at the corner (1, 1), and no transform. *)
Definition corner : RemapState :=
  mkRemapState
    (mkPrimitive [(TEXCOORD 0, mkAccessor "" VEC2 [Fin 1; Fin 1])] None None)
    (Some (mkTextureInfo 0 None)).

Definition one_run (st : RemapState) : outcome RemapState :=
  remap_run (fun _ => 1%Q) (fun _ => 0%Q) true quarter 0 1024 st.

Definition first_run : outcome RemapState := one_run corner.
Definition second_run : outcome RemapState := first_run ≫= one_run.

Definition corner_remapped : RemapState :=
  match first_run with
  | Ok st => st
  | _ => corner
  end.

(** Scaling z by zero: the upper-left block is singular. *)
Definition flatten_z : list num :=
  of_Z <$> [1; 0; 0; 0; 0; 1; 0; 0; 0; 0; 0; 0; 0; 0; 0; 1].

(** [n] vertices at the origin. *)
Definition flat_positions (n : Z) : Accessor :=
  mkAccessor "" VEC3 (repeat (Fin 0) (Z.to_nat (3 * n))).

(** 65536 vertices, one triangle. *)
Definition big_prim : Primitive :=
  mkPrimitive [(POSITION, flat_positions 65536)]
    (Some (Uint16Array [0; 1; 65535])) None.

(** Three vertices, one triangle. *)
Definition small_prim : Primitive :=
  mkPrimitive [(POSITION, flat_positions 3)] (Some (Uint16Array [0; 1; 2])) None.

(** Normals, and no POSITION. *)
Definition no_position : Primitive :=
  mkPrimitive [(NORMAL, flat_positions 3)] (Some (Uint16Array [0; 1; 2])) None.

End Samples.

(** ** Predicates of the statements about the merger *)

Module MergerSpec.
Import Merger.

(** A primitive the merger takes both vertices and indices from. *)
Definition contributes (prim : Primitive) : Prop :=
  exists pos, getAttribute prim POSITION = Some pos /\ acc_array pos <> [] /\
    match indices prim with
    | Some idx => index_values idx <> []
    | None => 1 <= getCount pos
    end.

(** The POSITION accessor, if any, holds whole three-component elements. *)
Definition whole_position (prim : Primitive) : Prop :=
  forall pos, getAttribute prim POSITION = Some pos ->
    acc_type pos = VEC3 /\ (length (acc_array pos) mod 3 = 0)%nat.

(** The indices the merger reads for a primitive with POSITION [pos]. *)
Definition own_indices (prim : Primitive) (pos : Accessor) : list Z :=
  match indices prim with
  | Some idx => index_values idx
  | None => upto (getCount pos)
  end.

(** The NORMAL array, if any, is no longer than the POSITION array. *)
Definition normals_fit (prim : Primitive) : Prop :=
  forall pos norm, getAttribute prim POSITION = Some pos ->
    getAttribute prim NORMAL = Some norm ->
    (length (acc_array norm) <= length (acc_array pos))%nat.

End MergerSpec.

(** ** Predicates of the statements about the baker *)

Module BakerSpec.
Import Geometry Baker Predicates MergerSpec.

(** Sixteen finite numbers. *)
Definition finite_mat4 (m : list num) : Prop :=
  exists qs : list Q, length qs = 16%nat /\ m = Fin <$> qs.

Definition finite_vec (v : num * num * num) : Prop :=
  exists x y z : Q, v = (Fin x, Fin y, Fin z).

(** The bottom row of a column-major 4x4 matrix is (0, 0, 0, 1). *)
Definition affine (m : list num) : Prop :=
  num_equiv (js_get m 3) (Fin 0) /\ num_equiv (js_get m 7) (Fin 0) /\
  num_equiv (js_get m 11) (Fin 0) /\ num_equiv (js_get m 15) (Fin 1).

Definition vec_equiv (a b : num * num * num) : Prop :=
  num_equiv a.1.1 b.1.1 /\ num_equiv a.1.2 b.1.2 /\ num_equiv a.2 b.2.

(** The upper-left 3x3 block of a column-major 4x4 matrix applied to a
    direction: how the matrix moves the difference of two points. *)
Definition linear_part (m : list num) (v : num * num * num) : num * num * num :=
  let '(x, y, z) := v in
  ((js_get m 0 * x + js_get m 4 * y + js_get m 8 * z)%num,
   (js_get m 1 * x + js_get m 5 * y + js_get m 9 * z)%num,
   (js_get m 2 * x + js_get m 6 * y + js_get m 10 * z)%num).

Definition finite (a : num) : Prop := exists q, a = Fin q.

(** Sixteen integers of magnitude up to 1024. The products and sums the
    baker forms of such entries are integers below 2^53, and below 2^24
    where they are stored in single precision: doubles and floats hold them
    exactly. *)
Definition small_mat4 (m : list num) : Prop :=
  exists zs : list Z, length zs = 16%nat /\ m = of_Z <$> zs /\
    Forall (fun z => -1024 <= z <= 1024) zs.

(** Three integers of magnitude up to 1024. *)
Definition small_vec (v : num * num * num) : Prop :=
  exists x y z : Z, v = (of_Z x, of_Z y, of_Z z) /\
    -1024 <= x <= 1024 /\ -1024 <= y <= 1024 /\ -1024 <= z <= 1024.

(** A determinant of 1 or -1, whose reciprocal is exact. *)
Definition unimodular (d : num) : Prop :=
  num_equiv d (Fin 1) \/ num_equiv d (Fin (-1)).

(** A finite number within the range of single precision. *)
Definition float32_range (a : num) : Prop :=
  exists q, a = Fin q /\
    (- inject_Z (2 ^ 128) <= q <= inject_Z (2 ^ 128))%Q.

(** The primitives below a node, in the order the baker visits them. *)
Fixpoint node_prims (node : Node) : list Primitive :=
  match node with
  | mkNode _ mesh children => default [] mesh ++ flat_map node_prims children
  end.

(** The primitives of the scenes, in the order the baker visits them. *)
Definition scene_prims (scenes : list (list Node)) : list Primitive :=
  flat_map (flat_map node_prims) scenes.

(** A primitive the merger takes vertices and indices from: a POSITION
    accessor with a vertex, and either no index accessor or one that is not
    empty. *)
Definition has_geometry (prim : Primitive) : Prop :=
  (exists pos, getAttribute prim POSITION = Some pos /\
               (3 <= length (acc_array pos))%nat) /\
  (forall idx, indices prim = Some idx -> index_values idx <> []).

Section WithHypot.

Variable hypot : Q -> Q -> Q -> Q.

(** What [bakePrimitiveTransform] stores under a semantic. *)
Definition baked (matrix : list num) (s : Semantic) (a : Accessor) : Accessor :=
  match s with
  | POSITION => transformVec3Accessor a matrix
  | NORMAL => transformNormalAccessor hypot a matrix
  | TANGENT => transformTangentAccessor hypot a matrix
  | _ => a
  end.

(** One round of the loop over the semantics. *)
Definition bake_step (prim : Primitive) (matrix : list num) (out : Primitive)
    (semantic : Semantic) : Primitive :=
  match getAttribute prim semantic with
  | None => out
  | Some accessor => setAttribute out semantic (baked matrix semantic accessor)
  end.

End WithHypot.

(** [out] is [prim] baked for the merged mesh: the merged material, the
    index accessor of [prim], an accessor of the same length under every
    semantic of [prim] and under no other (of type VEC3 under POSITION),
    the very accessor of [prim] outside POSITION, NORMAL and TANGENT. *)
Definition baked_from (mat : Material) (prim out : Primitive) : Prop :=
  material out = Some mat /\ indices out = indices prim /\
  forall s,
    match getAttribute prim s with
    | None => getAttribute out s = None
    | Some a =>
        exists b, getAttribute out s = Some b /\
          length (acc_array b) = length (acc_array a) /\
          (s = POSITION -> acc_type b = VEC3) /\
          (s <> POSITION -> s <> NORMAL -> s <> TANGENT -> b = a)
    end.

End BakerSpec.

(** ** Predicates of the statements about the remap *)

Module RemapSpec.

(** The rect lies in an atlas of side [size]. *)
Definition rect_within (size : Z) (rect : Rect) : Prop :=
  0 <= r_x rect /\ 0 <= r_y rect /\ 0 <= r_width rect /\ 0 <= r_height rect /\
  r_x rect + r_width rect <= size /\ r_y rect + r_height rect <= size.

End RemapSpec.

(** ** Predicates of the statements about channel passes *)

Module AtlasSpec.
Import Atlas.

(** A call that did not return. *)
Definition fails {A : Type} (o : outcome A) : Prop :=
  match o with
  | Ok _ => False
  | _ => True
  end.

(** No material of the document has an image in the texture slot of the map. *)
Definition untextured (doc : Doc) (map : MapType) : Prop :=
  forall mat tex, mat ∈ doc_materials doc -> getter doc map mat = Some tex ->
    tex_image tex = None.

(** The material reads [tex] in the slot of the map. *)
Definition uses (doc : Doc) (map : MapType) (tex : Texture) (mat : Material) : Prop :=
  getter doc map mat = Some tex.

#[global] Instance uses_dec doc map tex mat : Decision (uses doc map tex mat).
Proof. unfold uses. apply _. Defined.

(** What the loop over the materials keeps true of the entries once the
    materials [done] are behind it: one entry per texture, every entry with
    the materials that read its texture, every texture with an image read
    so far with an entry. *)
Definition entries_cover (doc : Doc) (map : MapType) (done : list Material)
    (entries : list Entry) : Prop :=
  NoDup (e_texture <$> entries) /\
  (forall e, e ∈ entries ->
     exists tex, e_texture e = Some tex /\ is_Some (tex_image tex) /\
       e_materials e = filter (uses doc map tex) done) /\
  (forall mat tex, mat ∈ done -> getter doc map mat = Some tex ->
     is_Some (tex_image tex) -> exists e, e ∈ entries /\ e_texture e = Some tex).

End AtlasSpec.

(** ** Predicates of the statements about the layout check *)

Module VerifySpec.
Import Verify.

(** Every key of [seen], as many times as it has been pushed. *)
Definition spread (seen : list (Key * list string)) : list Key :=
  flat_map (fun kl => repeat (fst kl) (length (snd kl))) seen.

End VerifySpec.

(** ** More sample data *)

Module MoreSamples.
Import Atlas Samples Baker Geometry Verify.

(** A quarter turn about z: the x axis goes to the y axis. *)
Definition quarter_turn : list num :=
  of_Z <$> [0; 1; 0; 0; -1; 0; 0; 0; 0; 0; 1; 0; 0; 0; 0; 1].

(** A move by one along x. *)
Definition shift_x : list num :=
  of_Z <$> [1; 0; 0; 0; 0; 1; 0; 0; 0; 0; 1; 0; 1; 0; 0; 1].

(** Twice as large. *)
Definition twice : list num :=
  of_Z <$> [2; 0; 0; 0; 0; 2; 0; 0; 0; 0; 2; 0; 0; 0; 0; 1].

(** A shear: x grows by y. Its inverse transpose differs from its inverse. *)
Definition shear_xy : list num :=
  of_Z <$> [1; 0; 0; 0; 1; 1; 0; 0; 0; 0; 1; 0; 0; 0; 0; 1].

(** A sum of squares, standing in for [Math.hypot] where a statement needs
    a concrete function. *)
Definition squares (a b c : Q) : Q := (a * a + b * b + c * c)%Q.

(** A triangle with normals. *)
Definition lit_prim : Primitive :=
  mkPrimitive [(POSITION, flat_positions 3); (NORMAL, flat_positions 3)]
    (Some (Uint16Array [0; 1; 2])) None.

(** Two UV sets, under accessors without a name. *)
Definition uv_prim : Primitive :=
  mkPrimitive
    [(TEXCOORD 0, mkAccessor "" VEC2 [Fin 0; Fin 0]);
     (TEXCOORD 1, mkAccessor "" VEC2 [Fin 1; Fin 1])]
    None None.

(** One tangent, of handedness -1. *)
Definition one_tangent : Accessor :=
  mkAccessor "" VEC4 [Fin 1; Fin 0; Fin 0; Fin (-1)].

(** A scene of one node with a triangle and a child, moved along x, with
    another. *)
Definition two_meshes : list (list Node) :=
  [[mkNode None (Some [small_prim]) [mkNode (Some shift_x) (Some [small_prim]) []]]].

(** Two materials that read the same base color texture. *)
Definition shared_doc : Doc :=
  mkDoc [wood; steel]
    (fun m slot =>
       match slot with
       | BaseColorSlot => Some (mkSlotRef (square_texture 7) (mkTextureInfo 0 None))
       | _ => None
       end)
    false.


End MoreSamples.

(** * Part III: properties *)

(** ** Attribute lists and outcomes *)

Module BasicFacts.

Lemma lookup_set_attr_eq s a l : lookup_attr s (set_attr s a l) = Some a.
Proof.
  induction l as [|[k b] rest IH]; simpl.
  - by rewrite decide_True.
  - destruct (decide (k = s)) as [->|Hne]; simpl.
    + by rewrite decide_True.
    + by rewrite decide_False.
Qed.

Lemma lookup_set_attr_ne s t a l :
  s ≠ t -> lookup_attr t (set_attr s a l) = lookup_attr t l.
Proof.
  intros Hne. induction l as [|[k b] rest IH]; simpl.
  - by rewrite decide_False.
  - destruct (decide (k = s)) as [->|Hks]; simpl.
    + by rewrite !decide_False.
    + destruct (decide (k = t)); [done | apply IH].
Qed.

Lemma getAttribute_set_eq p s a : getAttribute (setAttribute p s a) s = Some a.
Proof. apply lookup_set_attr_eq. Qed.

Lemma bind_Ok {A B} (m : outcome A) (k : A -> outcome B) b :
  (m ≫= k) = Ok b -> exists a, m = Ok a /\ k a = Ok b.
Proof. destruct m as [a| |]; cbn; intros H; [eauto | discriminate | discriminate]. Qed.

End BasicFacts.

(** ** Powers of two *)

Module Pow2Facts.
Import Pow2.

Lemma nearestPow2_loop_spec fuel : forall p n,
  0 < p -> n < p * 2 ^ Z.of_nat fuel ->
  let r := nearestPow2_loop fuel p n in
  (exists k, 0 <= k /\ r = p * 2 ^ k) /\ n < r * 2 /\ (p <= n -> r <= n).
Proof.
  induction fuel as [|fuel IH]; intros p n Hp Hn; cbn [nearestPow2_loop].
  - change (2 ^ Z.of_nat 0) with 1 in Hn. repeat split; [exists 0; lia | lia | lia].
  - destruct (Z.leb_spec (p * 2) n) as [Hle|Hgt].
    + rewrite Nat2Z.inj_succ, Z.pow_succ_r in Hn by lia.
      destruct (IH (p * 2) n) as [[k [Hk Hr]] [H1 H2]]; [lia | lia |].
      repeat split.
      * exists (k + 1). split; [lia|]. rewrite Hr, Z.pow_add_r by lia. lia.
      * exact H1.
      * intros _. apply H2. lia.
    + repeat split; [exists 0; lia | lia | lia].
Qed.

Lemma nearestPow2_spec n : 1 <= n ->
  exists k, 0 <= k /\ nearestPow2 n = 2 ^ k /\ 2 ^ k <= n < 2 ^ (k + 1).
Proof.
  intros Hn. unfold nearestPow2.
  destruct (nearestPow2_loop_spec (Z.to_nat n) 1 n) as [[k [Hk Hr]] [H1 H2]].
  - lia.
  - rewrite Z2Nat.id by lia. pose proof (Z.pow_gt_lin_r 2 n). lia.
  - exists k. rewrite Hr. rewrite Z.pow_add_r by lia. 
    specialize (H2 Hn). rewrite Hr in *. split; [lia|]. split; lia.
Qed.

Lemma nearestPow2_small n : n < 2 -> nearestPow2 n = 1.
Proof.
  intros Hn. unfold nearestPow2. destruct (Z.to_nat n) as [|f] eqn:E; [reflexivity|].
  cbn [nearestPow2_loop]. destruct (Z.leb_spec (1 * 2) n); [lia | reflexivity].
Qed.

Lemma nearestPow2_range k n :
  0 <= k -> 2 ^ k <= n < 2 ^ (k + 1) -> nearestPow2 n = 2 ^ k.
Proof.
  intros Hk [Hlo Hhi].
  assert (1 <= n) by (pose proof (Z.pow_pos_nonneg 2 k); lia).
  destruct (nearestPow2_spec n) as [j [Hj [Hr [Hjl Hjh]]]]; [lia|].
  rewrite Hr. f_equal.
  rewrite <- (Z.log2_unique n j) by lia.
  apply Z.log2_unique; lia.
Qed.

Lemma nearestPow2_ge k n : 0 <= k -> 2 ^ k <= n -> 2 ^ k <= nearestPow2 n.
Proof.
  intros Hk Hlo.
  assert (1 <= n) by (pose proof (Z.pow_pos_nonneg 2 k); lia).
  destruct (nearestPow2_spec n) as [j [Hj [Hr [Hjl Hjh]]]]; [lia|].
  rewrite Hr. apply Z.pow_le_mono_r; [lia|].
  destruct (Z.le_gt_cases k j); [lia|].
  assert (2 ^ (j + 1) <= 2 ^ k) by (apply Z.pow_le_mono_r; lia). lia.
Qed.

Lemma nearestPow2_le n : 1 <= n -> nearestPow2 n <= n.
Proof.
  intros Hn. destruct (nearestPow2_spec n) as [j [Hj [Hr [Hjl Hjh]]]]; [lia|]. lia.
Qed.

Lemma nearestPow2_is_pow2 n : is_pow2 (nearestPow2 n).
Proof.
  destruct (Z.le_gt_cases 1 n).
  - destruct (nearestPow2_spec n) as [j [Hj [Hr _]]]; [lia|]. exists j. auto.
  - rewrite nearestPow2_small by lia. exists 0. split; [lia | reflexivity].
Qed.

Lemma nearestPow2_mono a b : a <= b -> nearestPow2 a <= nearestPow2 b.
Proof.
  intros Hab. destruct (Z.lt_ge_cases a 2) as [Ha|Ha].
  - rewrite (nearestPow2_small a) by lia.
    destruct (nearestPow2_is_pow2 b) as [k [Hk ->]].
    pose proof (Z.pow_pos_nonneg 2 k). lia.
  - destruct (nearestPow2_spec a) as [j [Hj [Hr _]]]; [lia|].
    rewrite Hr. apply nearestPow2_ge; [lia|].
    rewrite <- Hr. pose proof (nearestPow2_le a). lia.
Qed.

Lemma nearestPow2_min a b :
  nearestPow2 (Z.min a b) = Z.min (nearestPow2 a) (nearestPow2 b).
Proof.
  destruct (Z.le_ge_cases a b) as [H|H].
  - pose proof (nearestPow2_mono a b H). rewrite !Z.min_l by lia. reflexivity.
  - pose proof (nearestPow2_mono b a H). rewrite !Z.min_r by lia. reflexivity.
Qed.

(** The sizes the sizer tells apart. *)
Lemma nearestPow2_cases n :
  nearestPow2 n <= 256 \/ nearestPow2 n = 512 \/ nearestPow2 n = 1024 \/
  nearestPow2 n = 2048 \/ 4096 <= nearestPow2 n.
Proof.
  destruct (nearestPow2_is_pow2 n) as [k [Hk ->]].
  destruct (Z.le_gt_cases k 8) as [H8|H8].
  { left. change 256 with (2 ^ 8). apply Z.pow_le_mono_r; lia. }
  destruct (Z.le_gt_cases 12 k) as [H12|H12].
  { do 4 right. change 4096 with (2 ^ 12). apply Z.pow_le_mono_r; lia. }
  assert (k = 9 \/ k = 10 \/ k = 11) as [-> | [-> | ->]] by lia; auto.
Qed.

Lemma to_int32_small z : -2147483648 <= z < 2147483648 -> to_int32 z = z.
Proof.
  intros Hz. unfold to_int32.
  rewrite Z.mod_small by lia. lia.
Qed.

Lemma shiftl_one p : Z.shiftl p 1 = p * 2.
Proof. rewrite Z.shiftl_mul_pow2 by lia. reflexivity. Qed.

Lemma pow2_30 i : 0 <= i <= 30 -> 1 <= 2 ^ i <= 1073741824.
Proof.
  intros Hi. split.
  - pose proof (Z.pow_pos_nonneg 2 i). lia.
  - change 1073741824 with (2 ^ 30). apply Z.pow_le_mono_r; lia.
Qed.

(** Below the wrap the loop ends, at the least power of two that is not below [n]. *)
Lemma nextPow2_loop_spec n : n <= 1073741824 ->
  forall fuel i, 0 <= i <= 30 -> 30 - i < Z.of_nat fuel ->
  exists k, i <= k <= 30 /\ nextPow2_loop fuel (2 ^ i) n = Some (2 ^ k) /\
            n <= 2 ^ k /\ (k = i \/ 2 ^ (k - 1) < n).
Proof.
  intros Hn. induction fuel as [|fuel IH]; intros i Hi Hf; [lia|].
  cbn [nextPow2_loop]. destruct (Z.ltb_spec (2 ^ i) n) as [Hlt|Hge].
  - assert (i < 30).
    { destruct (Z.lt_ge_cases i 30); [assumption|].
      assert (i = 30) by lia. subst i. change (2 ^ 30) with 1073741824 in Hlt. lia. }
    rewrite shiftl_one.
    replace (2 ^ i * 2) with (2 ^ (i + 1)) by (rewrite Z.pow_add_r by lia; lia).
    rewrite to_int32_small by (pose proof (pow2_30 (i + 1)); lia).
    destruct (IH (i + 1)) as [k [Hk [E [Hle Hmin]]]]; [lia | lia |].
    exists k. split; [lia|]. split; [exact E|]. split; [exact Hle|].
    right. destruct Hmin as [->|Hmin]; [|exact Hmin].
    replace (i + 1 - 1) with i by lia. exact Hlt.
  - exists i. repeat split; [lia | lia | lia | left; reflexivity].
Qed.

Lemma nextPow2_loop_zero n : 0 < n -> forall fuel, nextPow2_loop fuel 0 n = None.
Proof.
  intros Hn. induction fuel as [|fuel IH]; [reflexivity|].
  cbn [nextPow2_loop]. destruct (Z.ltb_spec 0 n); [|lia]. exact IH.
Qed.

(** Above 2^30 the shift wraps and the loop never ends. *)
Lemma nextPow2_loop_wraps n : 1073741824 < n ->
  forall fuel i, 0 <= i <= 30 -> nextPow2_loop fuel (2 ^ i) n = None.
Proof.
  intros Hn. induction fuel as [|fuel IH]; intros i Hi; [reflexivity|].
  cbn [nextPow2_loop].
  destruct (Z.ltb_spec (2 ^ i) n) as [_|Hge]; [|pose proof (pow2_30 i); lia].
  rewrite shiftl_one.
  destruct (Z.eq_dec i 30) as [->|Hne].
  - change (to_int32 (2 ^ 30 * 2)) with (-2147483648).
    destruct fuel as [|fuel']; [reflexivity|].
    cbn [nextPow2_loop]. destruct (Z.ltb_spec (-2147483648) n); [|lia].
    change (to_int32 (Z.shiftl (-2147483648) 1)) with 0.
    apply nextPow2_loop_zero. lia.
  - replace (2 ^ i * 2) with (2 ^ (i + 1)) by (rewrite Z.pow_add_r by lia; lia).
    rewrite to_int32_small by (pose proof (pow2_30 (i + 1)); lia).
    apply IH. lia.
Qed.

Lemma nextPow2_Some n r : nextPow2 n = Some r ->
  n <= 1073741824 /\ is_pow2 r /\ n <= r /\ r <= 1073741824 /\
  (forall k, 0 <= k -> n <= 2 ^ k -> r <= 2 ^ k).
Proof.
  unfold nextPow2. intros E.
  destruct (Z.le_gt_cases n 1073741824) as [Hn|Hn].
  - split; [exact Hn|].
    destruct (nextPow2_loop_spec n Hn 64 0) as [k [Hk [E' [Hle Hmin]]]]; [lia | lia |].
    change (2 ^ 0) with 1 in E'. rewrite E' in E. injection E as <-.
    split; [exists k; split; [lia | reflexivity]|]. split; [exact Hle|].
    split; [apply (pow2_30 k); lia|].
    intros j Hj Hnj. destruct Hmin as [->|Hmin].
    + pose proof (Z.pow_pos_nonneg 2 j). change (2 ^ 0) with 1. lia.
    + apply Z.pow_le_mono_r; [lia|].
      destruct (Z.le_gt_cases k j); [assumption|].
      assert (2 ^ j <= 2 ^ (k - 1)) by (apply Z.pow_le_mono_r; lia). lia.
  - pose proof (nextPow2_loop_wraps n Hn 64 0 ltac:(lia)) as E'.
    change (2 ^ 0) with 1 in E'. rewrite E' in E. discriminate.
Qed.

Lemma nextPow2_terminates n : n <= 1073741824 -> exists r, nextPow2 n = Some r.
Proof.
  intros Hn. destruct (nextPow2_loop_spec n Hn 64 0) as [k [_ [E _]]]; [lia | lia |].
  exists (2 ^ k). exact E.
Qed.

Lemma nextPow2_of_pow2 s r : is_pow2 s -> nextPow2 s = Some r -> r = s.
Proof.
  intros [k [Hk ->]] E. apply nextPow2_Some in E as [_ [_ [Hle [_ Hmin]]]].
  specialize (Hmin k Hk). lia.
Qed.

End Pow2Facts.

(** ** Texture Sizer *)

Module SizerProps.
Import Pow2 Sizer Pow2Facts.

Lemma allowed_cases maxSize :
  256 <= maxSize ->
  (nearestPow2 maxSize = 256 /\ allowed maxSize = [256]) \/
  (nearestPow2 maxSize = 512 /\ allowed maxSize = [256; 512]) \/
  (nearestPow2 maxSize = 1024 /\ allowed maxSize = [256; 512; 1024]) \/
  (nearestPow2 maxSize = 2048 /\ allowed maxSize = [256; 512; 1024; 2048]) \/
  (4096 <= nearestPow2 maxSize /\ allowed maxSize = [256; 512; 1024; 2048; 4096]).
Proof.
  intros HM. unfold allowed.
  destruct (Z.lt_ge_cases maxSize 512); [left|right].
  { split; [apply (nearestPow2_range 8); cbn; lia|]. rewrite filter_cons_True by lia.
    repeat (rewrite filter_cons_False by lia). reflexivity. }
  destruct (Z.lt_ge_cases maxSize 1024); [left|right].
  { split; [apply (nearestPow2_range 9); cbn; lia|]. do 2 rewrite filter_cons_True by lia.
    repeat (rewrite filter_cons_False by lia). reflexivity. }
  destruct (Z.lt_ge_cases maxSize 2048); [left|right].
  { split; [apply (nearestPow2_range 10); cbn; lia|]. do 3 rewrite filter_cons_True by lia.
    repeat (rewrite filter_cons_False by lia). reflexivity. }
  destruct (Z.lt_ge_cases maxSize 4096); [left|right].
  { split; [apply (nearestPow2_range 11); cbn; lia|]. do 4 rewrite filter_cons_True by lia.
    repeat (rewrite filter_cons_False by lia). reflexivity. }
  split; [apply (nearestPow2_ge 12); cbn; lia|]. do 5 rewrite filter_cons_True by lia. reflexivity.
Qed.

Lemma bucket_cases rel :
  bucket rel = 256 \/ bucket rel = 512 \/ bucket rel = 1024 \/ bucket rel = 2048.
Proof.
  unfold bucket. repeat destruct (Qle_bool _ _); auto.
Qed.

Lemma nearestPow2_allowed v :
  v ∈ [256; 512; 1024; 2048; 4096] -> nearestPow2 v = v.
Proof.
  intros Hv. repeat (apply elem_of_cons in Hv as [-> | Hv]; [reflexivity|]).
  by apply elem_of_nil in Hv.
Qed.

Lemma snap_in l first t : snap l first t ∈ first :: l.
Proof.
  unfold snap. revert first. induction l as [|v l IH]; intros first; cbn [fold_left].
  - apply list_elem_of_here.
  - destruct (v <=? t).
    + specialize (IH v). apply elem_of_cons in IH as [-> | IH].
      * apply list_elem_of_further, list_elem_of_here.
      * do 2 apply list_elem_of_further. exact IH.
    + specialize (IH first). apply elem_of_cons in IH as [-> | IH].
      * apply list_elem_of_here.
      * do 2 apply list_elem_of_further. exact IH.
Qed.

Lemma allowed_bounds maxSize v : v ∈ allowed maxSize ->
  v ∈ [256; 512; 1024; 2048; 4096] /\ v <= maxSize.
Proof.
  unfold allowed. intros Hv. apply list_elem_of_filter in Hv as [H1 H2]. auto.
Qed.

(** The value [suggestSizeBestFill] returns survives the two clamps. *)
Lemma target_step_form matArea maxMatArea maxSize width height :
  256 <= maxSize -> 1 <= width -> 1 <= height ->
  targetSize true BestFill matArea maxMatArea maxSize width height =
  Z.min
    (snap (allowed maxSize) 256
       (Z.max (nearestPow2 (Z.min (Z.min width height) maxSize))
              (bucket (if Qlt_le_dec 0 maxMatArea then matArea / maxMatArea else 0)%Q)))
    (nearestPow2 (Z.min width height)).
Proof.
  intros HM Hw Hh. unfold targetSize, suggestSizeBestFill.
  replace (Z.max 1 (Z.min width height)) with (Z.min width height) by lia.
  set (t := Z.max _ (bucket _)).
  destruct (allowed maxSize) as [|first rest] eqn:E.
  { exfalso. destruct (allowed_cases maxSize HM) as [[_ E']|[[_ E']|[[_ E']|[[_ E']|[_ E']]]]];
      rewrite E in E'; discriminate. }
  assert (Hfirst : first = 256).
  { destruct (allowed_cases maxSize HM) as [[_ E']|[[_ E']|[[_ E']|[[_ E']|[_ E']]]]];
      rewrite E in E'; congruence. }
  subst first.
  assert (Hin : snap (256 :: rest) 256 t ∈ allowed maxSize).
  { rewrite E. pose proof (snap_in (256 :: rest) 256 t) as H.
    apply elem_of_cons in H as [-> | H]; [apply list_elem_of_here | exact H]. }
  apply allowed_bounds in Hin as [Hin Hle].
  assert (256 <= snap (256 :: rest) 256 t).
  { clear -Hin. repeat (apply elem_of_cons in Hin as [-> | Hin]; [lia|]).
    by apply elem_of_nil in Hin. }
  unfold clampPow2. set (v := snap (256 :: rest) 256 t) in *.
  rewrite (nearestPow2_allowed v Hin).
  rewrite (Z.min_r maxSize v), (Z.max_r 256 v) by lia.
  rewrite (nearestPow2_allowed v Hin).
  rewrite (Z.min_r maxSize v), (Z.max_r 256 v) by lia.
  reflexivity.
Qed.

Lemma target_closed_form matArea maxMatArea maxSize width height :
  256 <= maxSize -> 1 <= width -> 1 <= height ->
  targetSize true BestFill matArea maxMatArea maxSize width height =
  Z.min (nearestPow2 (Z.min width height)) (Z.min (nearestPow2 maxSize) 4096).
Proof.
  intros HM Hw Hh. rewrite target_step_form by assumption.
  rewrite nearestPow2_min.
  set (s := nearestPow2 (Z.min width height)).
  assert (Hs1 : 1 <= s).
  { subst s. destruct (nearestPow2_is_pow2 (Z.min width height)) as [k [Hk ->]].
    pose proof (Z.pow_pos_nonneg 2 k). lia. }
  pose proof (nearestPow2_cases (Z.min width height)) as Hs. fold s in Hs.
  destruct (bucket_cases (if Qlt_le_dec 0 maxMatArea then matArea / maxMatArea else 0)%Q)
    as [Hb|[Hb|[Hb|Hb]]]; rewrite Hb; clear Hb.
  all: destruct (allowed_cases maxSize HM) as [[HA E]|[[HA E]|[[HA E]|[[HA E]|[HA E]]]]];
    rewrite E; clear E; unfold snap; cbn [fold_left].
  all: destruct Hs as [Hs|[Hs|[Hs|[Hs|Hs]]]]; try rewrite Hs; try rewrite HA.
  all: repeat match goal with
       | |- context [?a <=? ?b] => destruct (Z.leb_spec a b); try lia
       end.
Qed.

(** C3, as the code has it. With area metadata, [maxSize] of at least 256
    and a source of at least one pixel each way, the relative-area bucket is
    a floor the target is promoted to, not a ceiling: the target is the
    larger of the bucket and the source's nearest power of two (capped by
    [maxSize]), snapped down to the largest allowed size, then capped by the
    source's nearest power of two. That is the least of the source's nearest
    power of two, the nearest power of two of [maxSize], and 4096, whatever
    the area: the source is never upscaled and [maxSize] is respected. *)
Theorem target_size_best_fill (matArea maxMatArea : Q) (maxSize width height : Z) :
  256 <= maxSize -> 1 <= width -> 1 <= height ->
  let rel := (if Qlt_le_dec 0 maxMatArea then matArea / maxMatArea else 0)%Q in
  let source := nearestPow2 (Z.min width height) in
  let target := targetSize true BestFill matArea maxMatArea maxSize width height in
  target = Z.min (snap (allowed maxSize) 256
                    (Z.max (nearestPow2 (Z.min (Z.min width height) maxSize)) (bucket rel)))
                 source /\
  target = Z.min source (Z.min (nearestPow2 maxSize) 4096) /\
  target <= source /\ target <= width /\ target <= height /\ target <= maxSize.
Proof.
  intros HM Hw Hh rel source target.
  pose proof (target_step_form matArea maxMatArea maxSize width height HM Hw Hh) as Hstep.
  pose proof (target_closed_form matArea maxMatArea maxSize width height HM Hw Hh) as Hclosed.
  fold target in Hstep, Hclosed. fold source in Hclosed.
  pose proof (nearestPow2_le (Z.min width height) ltac:(lia)) as Hsrc. fold source in Hsrc.
  pose proof (nearestPow2_le maxSize ltac:(lia)) as Hmax.
  split; [exact Hstep|]. split; [exact Hclosed|]. lia.
Qed.

Lemma target_size_best_fill_witness :
  let target := targetSize true BestFill 0 1 4096 1024 1024 in
  target = Z.min (snap (allowed 4096) 256
                    (Z.max (nearestPow2 (Z.min (Z.min 1024 1024) 4096))
                       (bucket (if Qlt_le_dec 0 1 then 0 / 1 else 0)%Q)))
                 (nearestPow2 (Z.min 1024 1024)) /\
  target = Z.min (nearestPow2 (Z.min 1024 1024)) (Z.min (nearestPow2 4096) 4096) /\
  target <= nearestPow2 (Z.min 1024 1024) /\ target <= 1024 /\ target <= 1024 /\
  target <= 4096.
Proof.
  exact (target_size_best_fill 0 1 4096 1024 1024 ltac:(lia) ltac:(lia) ltac:(lia)).
Defined.

(** C3, as stated, fails: a 1024 by 1024 source whose material covers no
    area (bucket 256) is sized 1024, above its bucket. *)
Lemma target_exceeds_bucket :
  ~ (targetSize true BestFill 0 1 4096 1024 1024 <= bucket (0 / 1)).
Proof.
  assert (E : targetSize true BestFill 0 1 4096 1024 1024 = 1024) by (vm_compute; reflexivity).
  assert (Eb : bucket (0 / 1) = 256) by reflexivity.
  rewrite E, Eb. lia.
Qed.

End SizerProps.

(** ** Atlas Packer *)

Module PackerProps.
Import Pow2 Packer Pow2Facts BasicFacts PackerContract Predicates Samples.

Section PackerFacts.

Variable P : Z -> Z -> list PackItem -> list Bin.

Lemma pack_loop_Ok fuel : forall size rects maxSize padding maxBins s bins,
  pack_loop P fuel size rects maxSize padding maxBins = Ok (s, bins) ->
  (exists j, 0 <= j /\ s = size * 2 ^ j) /\ s <= maxSize /\
  bins = P s padding rects /\ Z.of_nat (length bins) <= maxBins.
Proof.
  induction fuel as [|fuel IH]; intros size rects maxSize padding maxBins s bins E;
    cbn [pack_loop] in E; [discriminate|].
  destruct (Z.leb_spec size maxSize) as [Hle|Hgt]; [|discriminate].
  destruct (Z.leb_spec (Z.of_nat (length (P size padding rects))) maxBins) as [Hb|Hb].
  - injection E as <- <-. repeat split; [exists 0; lia | lia | lia].
  - apply IH in E as [[j [Hj ->]] [H1 [H2 H3]]].
    repeat split; [|assumption..].
    exists (j + 1). split; [lia|]. rewrite Z.pow_add_r by lia. lia.
Qed.

(** The fuel of [packIntoAtlas] is never used up. *)
Lemma pack_loop_terminates fuel : forall size rects maxSize padding maxBins,
  0 < size -> maxSize < size * 2 ^ Z.of_nat fuel ->
  pack_loop P (S fuel) size rects maxSize padding maxBins <> Diverge.
Proof.
  induction fuel as [|fuel IH]; intros size rects maxSize padding maxBins Hs Hm;
    cbn [pack_loop].
  - change (2 ^ Z.of_nat 0) with 1 in Hm.
    destruct (Z.leb_spec size maxSize); [lia | discriminate].
  - destruct (Z.leb_spec size maxSize); [|discriminate].
    destruct (Z.leb_spec (Z.of_nat (length (P size padding rects))) maxBins);
      [discriminate|].
    apply IH; [lia|].
    rewrite Nat2Z.inj_succ, Z.pow_succ_r in Hm by lia. lia.
Qed.

Lemma packIntoAtlas_terminates rects maxSize padding maxBins :
  maxDim rects <= 1073741824 ->
  packIntoAtlas P rects maxSize padding maxBins <> Diverge.
Proof.
  intros Hd. unfold packIntoAtlas.
  destruct (nextPow2_terminates (Z.max (maxDim rects) 256)) as [size E]; [lia|].
  rewrite E. apply nextPow2_Some in E as [_ [_ [Hle _]]].
  destruct (Z.le_gt_cases maxSize 0) as [Hm|Hm].
  - replace (Z.to_nat maxSize) with 0%nat by lia. cbn [pack_loop].
    destruct (Z.leb_spec size maxSize); [lia | discriminate].
  - apply pack_loop_terminates; [lia|].
    rewrite Z2Nat.id by lia. pose proof (Z.pow_gt_lin_r 2 maxSize). nia.
Qed.

Lemma packIntoAtlas_Ok rects maxSize padding maxBins s bins :
  packIntoAtlas P rects maxSize padding maxBins = Ok (s, bins) ->
  good_size maxSize s /\ bins = P s padding rects /\ Z.of_nat (length bins) <= maxBins.
Proof.
  unfold packIntoAtlas. destruct (nextPow2 _) as [size|] eqn:E; [|discriminate].
  intros H. apply pack_loop_Ok in H as [[j [Hj ->]] [H1 [H2 H3]]].
  apply nextPow2_Some in E as [_ [[k [Hk ->]] [Hle _]]].
  split; [|auto]. split.
  - exists (k + j). split; [lia|]. rewrite Z.pow_add_r by lia. reflexivity.
  - pose proof (Z.pow_pos_nonneg 2 j). nia.
Qed.

End PackerFacts.


Section SearchFacts.

Variable P : Z -> Z -> list PackItem -> list Bin.
Variables (rects : list PackItem) (maxSize padding : Z).

(** [high] reaches the floor before the fuel of the halving loop is used up. *)
Lemma shrink_terminates fuel : forall high,
  (forall scale, canPack P rects maxSize padding 1 scale <> Diverge) ->
  (high <= inject_Z (2 ^ Z.of_nat fuel) * (1 # 100))%Q ->
  shrink P (S fuel) rects maxSize padding high <> Diverge.
Proof.
  induction fuel as [|fuel IH]; intros high Hcan Hhigh; cbn [shrink].
  - change (inject_Z (2 ^ Z.of_nat 0) * (1 # 100))%Q with (1 * (1 # 100))%Q in Hhigh.
    destruct (Qle_bool high (1 # 100)) eqn:E; [cbn; discriminate|].
    exfalso. apply Bool.not_true_iff_false in E. apply E. apply Qle_bool_iff.
    rewrite Qmult_1_l in Hhigh. exact Hhigh.
  - destruct (Qle_bool high (1 # 100)); cbn [negb]; [discriminate|].
    pose proof (Hcan high) as Hh.
    destruct (canPack P rects maxSize padding 1 high) as [[|]| |]; cbn;
      [discriminate | | discriminate | contradiction].
    apply IH; [assumption|].
    rewrite Nat2Z.inj_succ, Z.pow_succ_r in Hhigh by lia.
    rewrite inject_Z_mult in Hhigh.
    change (inject_Z 2) with 2%Q in Hhigh.
    set (x := inject_Z (2 ^ Z.of_nat fuel)) in *. lra.
Qed.

End SearchFacts.

(** The scale is applied with a floor of one pixel. *)
Lemma scale_dim_floor d scale : 1 <= scale_dim d scale.
Proof. unfold scale_dim. lia. Qed.

Lemma resize_floor packInput scale :
  Forall (fun item => 1 <= item_width item /\ 1 <= item_height item)
    (resizePackInputToScale packInput scale).
Proof.
  unfold resizePackInputToScale. apply Forall_fmap, Forall_forall.
  intros item _. cbn. split; apply scale_dim_floor.
Qed.

Section ShelfFacts.

Variables (size padding : Z) (items : list PackItem).

Lemma close_bin_ok st bin : ok_shelf size items st -> bin ∈ close_bin size st -> ok_bin size items bin.
Proof.
  intros [Hr Hf] Hin. unfold close_bin in Hin.
  destruct (sh_rects st) as [|r rs] eqn:E; [by apply Hf|].
  apply elem_of_app in Hin as [Hin|Hin]; [by apply Hf|].
  apply list_elem_of_singleton in Hin as ->. split; [reflexivity|]. split; [reflexivity|]. exact Hr.
Qed.

Lemma place_ok st item : item ∈ items -> ok_shelf size items st -> ok_shelf size items (place size padding st item).
Proof.
  intros Hitem Hst.
  assert (Hnew : forall x y,
    ok_rect items (mkRect x y (item_width item) (item_height item) (item_data item) [])).
  { intros x y. split; [reflexivity|]. exists item. auto. }
  assert (Happ : forall x y rect,
    rect ∈ sh_rects st ++ [mkRect x y (item_width item) (item_height item) (item_data item) []] ->
    ok_rect items rect).
  { intros x y rect Hin. apply elem_of_app in Hin as [Hin|Hin]; [by apply Hst|].
    apply list_elem_of_singleton in Hin as ->. apply Hnew. }
  unfold place.
  destruct (_ && _)%bool; [split; cbn; [apply Happ | apply Hst]|].
  destruct (_ && _)%bool; [split; cbn; [apply Happ | apply Hst]|].
  split; cbn.
  - intros rect Hin. apply list_elem_of_singleton in Hin as ->. apply Hnew.
  - intros bin Hin. by apply (close_bin_ok st).
Qed.

Lemma fold_place_ok : forall l st,
  (forall item, item ∈ l -> item ∈ items) -> ok_shelf size items st ->
  ok_shelf size items (fold_left (place size padding) l st).
Proof.
  induction l as [|item rest IH]; intros st Hl Hst; cbn [fold_left]; [exact Hst|].
  apply IH.
  - intros i Hi. apply Hl. by apply list_elem_of_further.
  - apply place_ok; [apply Hl, list_elem_of_here | exact Hst].
Qed.

Lemma shelf_packer_ok bin : bin ∈ shelf_packer size padding items -> ok_bin size items bin.
Proof.
  apply close_bin_ok, fold_place_ok; [auto|].
  split; intros x Hx; by apply elem_of_nil in Hx.
Qed.

End ShelfFacts.

Lemma shelf_packer_fits : packer_fits shelf_packer.
Proof.
  intros size padding items bin Hin.
  apply shelf_packer_ok in Hin as [-> [-> _]]. lia.
Qed.

Lemma shelf_packer_keeps_payloads : packer_keeps_payloads shelf_packer.
Proof.
  intros size padding items bin rect Hbin Hrect.
  apply shelf_packer_ok in Hbin as [_ [_ Hr]]. by apply Hr.
Qed.


(** C5 on five 1024 textures, [maxSize] 2048, no padding. Scale 1 does not
    fit and the halved bound 1/2 does; every probe of the ten refinement
    rounds lies below 1/2 and fits; the scale returned is 1023/2048, below
    the bound 1/2 that was found to fit. *)
Lemma single_bin_search_undershoots :
  canPack shelf_packer five 2048 0 1 1 = Ok false /\
  canPack shelf_packer five 2048 0 1 (1 # 2) = Ok true /\
  (exists q, findBestScaleForSingleBin shelf_packer five 2048 0 = Ok q /\
             (q == 1023 # 2048)%Q /\ (q < 1 # 2)%Q).
Proof.
  split; [vm_compute; reflexivity|]. split; [vm_compute; reflexivity|].
  eexists. split; [vm_compute; reflexivity|]. split; reflexivity.
Qed.

End PackerProps.

(** ** Channel passes and the pipeline *)

Module AtlasProps.
Import Pow2 Packer Atlas Pow2Facts BasicFacts PackerContract Predicates Samples PackerProps.

Section PackBins.

Variable P : Z -> Z -> list PackItem -> list Bin.

Lemma pack_bins_Ok opts packInput s bins :
  pack_bins P opts packInput = Ok (s, bins) ->
  good_size (maxSize opts) s /\ bins <> [] /\
  exists padding rects, bins = P s padding rects.
Proof.
  unfold pack_bins. intros H.
  apply bind_Ok in H as [scale [_ H]].
  apply bind_Ok in H as [[s' bins'] [Hp H]].
  cbn [snd] in H. destruct bins' as [|b bs]; [discriminate|].
  injection H as <- <-.
  apply packIntoAtlas_Ok in Hp as [Hg [Hb _]].
  split; [exact Hg|]. split; [discriminate|]. eauto.
Qed.

End PackBins.

Lemma reuse_bins_Ok map allMats entries rects size s bins :
  reuse_bins map allMats entries rects size = Ok (s, bins) ->
  is_pow2 s /\ 256 <= s /\ fst size <= s /\ snd size <= s /\
  bins = [mkBin s s (reuse_rect map allMats entries <$> rects)].
Proof.
  unfold reuse_bins. destruct (nextPow2Ceil _) as [a|] eqn:E; [|discriminate].
  intros H. injection H as <- <-.
  apply nextPow2_Some in E as [_ [Hp [Hle _]]].
  unfold nz_or in Hle.
  destruct (Z.eqb_spec (fst size) 0), (Z.eqb_spec (snd size) 0); repeat split; try lia; auto.
Qed.

Lemma bin_loop_sized doc map : forall bins binIndex s acc pass,
  is_pow2 s ->
  (forall b, b ∈ bins -> bin_width b <= s /\ bin_height b <= s) ->
  pass_sized s acc ->
  bin_loop doc map binIndex bins s acc = Ok pass ->
  pass_sized s pass /\
  length (pass_bins pass) = (length (pass_bins acc) + length bins)%nat /\
  length (pass_atlases pass) = (length (pass_atlases acc) + length bins)%nat.
Proof.
  induction bins as [|bin rest IH]; intros binIndex s acc pass Hs Hfit Hacc E;
    cbn [bin_loop] in E.
  - injection E as <-. split; [exact Hacc|]. cbn. lia.
  - destruct (nextPow2Ceil _) as [sq|] eqn:Esq; [|discriminate].
    assert (Harg : Z.max (Z.max (nz_or (bin_width bin) s) (nz_or (bin_height bin) s)) s = s).
    { destruct (Hfit bin) as [Hw Hh]; [apply list_elem_of_here|].
      unfold nz_or. destruct (bin_width bin =? 0), (bin_height bin =? 0); lia. }
    rewrite Harg in Esq. apply (nextPow2_of_pow2 s sq Hs) in Esq. subst sq.
    assert (Hnz : nz_or s s = s) by (unfold nz_or; destruct (s =? 0); reflexivity).
    cbn [bin_width bin_height bin_rects] in E. rewrite Hnz in E.
    apply IH in E as [Hsized [Hlb Hla]]; [| exact Hs | | ].
    + split; [exact Hsized|]. cbn [pass_bins pass_atlases] in Hlb, Hla.
      rewrite length_app in Hlb, Hla. cbn in *. lia.
    + intros b Hb. apply Hfit. by apply list_elem_of_further.
    + destruct Hacc as [Hb Ha]. split; cbn [pass_bins pass_atlases].
      * intros b Hin. apply elem_of_app in Hin as [Hin|Hin]; [by apply Hb|].
        apply list_elem_of_singleton in Hin as ->. by cbn.
      * intros a Hin. apply elem_of_app in Hin as [Hin|Hin]; [by apply Ha|].
        apply list_elem_of_singleton in Hin as ->. by cbn.
Qed.

Lemma empty_pass_sized s : pass_sized s (mkPass [] ∅ []).
Proof. split; intros x Hx; by apply elem_of_nil in Hx. Qed.

Section PassFacts.

Variable P : Z -> Z -> list PackItem -> list Bin.
Hypothesis P_fits : packer_fits P.

(** A packing pass: every bin has the size the packer was run at. *)
Lemma atlasMap_pack_good doc areas opts map reuse pass :
  match reuse with Some (mkReuseRects _ (Some _)) => False | _ => True end ->
  atlasMap P doc areas opts map reuse = Ok (Some pass) ->
  exists s, good_size (maxSize opts) s /\ pass_sized s pass /\ pass_atlases pass <> [].
Proof.
  intros Hre H. unfold atlasMap in H.
  apply bind_Ok in H as [entries [_ H]].
  destruct entries as [|e es]; [discriminate|].
  apply bind_Ok in H as [[s bins] [Hpk H]].
  apply bind_Ok in H as [p [Hloop H]]. injection H as <-.
  assert (Hpk' : pack_bins P opts
            (imap (fun idx entry => mkPackItem idx (e_width entry) (e_height entry) entry)
               (e :: es)) = Ok (s, bins)).
  { destruct reuse as [[rects [size|]]|]; [contradiction | exact Hpk | exact Hpk]. }
  apply pack_bins_Ok in Hpk' as [Hg [Hne [padding [rects Hb]]]].
  cbn [fst snd] in Hloop.
  apply bin_loop_sized in Hloop as [Hsz [_ Hla]];
    [ | apply Hg | | apply empty_pass_sized ].
  - exists s. split; [exact Hg|]. split; [exact Hsz|].
    destruct bins; [contradiction|]. cbn in Hla.
    destruct (pass_atlases p); [discriminate | discriminate].
  - intros b Hin. subst bins. eapply P_fits. exact Hin.
Qed.

(** A reuse pass: one bin, of the canonical size when that is a good size. *)
Lemma atlasMap_reuse_good doc areas opts map rects s pass :
  good_size (maxSize opts) s ->
  atlasMap P doc areas opts map (Some (mkReuseRects rects (Some (s, s)))) = Ok (Some pass) ->
  pass_sized s pass.
Proof.
  intros Hg H. unfold atlasMap in H.
  apply bind_Ok in H as [entries [_ H]].
  destruct entries as [|e es]; [discriminate|].
  apply bind_Ok in H as [[s' bins] [Hpk H]].
  apply bind_Ok in H as [p [Hloop H]]. injection H as <-.
  unfold reuse_bins in Hpk. cbn [fst snd] in Hpk.
  destruct Hg as [Hp Hr].
  assert (Hs : Z.max (Z.max (nz_or s 0) (nz_or s 0)) 256 = s).
  { unfold nz_or. destruct (Z.eqb_spec s 0); lia. }
  rewrite Hs in Hpk.
  destruct (nextPow2Ceil s) as [a|] eqn:E; [|discriminate].
  apply (nextPow2_of_pow2 s a Hp) in E. subst a.
  injection Hpk as <- <-. cbn [fst snd] in Hloop.
  apply bin_loop_sized in Hloop as [Hsz _]; [exact Hsz | exact Hp | | apply empty_pass_sized].
  intros b Hin. apply list_elem_of_singleton in Hin as ->. cbn. lia.
Qed.

Lemma reuse_passes_sized doc areas opts canonical reuse : forall maps others,
  match reuse_size reuse with
  | Some (w, h) => w = h /\ good_size (maxSize opts) w
  | None => True
  end ->
  reuse_passes P doc areas opts canonical reuse maps = Ok others ->
  forall map pass, (map, pass) ∈ others ->
  exists s, good_size (maxSize opts) s /\ pass_sized s pass.
Proof.
  intros maps. induction maps as [|m rest IH]; intros others Hre H map pass Hin;
    cbn [reuse_passes] in H.
  - injection H as <-. by apply elem_of_nil in Hin.
  - destruct (decide (m = canonical)); [eapply IH; eauto|].
    apply bind_Ok in H as [r [Hr H]].
    destruct r as [p|]; [|discriminate].
    apply bind_Ok in H as [os [Hos H]]. injection H as <-.
    apply elem_of_cons in Hin as [Hin|Hin]; [|eapply IH; eauto].
    injection Hin as -> ->.
    destruct reuse as [rects [[w h]|]]; cbn [reuse_size] in Hre.
    + destruct Hre as [<- Hg]. exists w. split; [exact Hg|].
      eapply atlasMap_reuse_good; eauto.
    + apply atlasMap_pack_good in Hr as [s [Hg [Hsz _]]]; [|exact I]. eauto.
Qed.

Lemma processAtlas_sized doc areas opts validMaps passes :
  processAtlas P doc areas opts validMaps = Ok passes ->
  forall map pass, (map, pass) ∈ passes ->
  exists s, good_size (maxSize opts) s /\ pass_sized s pass.
Proof.
  unfold processAtlas. intros H map pass Hin.
  destruct (canonicalMap validMaps) as [canonical|].
  2:{ injection H as <-. by apply elem_of_nil in Hin. }
  apply bind_Ok in H as [cr [Hc H]].
  destruct cr as [cpass|]; [|discriminate].
  apply bind_Ok in H as [others [Ho H]]. injection H as <-.
  apply atlasMap_pack_good in Hc as [s [Hg [Hsz Hne]]]; [|exact I].
  apply elem_of_cons in Hin as [Hin|Hin].
  - injection Hin as -> ->. eauto.
  - eapply reuse_passes_sized; [|exact Ho|exact Hin].
    cbn [reuse_size]. destruct (pass_atlases cpass) as [|a0 rest] eqn:Ea; [exact I|].
    cbn. destruct Hsz as [_ Ha].
    destruct (Ha a0) as [-> ->]; [rewrite Ea; apply list_elem_of_here|]. auto.
Qed.

End PassFacts.

(** *** Entries hold materials of the document *)

Lemma push_material_materials tex0 mat : forall entries es,
  push_material tex0 mat entries = Some es ->
  forall e m, e ∈ es -> m ∈ e_materials e ->
  m = mat \/ exists e0, e0 ∈ entries /\ m ∈ e_materials e0.
Proof.
  induction entries as [|e0 rest IH]; intros es H e m He Hm; cbn [push_material] in H;
    [discriminate|].
  destruct (entry_has_texture tex0 e0).
  - injection H as <-. apply elem_of_cons in He as [-> | He].
    + cbn [e_materials] in Hm. apply elem_of_app in Hm as [Hm|Hm].
      * right. exists e0. split; [apply list_elem_of_here | exact Hm].
      * left. by apply list_elem_of_singleton in Hm.
    + right. exists e. split; [by apply list_elem_of_further | exact Hm].
  - destruct (push_material tex0 mat rest) as [es'|] eqn:E; [|discriminate].
    cbn in H. injection H as <-.
    apply elem_of_cons in He as [-> | He].
    + right. exists e0. split; [apply list_elem_of_here | exact Hm].
    + destruct (IH es' eq_refl e m He Hm) as [->|[e1 [H1 H2]]]; [by left|].
      right. exists e1. split; [by apply list_elem_of_further | exact H2].
Qed.

Lemma buildEntries_materials doc map opts areas : forall materials entries es,
  buildEntries doc map opts areas materials entries = Ok es ->
  forall e m, e ∈ es -> m ∈ e_materials e ->
  m ∈ materials \/ exists e0, e0 ∈ entries /\ m ∈ e_materials e0.
Proof.
  induction materials as [|mat rest IH]; intros entries es H e m He Hm;
    cbn [buildEntries] in H.
  - injection H as <-. right. eauto.
  - assert (Hrest : forall entries',
      buildEntries doc map opts areas rest entries' = Ok es ->
      (forall e1 m1, e1 ∈ entries' -> m1 ∈ e_materials e1 ->
         m1 = mat \/ exists e0, e0 ∈ entries /\ m1 ∈ e_materials e0) ->
      m ∈ mat :: rest \/ exists e0, e0 ∈ entries /\ m ∈ e_materials e0).
    { intros entries' H' Hsub.
      destruct (IH entries' es H' e m He Hm) as [Hin|[e1 [H1 H2]]].
      - left. by apply list_elem_of_further.
      - destruct (Hsub e1 m H1 H2) as [->|Hold]; [left; apply list_elem_of_here | by right]. }
    destruct (getter doc map mat) as [tex|]; [|apply (Hrest entries H); eauto].
    destruct (tex_image tex) as [img|]; [|apply (Hrest entries H); eauto].
    destruct (push_material tex mat entries) as [entries'|] eqn:Ep.
    + apply (Hrest entries' H). intros e1 m1 H1 H2.
      eapply push_material_materials; eauto.
    + apply bind_Ok in H as [ne [_ H]].
      apply (Hrest _ H). intros e1 m1 H1 H2.
      apply elem_of_app in H1 as [H1|H1]; [right; eauto|].
      apply list_elem_of_singleton in H1 as ->. cbn [e_materials] in H2.
      left. by apply list_elem_of_singleton in H2.
Qed.

(** *** Resolving names *)

Lemma first_named_Some name : forall l m,
  first_named name l = Some m -> m ∈ l /\ display_name m = name.
Proof.
  induction l as [|m0 rest IH]; intros m H; cbn [first_named] in H; [discriminate|].
  destruct (decide (display_name m0 = name)) as [E|_].
  - injection H as <-. split; [apply list_elem_of_here | exact E].
  - destruct (IH m H) as [H1 H2]. split; [by apply list_elem_of_further | exact H2].
Qed.

Lemma first_named_is_Some name : forall l m,
  m ∈ l -> display_name m = name -> is_Some (first_named name l).
Proof.
  induction l as [|m0 rest IH]; intros m Hin E; [by apply elem_of_nil in Hin|].
  cbn [first_named]. destruct (decide (display_name m0 = name)); [eauto|].
  apply elem_of_cons in Hin as [-> | Hin]; [contradiction|]. eauto.
Qed.

Lemma display_name_nonempty m : display_name m ≠ "".
Proof. unfold display_name. destruct (decide (mat_name m = "")); [discriminate | assumption]. Qed.

Lemma same_display_name (l : list Material) m1 m2 :
  NoDup (display_name <$> l) -> m1 ∈ l -> m2 ∈ l ->
  display_name m1 = display_name m2 -> m1 = m2.
Proof.
  induction l as [|m0 rest IH]; intros Hnd H1 H2 E; [by apply elem_of_nil in H1|].
  rewrite fmap_cons in Hnd. apply NoDup_cons in Hnd as [Hnot Hnd].
  apply elem_of_cons in H1 as [-> | H1]; apply elem_of_cons in H2 as [-> | H2].
  - reflexivity.
  - exfalso. apply Hnot. rewrite E. by apply list_elem_of_fmap_2.
  - exfalso. apply Hnot. rewrite <- E. by apply list_elem_of_fmap_2.
  - by apply IH.
Qed.

Lemma resolve_names_elem names allMats mat :
  mat ∈ resolve_names names allMats ->
  mat ∈ allMats /\ display_name mat ∈ names.
Proof.
  unfold resolve_names. intros H. apply list_elem_of_omap in H as [name [Hn Hf]].
  unfold findMaterialByName in Hf. destruct (decide (name = "")); [discriminate|].
  apply first_named_Some in Hf as [H1 H2]. split; [exact H1 | by rewrite H2].
Qed.

Lemma first_entry_Some name : forall entries e,
  first_entry name entries = Some e ->
  e ∈ entries /\ exists m, m ∈ e_materials e /\ display_name m = name.
Proof.
  induction entries as [|e0 rest IH]; intros e H; cbn [first_entry] in H; [discriminate|].
  destruct (entry_names name e0) eqn:En.
  - injection H as <-. split; [apply list_elem_of_here|].
    unfold entry_names in En. apply existsb_exists in En as [m [Hin Hb]].
    exists m. split; [by apply list_elem_of_In | by apply bool_decide_eq_true in Hb].
  - destruct (IH e H) as [H1 H2]. split; [by apply list_elem_of_further | exact H2].
Qed.

(** The materials a reused rect stands for are named by the canonical rect,
    when the entries of the channel hold materials of the document. *)
Lemma reuse_rect_materials map allMats entries r mat :
  (forall e m, e ∈ entries -> m ∈ e_materials e -> m ∈ allMats) ->
  mat ∈ rect_materials allMats (reuse_rect map allMats entries r) ->
  mat ∈ allMats /\ display_name mat ∈ l_materials r.
Proof.
  intros Hent. unfold rect_materials, reuse_rect. cbn [r_data r_names].
  remember (resolve_names (l_materials r) allMats) as resolved eqn:Er.
  destruct (findEntryForMaterial (head (l_materials r)) entries) as [e|] eqn:Ef;
    cbn [e_materials].
  - destruct resolved as [|m0 ms].
    + exfalso.
      unfold findEntryForMaterial in Ef.
      destruct (l_materials r) as [|name names] eqn:En; [discriminate|].
      cbn [head] in Ef. destruct (decide (name = "")) as [|Hne]; [discriminate|].
      apply first_entry_Some in Ef as [He [m [Hm Hd]]].
      destruct (first_named_is_Some name allMats m (Hent e m He Hm) Hd) as [m' Hm'].
      assert (m' ∈ resolve_names (name :: names) allMats) as Hin.
      { unfold resolve_names. apply list_elem_of_omap.
        exists name. split; [apply list_elem_of_here|].
        unfold findMaterialByName. by rewrite decide_False. }
      rewrite <- Er in Hin. by apply elem_of_nil in Hin.
    + intros H. apply resolve_names_elem. by rewrite <- Er.
  - destruct resolved as [|m0 ms].
    + intros H. by apply elem_of_nil in H.
    + intros H. apply resolve_names_elem. by rewrite <- Er.
Qed.

Lemma layout_rect_names r name :
  name ∈ l_materials (layout_rect r) ->
  exists m, m ∈ e_materials (r_data r) /\ mat_name m = name /\ display_name m = name.
Proof.
  unfold layout_rect. cbn [l_materials]. intros H.
  apply list_elem_of_filter in H as [Hne H].
  apply list_elem_of_fmap in H as [m [-> Hm]].
  exists m. split; [exact Hm|]. split; [reflexivity|].
  unfold display_name. by rewrite decide_False.
Qed.

(** *** The material map of a pass *)

Lemma set_mappings_lookup doc map binIndex size rect : forall mats mm mat mp,
  fold_left (set_mapping doc map binIndex size rect) mats mm !! mat = Some mp ->
  mm !! mat = Some mp \/ (m_rect mp = rect /\ mat ∈ mats).
Proof.
  induction mats as [|m0 rest IH]; intros mm mat mp H; cbn [fold_left] in H; [by left|].
  apply IH in H as [H|[H1 Hm]].
  - unfold set_mapping in H. destruct (decide (m0 = mat)) as [E|Hne].
    + rewrite E, lookup_insert_eq in H. injection H as <-. right. cbn [m_rect].
      split; [reflexivity|]. rewrite E. apply list_elem_of_here.
    + rewrite lookup_insert_ne in H by exact Hne. by left.
  - right. split; [exact H1 | by apply list_elem_of_further].
Qed.

Lemma map_rects_lookup doc map binIndex size : forall rects mm mat mp,
  map_rects doc map binIndex size rects mm !! mat = Some mp ->
  mm !! mat = Some mp \/
  (m_rect mp ∈ rects /\ mat ∈ rect_materials (doc_materials doc) (m_rect mp)).
Proof.
  unfold map_rects.
  induction rects as [|rect rest IH]; intros mm mat mp H; cbn [fold_left] in H; [by left|].
  apply IH in H as [H|[H1 H2]].
  - apply set_mappings_lookup in H as [H|[H1 H2]]; [by left|].
    right. rewrite H1. split; [apply list_elem_of_here | exact H2].
  - right. split; [by apply list_elem_of_further | exact H2].
Qed.

Lemma bin_loop_shape doc map : forall bins binIndex s acc pass,
  bin_loop doc map binIndex bins s acc = Ok pass ->
  la_rects <$> pass_atlases pass =
    (la_rects <$> pass_atlases acc) ++ ((fun b => layout_rect <$> bin_rects b) <$> bins) /\
  bin_rects <$> pass_bins pass = (bin_rects <$> pass_bins acc) ++ (bin_rects <$> bins) /\
  forall mat mp, pass_materialMap pass !! mat = Some mp ->
    pass_materialMap acc !! mat = Some mp \/
    exists bin, bin ∈ bins /\ m_rect mp ∈ bin_rects bin /\
      mat ∈ rect_materials (doc_materials doc) (m_rect mp).
Proof.
  induction bins as [|bin rest IH]; intros binIndex s acc pass H; cbn [bin_loop] in H.
  - injection H as <-. rewrite !fmap_nil, !app_nil_r. auto.
  - destruct (nextPow2Ceil _) as [sq|]; [|discriminate].
    apply IH in H as [Ha [Hb Hm]]. cbn [pass_atlases pass_bins pass_materialMap] in *.
    rewrite fmap_app in Ha. rewrite fmap_app in Hb. cbn in Ha, Hb.
    rewrite <- app_assoc in Ha, Hb.
    split; [exact Ha|]. split; [exact Hb|].
    intros mat mp Hl. apply Hm in Hl as [Hl|[b [H1 [H2 H3]]]].
    + apply map_rects_lookup in Hl as [Hl|[H1 H2]]; [by left|].
      right. exists bin. split; [apply list_elem_of_here | auto].
    + right. exists b. split; [by apply list_elem_of_further | auto].
Qed.

Lemma reuse_geometry map allMats entries r :
  layout_geometry (layout_rect (reuse_rect map allMats entries r)) = layout_geometry r.
Proof. reflexivity. Qed.

Lemma layout_rect_geometry r : layout_geometry (layout_rect r) = rect_geometry r.
Proof. reflexivity. Qed.

Section ReuseFacts.

Variable P : Z -> Z -> list PackItem -> list Bin.

(** A reuse pass, taken apart. *)
Lemma atlasMap_reuse_shape doc areas opts map rects size pass :
  atlasMap P doc areas opts map (Some (mkReuseRects rects (Some size))) = Ok (Some pass) ->
  exists entries,
    buildEntries doc map opts areas (doc_materials doc) [] = Ok entries /\
    la_rects <$> pass_atlases pass =
      [layout_rect <$> (reuse_rect map (doc_materials doc) entries <$> rects)] /\
    forall mat mp, pass_materialMap pass !! mat = Some mp ->
      exists r, r ∈ rects /\
        m_rect mp = reuse_rect map (doc_materials doc) entries r /\
        mat ∈ rect_materials (doc_materials doc) (m_rect mp).
Proof.
  intros H. unfold atlasMap in H.
  apply bind_Ok in H as [entries [He H]].
  exists entries. split; [exact He|].
  destruct entries as [|e es] eqn:Ee; [discriminate|]. rewrite <- Ee in *.
  apply bind_Ok in H as [[s bins] [Hpk H]].
  apply bind_Ok in H as [p [Hloop H]]. injection H as <-.
  apply reuse_bins_Ok in Hpk as [_ [_ [_ [_ ->]]]].
  cbn [fst snd] in Hloop. apply bin_loop_shape in Hloop as [Ha [_ Hm]].
  cbn in Ha. split; [exact Ha|].
  intros mat mp Hl. apply Hm in Hl as [Hl|[b [H1 [H2 H3]]]].
  - cbn in Hl. rewrite lookup_empty in Hl. discriminate.
  - apply list_elem_of_singleton in H1 as ->. cbn [bin_rects] in H2.
    apply list_elem_of_fmap in H2 as [r [E Hr]].
    exists r. auto.
Qed.

Hypothesis P_keeps : packer_keeps_payloads P.

(** A packing pass: the rects of its bins carry entries of the channel. *)
Lemma atlasMap_pack_shape doc areas opts map reuse pass :
  match reuse with Some (mkReuseRects _ (Some _)) => False | _ => True end ->
  atlasMap P doc areas opts map reuse = Ok (Some pass) ->
  exists bins,
    bins <> [] /\
    la_rects <$> pass_atlases pass = (fun b => layout_rect <$> bin_rects b) <$> bins /\
    bin_rects <$> pass_bins pass = bin_rects <$> bins /\
    forall bin rect m, bin ∈ bins -> rect ∈ bin_rects bin ->
      m ∈ e_materials (r_data rect) -> m ∈ doc_materials doc.
Proof.
  intros Hre H. unfold atlasMap in H.
  apply bind_Ok in H as [entries [He H]].
  destruct entries as [|e es] eqn:Ee; [discriminate|]. rewrite <- Ee in *.
  apply bind_Ok in H as [[s bins] [Hpk H]].
  apply bind_Ok in H as [p [Hloop H]]. injection H as <-.
  assert (Hpk' : pack_bins P opts
            (imap (fun idx entry => mkPackItem idx (e_width entry) (e_height entry) entry)
               entries) = Ok (s, bins)).
  { destruct reuse as [[rects [size|]]|]; [contradiction | exact Hpk | exact Hpk]. }
  clear Hpk. cbn [fst snd] in Hloop.
  apply bin_loop_shape in Hloop as [Ha [Hb0 _]]. cbn in Ha, Hb0.
  exists bins. split.
  { apply pack_bins_Ok in Hpk' as [_ [Hne _]]. exact Hne. }
  split; [exact Ha|]. split; [exact Hb0|].
  intros bin rect m Hbin Hrect Hm.
  unfold pack_bins in Hpk'.
  apply bind_Ok in Hpk' as [scale [_ Hpk']].
  apply bind_Ok in Hpk' as [[s' bins'] [Hp Hpk']].
  cbn [snd] in Hpk'. destruct bins' as [|b0 bs]; [discriminate|].
  injection Hpk' as -> <-.
  apply packIntoAtlas_Ok in Hp as [_ [Hb _]].
  rewrite Hb in Hbin.
  destruct (P_keeps _ _ _ bin rect Hbin Hrect) as [_ [item [Hitem Hdata]]].
  rewrite Hdata in Hm.
  assert (exists entry, entry ∈ entries /\ e_materials (item_data item) = e_materials entry)
    as [entry [Hentry Hmats]].
  { destruct (Qeq_bool scale 1).
    - apply list_elem_of_lookup in Hitem as [i Hi].
      rewrite list_lookup_imap in Hi.
      destruct (entries !! i) as [entry|] eqn:Ei; [|discriminate].
      cbn in Hi. injection Hi as <-. exists entry.
      split; [eapply list_elem_of_lookup_2; eauto | reflexivity].
    - unfold resizePackInputToScale in Hitem.
      apply list_elem_of_fmap in Hitem as [item0 [-> Hitem0]].
      apply list_elem_of_lookup in Hitem0 as [i Hi].
      rewrite list_lookup_imap in Hi.
      destruct (entries !! i) as [entry|] eqn:Ei; [|discriminate].
      cbn in Hi. injection Hi as <-. exists entry.
      split; [eapply list_elem_of_lookup_2; eauto | reflexivity]. }
  rewrite Hmats in Hm.
  destruct (buildEntries_materials _ _ _ _ _ _ _ He entry m Hentry Hm) as [Hin|[e0 [H0 _]]];
    [exact Hin | by apply elem_of_nil in H0].
Qed.

End ReuseFacts.

Lemma reuse_passes_reuse P doc areas opts canonical reuse : forall maps others map pass,
  reuse_passes P doc areas opts canonical reuse maps = Ok others ->
  (map, pass) ∈ others ->
  atlasMap P doc areas opts map (Some reuse) = Ok (Some pass).
Proof.
  induction maps as [|m rest IH]; intros others map pass H Hin; cbn [reuse_passes] in H.
  - injection H as <-. by apply elem_of_nil in Hin.
  - destruct (decide (m = canonical)); [eapply IH; eauto|].
    apply bind_Ok in H as [r [Hr H]].
    destruct r as [p|]; [|discriminate].
    apply bind_Ok in H as [os [Hos H]]. injection H as <-.
    apply elem_of_cons in Hin as [Hin|Hin]; [|eapply IH; eauto].
    injection Hin as -> ->. exact Hr.
Qed.

(** *** The material map, exactly *)

Lemma set_mappings_exact doc map binIndex size rect : forall mats mm mat,
  (mat ∈ mats ->
   exists mp, fold_left (set_mapping doc map binIndex size rect) mats mm !! mat = Some mp /\
              m_rect mp = rect /\ m_atlasIndex mp = binIndex) /\
  (mat ∉ mats ->
   fold_left (set_mapping doc map binIndex size rect) mats mm !! mat = mm !! mat).
Proof.
  induction mats as [|m0 rest IH]; intros mm mat.
  { split; [intros H; by apply elem_of_nil in H | reflexivity]. }
  cbn [fold_left].
  destruct (IH (set_mapping doc map binIndex size rect mm m0) mat) as [IHin IHout].
  split.
  - intros Hin. destruct (decide (mat ∈ rest)) as [Hr|Hr]; [by apply IHin|].
    apply elem_of_cons in Hin as [->|Hin]; [|contradiction].
    rewrite (IHout Hr). unfold set_mapping. rewrite lookup_insert_eq.
    eexists. split; [reflexivity|]. split; reflexivity.
  - intros Hout. apply not_elem_of_cons in Hout as [Hne Hr].
    rewrite (IHout Hr). unfold set_mapping. by rewrite lookup_insert_ne.
Qed.

Lemma map_rects_exact doc map binIndex size : forall rects mm mat,
  (forall rect, holder (doc_materials doc) mat rects = Some rect ->
     exists mp, map_rects doc map binIndex size rects mm !! mat = Some mp /\
                m_rect mp = rect /\ m_atlasIndex mp = binIndex) /\
  (holder (doc_materials doc) mat rects = None ->
     map_rects doc map binIndex size rects mm !! mat = mm !! mat).
Proof.
  unfold map_rects.
  induction rects as [|rect rest IH]; intros mm mat.
  { split; [intros r H; discriminate H | reflexivity]. }
  cbn [fold_left holder].
  set (mm' := fold_left (set_mapping doc map binIndex size rect)
                (rect_materials (doc_materials doc) rect) mm).
  destruct (IH mm' mat) as [IHsome IHnone].
  destruct (set_mappings_exact doc map binIndex size rect
              (rect_materials (doc_materials doc) rect) mm mat) as [Hin Hout].
  fold mm' in Hin, Hout.
  destruct (holder (doc_materials doc) mat rest) as [later|] eqn:El.
  - split; [|discriminate]. intros r E. injection E as <-. by apply IHsome.
  - rewrite (IHnone eq_refl).
    destruct (decide (mat ∈ rect_materials (doc_materials doc) rect)) as [Hm|Hm].
    + split; [|discriminate]. intros r E. injection E as <-. by apply Hin.
    + split; [discriminate|]. intros _. by apply Hout.
Qed.

(** A mapping a pass ends with was set by the last rect that stands for the
    material, in the bin the mapping names. *)
Lemma bin_loop_lookup doc map : forall bins binIndex s acc pass,
  binIndex = length (pass_bins acc) ->
  bin_loop doc map binIndex bins s acc = Ok pass ->
  (exists tail, pass_bins pass = pass_bins acc ++ tail) /\
  forall mat mp, pass_materialMap pass !! mat = Some mp ->
    pass_materialMap acc !! mat = Some mp \/
    exists bin, pass_bins pass !! m_atlasIndex mp = Some bin /\
      holder (doc_materials doc) mat (bin_rects bin) = Some (m_rect mp).
Proof.
  induction bins as [|bin rest IH]; intros binIndex s acc pass Hidx H; cbn [bin_loop] in H.
  { injection H as <-. split; [exists []; by rewrite app_nil_r | auto]. }
  destruct (nextPow2Ceil _) as [sq|]; [|discriminate].
  apply IH in H as [[tail Htail] Hm].
  2:{ cbn [pass_bins]. rewrite length_app. cbn. lia. }
  cbn [pass_bins pass_materialMap] in Htail, Hm.
  split; [exists (mkBin sq sq (bin_rects bin) :: tail); by rewrite Htail, <- app_assoc|].
  intros mat mp Hl. apply Hm in Hl as [Hl|Hl]; [|by right].
  destruct (map_rects_exact doc map binIndex
              (nz_or (bin_width (mkBin sq sq (bin_rects bin))) sq)
              (bin_rects (mkBin sq sq (bin_rects bin))) (pass_materialMap acc) mat)
    as [Hsome Hnone].
  cbn [bin_rects] in Hsome, Hnone, Hl.
  destruct (holder (doc_materials doc) mat (bin_rects bin)) as [r|] eqn:Eh.
  - destruct (Hsome r eq_refl) as [mp' [E [Hr Hi]]].
    rewrite E in Hl. injection Hl as <-. right.
    exists (mkBin sq sq (bin_rects bin)). split.
    + rewrite Htail, Hi, Hidx, <- app_assoc. cbn.
      by rewrite lookup_app_r, Nat.sub_diag.
    + cbn [bin_rects]. by rewrite Eh, Hr.
  - left. by rewrite <- (Hnone eq_refl).
Qed.

Lemma holder_Some allMats mat : forall rects r,
  holder allMats mat rects = Some r -> r ∈ rects /\ mat ∈ rect_materials allMats r.
Proof.
  induction rects as [|rect rest IH]; intros r H; cbn [holder] in H; [discriminate|].
  destruct (holder allMats mat rest) as [later|].
  - injection H as <-. destruct (IH later eq_refl) as [H1 H2].
    split; [by apply list_elem_of_further | exact H2].
  - destruct (decide (mat ∈ rect_materials allMats rect)) as [Hm|]; [|discriminate].
    injection H as <-. split; [apply list_elem_of_here | exact Hm].
Qed.

Section Lookups.

Variable P : Z -> Z -> list PackItem -> list Bin.

(** The rects of a packing pass are the packer's, which carry no names. *)
Lemma atlasMap_pack_names doc areas opts map reuse pass :
  packer_keeps_payloads P ->
  match reuse with Some (mkReuseRects _ (Some _)) => False | _ => True end ->
  atlasMap P doc areas opts map reuse = Ok (Some pass) ->
  forall bin rect, bin ∈ pass_bins pass -> rect ∈ bin_rects bin -> r_names rect = [].
Proof.
  intros Hkeep Hre H bin rect Hbin Hrect. unfold atlasMap in H.
  apply bind_Ok in H as [entries [_ H]].
  destruct entries as [|e es] eqn:Ee; [discriminate|]. rewrite <- Ee in *.
  apply bind_Ok in H as [[s bins] [Hpk H]].
  apply bind_Ok in H as [p [Hloop H]]. injection H as <-.
  assert (Hpk' : pack_bins P opts
            (imap (fun idx entry => mkPackItem idx (e_width entry) (e_height entry) entry)
               entries) = Ok (s, bins)).
  { destruct reuse as [[rects [size|]]|]; [contradiction | exact Hpk | exact Hpk]. }
  apply pack_bins_Ok in Hpk' as [_ [_ [padding [items ->]]]].
  cbn [fst snd] in Hloop. apply bin_loop_shape in Hloop as [_ [Hb _]]. cbn in Hb.
  assert (bin_rects bin ∈ bin_rects <$> P s padding items) as Hin.
  { rewrite <- Hb. by apply list_elem_of_fmap_2. }
  apply list_elem_of_fmap in Hin as [b [Eb Hb']].
  rewrite Eb in Hrect. by destruct (Hkeep _ _ _ b rect Hb' Hrect).
Qed.

Lemma atlasMap_lookup doc areas opts map reuse pass :
  atlasMap P doc areas opts map reuse = Ok (Some pass) ->
  forall mat mp, pass_materialMap pass !! mat = Some mp ->
    exists bin, pass_bins pass !! m_atlasIndex mp = Some bin /\
      holder (doc_materials doc) mat (bin_rects bin) = Some (m_rect mp).
Proof.
  intros H. unfold atlasMap in H.
  apply bind_Ok in H as [entries [_ H]].
  destruct entries as [|e es]; [discriminate|].
  apply bind_Ok in H as [packed [_ H]].
  apply bind_Ok in H as [p [Hloop H]]. injection H as <-.
  apply bin_loop_lookup in Hloop as [_ Hm]; [|reflexivity].
  intros mat mp Hl. apply Hm in Hl as [Hl|Hl]; [|exact Hl].
  cbn in Hl. by rewrite lookup_empty in Hl.
Qed.

(** A reuse pass, exactly: one bin of the canonical rects, and every
    material mapped to the last rect that stands for it. *)
Lemma atlasMap_reuse_exact doc areas opts map rects size pass :
  atlasMap P doc areas opts map (Some (mkReuseRects rects (Some size))) = Ok (Some pass) ->
  exists entries bin atlas,
    buildEntries doc map opts areas (doc_materials doc) [] = Ok entries /\
    pass_bins pass = [bin] /\ pass_atlases pass = [atlas] /\
    bin_rects bin = reuse_rect map (doc_materials doc) entries <$> rects /\
    la_rects atlas = layout_rect <$> bin_rects bin /\
    forall mat, mapped_geometry pass mat =
                rect_geometry <$> holder (doc_materials doc) mat (bin_rects bin).
Proof.
  intros H. unfold atlasMap in H.
  apply bind_Ok in H as [entries [He H]].
  exists entries.
  destruct entries as [|e es] eqn:Ee; [discriminate|]. rewrite <- Ee in *.
  apply bind_Ok in H as [[s bins] [Hpk H]].
  apply bind_Ok in H as [p [Hloop H]]. injection H as <-.
  apply reuse_bins_Ok in Hpk as [_ [_ [_ [_ ->]]]].
  cbn [fst snd bin_loop bin_width bin_height bin_rects] in Hloop.
  destruct (nextPow2Ceil _) as [sq|]; [|discriminate].
  injection Hloop as <-. cbn [pass_bins pass_atlases pass_materialMap app].
  eexists _, _. split; [exact He|]. split; [reflexivity|]. split; [reflexivity|].
  cbn [bin_rects la_rects]. split; [reflexivity|]. split; [reflexivity|].
  intros mat. unfold mapped_geometry. cbn [pass_materialMap].
  destruct (map_rects_exact doc map 0 (nz_or sq sq)
              (reuse_rect map (doc_materials doc) entries <$> rects) ∅ mat)
    as [Hsome Hnone].
  destruct (holder (doc_materials doc) mat _) as [r|] eqn:Eh.
  - destruct (Hsome r eq_refl) as [mp [-> [<- _]]]. reflexivity.
  - rewrite (Hnone eq_refl), lookup_empty. reflexivity.
Qed.

End Lookups.

(** *** A reused rect against the canonical rect *)

Lemma first_named_unique name (l : list Material) m :
  NoDup (display_name <$> l) -> m ∈ l -> display_name m = name ->
  first_named name l = Some m.
Proof.
  intros Hnd Hin E.
  destruct (first_named_is_Some name l m Hin E) as [m' Hm'].
  rewrite Hm'. f_equal.
  apply first_named_Some in Hm' as [Hin' E'].
  apply (same_display_name l); [exact Hnd | exact Hin' | exact Hin | congruence].
Qed.

Lemma reuse_rect_same map allMats entries crect :
  NoDup (display_name <$> allMats) ->
  (forall e m, e ∈ entries -> m ∈ e_materials e -> m ∈ allMats) ->
  (forall m, m ∈ e_materials (r_data crect) -> m ∈ allMats) ->
  same_rect allMats crect (reuse_rect map allMats entries (layout_rect crect)).
Proof.
  intros Hnd Hent Hc. split; [reflexivity|]. intros mat. split.
  - intros H. apply reuse_rect_materials in H as [Hdoc Hname]; [|exact Hent].
    apply layout_rect_names in Hname as [m0 [Hm0 [Hn Hd0]]].
    assert (m0 = mat) as ->.
    { apply (same_display_name allMats); [exact Hnd | by apply Hc | exact Hdoc | exact Hd0]. }
    split; [exact Hm0|]. rewrite Hn. apply display_name_nonempty.
  - intros [Hin Hne].
    assert (mat ∈ resolve_names (l_materials (layout_rect crect)) allMats) as Hres.
    { unfold resolve_names. apply list_elem_of_omap. exists (mat_name mat). split.
      - unfold layout_rect. cbn [l_materials]. apply list_elem_of_filter.
        split; [exact Hne | by apply list_elem_of_fmap_2].
      - unfold findMaterialByName. rewrite decide_False by exact Hne.
        apply first_named_unique; [exact Hnd | by apply Hc|].
        unfold display_name. by rewrite decide_False. }
    unfold rect_materials, reuse_rect. cbn [r_data r_names].
    destruct (resolve_names (l_materials (layout_rect crect)) allMats) as [|m0 ms] eqn:Er;
      [by apply elem_of_nil in Hres|].
    by destruct (findEntryForMaterial _ entries).
Qed.

(** Rect by rect the same materials: the last rect that stands for a
    material is at the same position in both bins. *)
Lemma holder_same allMats mat : forall crects rects,
  mat_name mat <> "" ->
  Forall (fun crect => r_names crect = []) crects ->
  Forall2 (same_rect allMats) crects rects ->
  rect_geometry <$> holder allMats mat rects = rect_geometry <$> holder allMats mat crects /\
  (is_Some (holder allMats mat rects) <-> is_Some (holder allMats mat crects)).
Proof.
  intros crects rects Hne Hnames Hall. revert Hnames.
  induction Hall as [|crect rect crects rects [Hg Hm] _ IH]; intros Hnames; [done|].
  apply Forall_cons in Hnames as [Hn Hnames]. destruct (IH Hnames) as [IHg IHs].
  cbn [holder].
  destruct (holder allMats mat rects) as [r|] eqn:Er,
           (holder allMats mat crects) as [c|] eqn:Ec; cbn in IHg |- *.
  - done.
  - exfalso. destruct IHs as [IHs _]. by destruct (IHs ltac:(eauto)).
  - exfalso. destruct IHs as [_ IHs]. by destruct (IHs ltac:(eauto)).
  - assert (mat ∈ rect_materials allMats rect <-> mat ∈ rect_materials allMats crect) as Hiff.
    { rewrite Hm. unfold rect_materials at 1. rewrite Hn.
      destruct (e_materials (r_data crect)) as [|m0 ms] eqn:Em.
      - split; [intros [H _]; by apply elem_of_nil in H | intros H; by apply elem_of_nil in H].
      - tauto. }
    destruct (decide (mat ∈ rect_materials allMats rect)) as [H1|H1];
      [rewrite (decide_True (P := mat ∈ rect_materials allMats crect)) by tauto
      |rewrite (decide_False (P := mat ∈ rect_materials allMats crect)) by tauto].
    + cbn. split; [by rewrite Hg | done].
    + split; [done|]. split; intros [? ?]; discriminate.
Qed.

(** C1, as the code has it. Every channel the reuser produces has one bin
    and one atlas, whose rects are, position by position, those of the FIRST
    bin of the canonical channel: the same count and the same
    (x, y, width, height). A material has the one mapping of the last rect
    of the bin that stands for it. Materials are resolved by name. When the
    display names of the materials are pairwise distinct, the rect at each
    position stands for the named materials of the canonical rect at that
    position; a named material the canonical channel maps into its first bin
    is mapped in the reused channel, to the same (x, y, width, height); and
    a material mapped in the reused channel is named and held by a canonical
    first-bin rect of that geometry. *)
Theorem reused_layout_matches P doc areas opts validMaps canonical cpass others map pass :
  packer_keeps_payloads P ->
  processAtlas P doc areas opts validMaps = Ok ((canonical, cpass) :: others) ->
  (map, pass) ∈ others ->
  exists cbin catlas bin atlas,
    head (pass_bins cpass) = Some cbin /\
    head (pass_atlases cpass) = Some catlas /\
    pass_bins pass = [bin] /\ pass_atlases pass = [atlas] /\
    length (la_rects atlas) = length (la_rects catlas) /\
    layout_geometry <$> la_rects atlas = layout_geometry <$> la_rects catlas /\
    rect_geometry <$> bin_rects bin = rect_geometry <$> bin_rects cbin /\
    (forall mat, mapped_geometry pass mat =
                 rect_geometry <$> holder (doc_materials doc) mat (bin_rects bin)) /\
    (NoDup (display_name <$> doc_materials doc) ->
       Forall2 (same_rect (doc_materials doc)) (bin_rects cbin) (bin_rects bin) /\
       (forall mat cmp,
          mat_name mat <> "" -> pass_materialMap cpass !! mat = Some cmp ->
          m_atlasIndex cmp = 0%nat ->
          mapped_geometry pass mat = Some (rect_geometry (m_rect cmp))) /\
       (forall mat mp,
          pass_materialMap pass !! mat = Some mp ->
          mat_name mat <> "" /\
          exists crect,
            crect ∈ bin_rects cbin /\ mat ∈ e_materials (r_data crect) /\
            rect_geometry (m_rect mp) = rect_geometry crect)).
Proof.
  intros Hkeep H Hin. unfold processAtlas in H.
  destruct (canonicalMap validMaps) as [c|]; [|discriminate].
  apply bind_Ok in H as [cr [Hc H]].
  destruct cr as [cp|]; [|discriminate].
  apply bind_Ok in H as [os [Ho H]]. injection H as -> -> ->.
  pose proof (atlasMap_lookup P _ _ _ _ _ _ Hc) as Hclook.
  pose proof Hc as Hpack.
  apply (atlasMap_pack_shape P Hkeep) in Hpack as [bins [Hne [Ha [Hb Hmats]]]]; [|exact I].
  pose proof (atlasMap_pack_names P doc areas opts canonical None cpass Hkeep I Hc)
    as Hcnames.
  destruct bins as [|bin0 bins]; [contradiction|].
  destruct (pass_atlases cpass) as [|catlas atlases] eqn:Eat; [discriminate|].
  destruct (pass_bins cpass) as [|cbin cbins] eqn:Ebin; [discriminate|].
  cbn in Ha, Hb. injection Ha as Hca _. injection Hb as Hcb _.
  pose proof (reuse_passes_reuse _ _ _ _ _ _ _ _ _ _ Ho Hin) as Hr.
  cbn [head fmap option_fmap option_map default] in Hr.
  apply atlasMap_reuse_exact in Hr
    as [entries [bin [atlas [He [Epb [Epa [Hrects [Hla Hmap]]]]]]]].
  exists cbin, catlas, bin, atlas.
  split; [reflexivity|]. split; [reflexivity|]. split; [exact Epb|]. split; [exact Epa|].
  assert (Hgeo : rect_geometry <$> bin_rects bin = rect_geometry <$> bin_rects cbin).
  { rewrite Hrects, Hcb. unfold id. rewrite Hca, <- !list_fmap_compose.
    apply list_fmap_ext. intros i x _. reflexivity. }
  assert (Hlgeo : layout_geometry <$> la_rects atlas = layout_geometry <$> la_rects catlas).
  { rewrite Hla, Hrects. unfold id. rewrite Hca, <- !list_fmap_compose.
    apply list_fmap_ext. intros i x _. reflexivity. }
  split; [by rewrite <- (length_fmap layout_geometry), Hlgeo, length_fmap|].
  split; [exact Hlgeo|]. split; [exact Hgeo|]. split; [exact Hmap|].
  intros Hnd.
  assert (Hent : forall e m, e ∈ entries -> m ∈ e_materials e -> m ∈ doc_materials doc).
  { intros e m Hein Hm.
    destruct (buildEntries_materials _ _ _ _ _ _ _ He e m Hein Hm) as [Hd|[e0 [H0 _]]];
      [exact Hd | by apply elem_of_nil in H0]. }
  assert (Hsame : Forall2 (same_rect (doc_materials doc)) (bin_rects cbin) (bin_rects bin)).
  { rewrite Hrects, Hcb. unfold id. rewrite Hca, <- list_fmap_compose.
    apply Forall2_fmap_r, Forall_Forall2_diag, Forall_forall. intros crect Hcr. cbn.
    apply reuse_rect_same; [exact Hnd | exact Hent|].
    intros m Hm. apply (Hmats bin0 crect m); [apply list_elem_of_here | exact Hcr | exact Hm]. }
  assert (Hn0 : Forall (fun crect => r_names crect = []) (bin_rects cbin)).
  { apply Forall_forall. intros rect Hrect.
    apply (Hcnames cbin rect); [apply list_elem_of_here | exact Hrect]. }
  split; [exact Hsame|]. split.
  - intros mat cmp Hname Hl Hidx.
    apply Hclook in Hl as [b [Hb Hh]]. rewrite Hidx in Hb. cbn in Hb.
    injection Hb as <-.
    destruct (holder_same (doc_materials doc) mat _ _ Hname Hn0 Hsame) as [Hg _].
    rewrite Hmap, Hg, Hh. reflexivity.
  - intros mat mp Hl.
    pose proof (Hmap mat) as Hm. unfold mapped_geometry in Hm. rewrite Hl in Hm. cbn in Hm.
    destruct (holder (doc_materials doc) mat (bin_rects bin)) as [r|] eqn:Eh;
      [|discriminate].
    assert (Hgm : rect_geometry (m_rect mp) = rect_geometry r) by (cbn in Hm; congruence).
    apply holder_Some in Eh as [Hr Hmat].
    apply list_elem_of_lookup in Hr as [i Hi].
    destruct (Forall2_lookup_r _ _ _ _ _ Hsame Hi) as [crect [Hci [Hg Hiff]]].
    apply Hiff in Hmat as [Hmat Hname]. split; [exact Hname|].
    exists crect. split; [by eapply list_elem_of_lookup_2|]. split; [exact Hmat|].
    by rewrite Hgm, Hg.
Qed.

Lemma distinct_names : NoDup (display_name <$> doc_materials pair_doc).
Proof. apply (bool_decide_unpack _). vm_compute. exact I. Qed.

Lemma pair_run_passes :
  processAtlas shelf_packer pair_doc ∅ sample_opts [basecolor; normal] =
  Ok [(basecolor, pass_of pair_run 0); (normal, pass_of pair_run 1)].
Proof. vm_compute. reflexivity. Qed.

Lemma reused_layout_matches_witness :
  NoDup (display_name <$> doc_materials pair_doc) /\
  mapped_geometry (pass_of pair_run 0) wood = Some (0, 0, 256, 256) /\
  mapped_geometry (pass_of pair_run 1) wood = Some (0, 0, 256, 256) /\
  mapped_geometry (pass_of pair_run 0) steel = Some (258, 0, 256, 256) /\
  mapped_geometry (pass_of pair_run 1) steel = Some (258, 0, 256, 256) /\
  exists cbin catlas bin atlas,
    head (pass_bins (pass_of pair_run 0)) = Some cbin /\
    head (pass_atlases (pass_of pair_run 0)) = Some catlas /\
    pass_bins (pass_of pair_run 1) = [bin] /\ pass_atlases (pass_of pair_run 1) = [atlas] /\
    length (la_rects atlas) = length (la_rects catlas) /\
    layout_geometry <$> la_rects atlas = layout_geometry <$> la_rects catlas /\
    rect_geometry <$> bin_rects bin = rect_geometry <$> bin_rects cbin /\
    (forall mat, mapped_geometry (pass_of pair_run 1) mat =
                 rect_geometry <$> holder (doc_materials pair_doc) mat (bin_rects bin)) /\
    (NoDup (display_name <$> doc_materials pair_doc) ->
       Forall2 (same_rect (doc_materials pair_doc)) (bin_rects cbin) (bin_rects bin) /\
       (forall mat cmp,
          mat_name mat <> "" -> pass_materialMap (pass_of pair_run 0) !! mat = Some cmp ->
          m_atlasIndex cmp = 0%nat ->
          mapped_geometry (pass_of pair_run 1) mat = Some (rect_geometry (m_rect cmp))) /\
       (forall mat mp,
          pass_materialMap (pass_of pair_run 1) !! mat = Some mp ->
          mat_name mat <> "" /\
          exists crect,
            crect ∈ bin_rects cbin /\ mat ∈ e_materials (r_data crect) /\
            rect_geometry (m_rect mp) = rect_geometry crect)).
Proof.
  split; [exact distinct_names|].
  split; [vm_compute; reflexivity|]. split; [vm_compute; reflexivity|].
  split; [vm_compute; reflexivity|]. split; [vm_compute; reflexivity|].
  apply (reused_layout_matches shelf_packer pair_doc ∅ sample_opts [basecolor; normal]
           basecolor (pass_of pair_run 0) [(normal, pass_of pair_run 1)] normal).
  - exact shelf_packer_keeps_payloads.
  - exact pair_run_passes.
  - apply list_elem_of_here.
Defined.

(** C1, as stated, fails. Two materials share the name "a". The canonical
    channel maps the first to the rect at x = 0; the reused channel resolves
    both rects to the first material and maps it to the rect at x = 258. *)
Lemma reuse_moves_twin_material :
  mapped_geometry (pass_of twin_run 0) twin_a = Some (0, 0, 256, 256) /\
  mapped_geometry (pass_of twin_run 1) twin_a = Some (258, 0, 256, 256) /\
  mapped_geometry (pass_of twin_run 1) twin_a <> mapped_geometry (pass_of twin_run 0) twin_a.
Proof.
  assert (E0 : mapped_geometry (pass_of twin_run 0) twin_a = Some (0, 0, 256, 256))
    by (vm_compute; reflexivity).
  assert (E1 : mapped_geometry (pass_of twin_run 1) twin_a = Some (258, 0, 256, 256))
    by (vm_compute; reflexivity).
  rewrite E0, E1. repeat split. discriminate.
Qed.

(** C9. Given a packer whose bins are no larger than the size it was created
    with, every bin of every pass of a run, packing pass or reuse pass, and
    every atlas of its layout record, is square, with a side that is a power
    of two between 256 and [maxSize]. *)
Theorem atlas_bins_square_pow2 P doc areas opts validMaps passes map pass :
  packer_fits P ->
  processAtlas P doc areas opts validMaps = Ok passes ->
  (map, pass) ∈ passes ->
  (forall bin, bin ∈ pass_bins pass ->
     bin_width bin = bin_height bin /\ is_pow2 (bin_width bin) /\
     256 <= bin_width bin <= maxSize opts) /\
  (forall atlas, atlas ∈ pass_atlases pass ->
     la_width atlas = la_height atlas /\ is_pow2 (la_width atlas) /\
     256 <= la_width atlas <= maxSize opts).
Proof.
  intros Hfit H Hin.
  destruct (processAtlas_sized P Hfit _ _ _ _ _ H map pass Hin) as [s [[Hp Hr] [Hb Ha]]].
  split.
  - intros bin Hbin. destruct (Hb bin Hbin) as [-> ->]. auto.
  - intros atlas Hat. destruct (Ha atlas Hat) as [-> ->]. auto.
Qed.

Lemma atlas_bins_square_pow2_witness :
  (forall bin, bin ∈ pass_bins (pass_of pair_run 1) ->
     bin_width bin = bin_height bin /\ is_pow2 (bin_width bin) /\
     256 <= bin_width bin <= maxSize sample_opts) /\
  (forall atlas, atlas ∈ pass_atlases (pass_of pair_run 1) ->
     la_width atlas = la_height atlas /\ is_pow2 (la_width atlas) /\
     256 <= la_width atlas <= maxSize sample_opts).
Proof.
  apply (atlas_bins_square_pow2 shelf_packer pair_doc ∅ sample_opts [basecolor; normal]
           [(basecolor, pass_of pair_run 0); (normal, pass_of pair_run 1)] normal).
  - exact shelf_packer_fits.
  - exact pair_run_passes.
  - apply list_elem_of_further, list_elem_of_here.
Defined.

End AtlasProps.

(** ** UV Remapper *)

Module RemapProps.
Import Atlas Remap BasicFacts Predicates Samples.








(** The example of the specification: (0,0), (1,0), (1,1) into the quarter. *)
Lemma remap_example :
  Forall2 num_equiv
    (remap_uv quarter 1024 1024 [Fin 0; Fin 0; Fin 1; Fin 0; Fin 1; Fin 1])
    [Fin (1 # 4); Fin 0; Fin (1 # 2); Fin 0; Fin (1 # 2); Fin (1 # 4)].
Proof. repeat constructor. Qed.

Section RemapRuns.

Variables (cos sin : Q -> Q).

(** A run that remaps leaves the UVs in set 0, the material reading set 0,
    and a transform only where it did not bake one. *)
Lemma remap_run_done hasExt rect binIndex size st0 st1 uv0 :
  getAttribute (rs_prim st0) (TEXCOORD (read_set st0)) = Some uv0 ->
  remap_run cos sin hasExt rect binIndex size st0 = Ok st1 ->
  is_Some (getAttribute (rs_prim st1) (TEXCOORD 0)) /\
  read_set st1 = 0%nat /\
  m_hasTransform (mapping_of hasExt (rs_info st1) rect binIndex size) = false.
Proof.
  intros Huv H. unfold remap_run, remap_body in H.
  cbn [m_texCoordIndex m_hasTransform mapping_of m_rect m_width m_height] in H.
  fold (read_set st0) in H. rewrite Huv in H.
  destruct (rs_info st0) as [info|] eqn:Ei.
  - destruct (hasExt && bool_decide (is_Some (ti_transform info)))%bool eqn:Eh.
    + cbn in H. injection H as <-. cbn [rs_prim rs_info].
      split; [rewrite getAttribute_set_eq; eauto|]. split; [reflexivity|].
      cbn. by rewrite andb_false_r.
    + cbn in H. injection H as <-. cbn [rs_prim rs_info].
      split; [rewrite getAttribute_set_eq; eauto|]. split; [reflexivity|].
      cbn. exact Eh.
  - rewrite andb_false_r in H. cbn in H. injection H as <-. cbn [rs_prim rs_info].
    split; [rewrite getAttribute_set_eq; eauto|]. split; [reflexivity|].
    cbn. by rewrite andb_false_r.
Qed.

(** A run on a state whose mapping has no transform: scale and offset only. *)
Lemma remap_run_plain hasExt rect binIndex size st uv :
  m_hasTransform (mapping_of hasExt (rs_info st) rect binIndex size) = false ->
  getAttribute (rs_prim st) (TEXCOORD (read_set st)) = Some uv ->
  exists st',
    remap_run cos sin hasExt rect binIndex size st = Ok st' /\
    getAttribute (rs_prim st') (TEXCOORD 0) =
      Some (createAccessor VEC2 (remap_uv rect size size (acc_array uv))) /\
    rs_info st' = (fun i => mkTextureInfo 0 (ti_transform i)) <$> rs_info st.
Proof.
  intros Hno Huv. unfold remap_run, remap_body.
  rewrite Hno. cbn [m_texCoordIndex mapping_of m_rect m_width m_height].
  fold (read_set st). rewrite Huv. cbn.
  eexists. split; [reflexivity|]. cbn [rs_prim rs_info].
  split; [apply getAttribute_set_eq | reflexivity].
Qed.

(** No run after the first bakes a transform. *)
Lemma second_run_never_bakes hasExt rect binIndex size rect' binIndex' size' st0 st1 :
  remap_run cos sin hasExt rect binIndex size st0 = Ok st1 ->
  bakes (mapping_of hasExt (rs_info st1) rect' binIndex' size') st1 = false.
Proof.
  intros H. unfold bakes.
  destruct (getAttribute (rs_prim st0) (TEXCOORD (read_set st0))) as [uv0|] eqn:Huv.
  - destruct (remap_run_done _ _ _ _ _ _ _ Huv H) as [_ [_ Hno]].
    cbn [m_hasTransform mapping_of] in *. by rewrite Hno.
  - unfold remap_run, remap_body in H.
    cbn [m_texCoordIndex mapping_of] in H. fold (read_set st0) in H.
    rewrite Huv in H. injection H as <-.
    cbn [m_texCoordIndex mapping_of]. fold (read_set st0). rewrite Huv.
    rewrite bool_decide_eq_false_2; [apply andb_false_r|]. by intros [? ?].
Qed.

(** C8, as the code has it. After a run that remapped the primitive, a
    second run bakes no transform: it reads texcoord set 0, applies the
    rect's scale and offset to the values the first run left there, and
    stores the result under set 0 again. *)
Theorem second_remap_run hasExt rect binIndex size rect' binIndex' size' st0 st1 uv0 :
  getAttribute (rs_prim st0) (TEXCOORD (read_set st0)) = Some uv0 ->
  remap_run cos sin hasExt rect binIndex size st0 = Ok st1 ->
  bakes (mapping_of hasExt (rs_info st1) rect' binIndex' size') st1 = false /\
  exists uv1 st2,
    getAttribute (rs_prim st1) (TEXCOORD 0) = Some uv1 /\
    remap_run cos sin hasExt rect' binIndex' size' st1 = Ok st2 /\
    getAttribute (rs_prim st2) (TEXCOORD 0) =
      Some (createAccessor VEC2 (remap_uv rect' size' size' (acc_array uv1))) /\
    rs_info st2 = rs_info st1.
Proof.
  intros Huv H. split; [eapply second_run_never_bakes; exact H|].
  destruct (remap_run_done _ _ _ _ _ _ _ Huv H) as [[uv1 Huv1] [Hset Hno]].
  exists uv1.
  assert (Hno' : m_hasTransform (mapping_of hasExt (rs_info st1) rect' binIndex' size') = false)
    by exact Hno.
  assert (Huv1' : getAttribute (rs_prim st1) (TEXCOORD (read_set st1)) = Some uv1)
    by (rewrite Hset; exact Huv1).
  destruct (remap_run_plain hasExt rect' binIndex' size' st1 uv1 Hno' Huv1')
    as [st2 [Hrun [Hget Hinfo]]].
  exists st2. split; [exact Huv1|]. split; [exact Hrun|]. split; [exact Hget|].
  rewrite Hinfo. unfold read_set in Hset.
  destruct (rs_info st1) as [[tc t]|]; [|reflexivity]. cbn in *. by subst tc.
Qed.

End RemapRuns.

Lemma first_run_result : first_run = Ok corner_remapped.
Proof. reflexivity. Qed.

Lemma second_remap_run_witness :
  bakes (mapping_of true (rs_info corner_remapped) quarter 0 1024) corner_remapped = false /\
  exists uv1 st2,
    getAttribute (rs_prim corner_remapped) (TEXCOORD 0) = Some uv1 /\
    remap_run (fun _ => 1%Q) (fun _ => 0%Q) true quarter 0 1024 corner_remapped = Ok st2 /\
    getAttribute (rs_prim st2) (TEXCOORD 0) =
      Some (createAccessor VEC2 (remap_uv quarter 1024 1024 (acc_array uv1))) /\
    rs_info st2 = rs_info corner_remapped.
Proof.
  apply (second_remap_run (fun _ => 1%Q) (fun _ => 0%Q) true quarter 0 1024 quarter 0 1024
           corner corner_remapped (mkAccessor "" VEC2 [Fin 1; Fin 1])).
  - reflexivity.
  - exact first_run_result.
Defined.

(** C8, as stated, fails: the corner (1, 1) is at (1/2, 1/4) after the first
    run and at (3/8, 1/16) after the second. *)
Lemma second_run_moves_uv :
  ~ Forall2 num_equiv (texcoord0 second_run) (texcoord0 first_run).
Proof.
  intros H. vm_compute in H. inversion H as [|a b l l' Hab _].
  vm_compute in Hab. discriminate.
Qed.

End RemapProps.

(** ** Normal matrices *)

Module GeometryProps.
Import Geometry Samples.

(** The worker falls back to the identity on a zero (or NaN) determinant. *)
Lemma worker_zero_det m :
  falsy (worker_det3 m) = true -> worker_computeNormalMatrix m = identityMat4.
Proof.
  intros H. unfold worker_computeNormalMatrix. unfold worker_det3 in H.
  cbv zeta. rewrite H. reflexivity.
Qed.

(** C4 on the library. The transform that scales z by zero has a zero
    determinant; the library divides the cofactors by 1 in place of it and
    returns them, not the identity: the normal (1, 0, 0) is sent to the zero
    vector, which the identity would leave alone. *)
Lemma lib_zero_det_is_not_identity :
  falsy (det3 flatten_z) = true /\
  computeNormalMatrix flatten_z = of_Z <$> [0; 0; 0; 0; 0; 0; 0; 0; 1] /\
  computeNormalMatrix flatten_z <> identityMat3 /\
  transformVector (computeNormalMatrix flatten_z) (of_Z 1, of_Z 0, of_Z 0)
    = (of_Z 0, of_Z 0, of_Z 0) /\
  worker_computeNormalMatrix flatten_z = identityMat4.
Proof.
  repeat split; try (vm_compute; reflexivity). vm_compute. discriminate.
Qed.

End GeometryProps.

(** ** Primitive Merger *)

Module MergerProps.
Import Merger Samples.

(** What the code chooses the index width by: the number of indices. *)
Lemma index_width_by_index_count indices :
  is_32bit (index_accessor indices) = true <-> 65535 < Z.of_nat (length indices).
Proof.
  unfold index_accessor.
  destruct (Z.ltb_spec 65535 (Z.of_nat (length indices))); cbn; split; try lia; try done.
Qed.

(** C2 on a mesh of 65539 vertices and six indices: the merged index
    accessor is 16 bits wide, and the indices 65536, 65537 and 65538 of the
    second triangle are stored as 0, 1 and 2. *)
Lemma index_width_ignores_vertex_count :
  total_vertex_count [big_prim; small_prim] = 65539 /\
  indices <$> mergePrimitivesIntoOne [big_prim; small_prim] =
    [Some (Uint16Array [0; 1; 65535; 0; 1; 2])].
Proof. split; vm_compute; reflexivity. Qed.

(** C10. Merging a mesh of at most one primitive leaves its list of
    primitives, and so every attribute, index and material in it, as it was. *)
Theorem merge_at_most_one_noop prims :
  (length prims <= 1)%nat -> mergePrimitivesIntoOne prims = prims.
Proof.
  intros H. unfold mergePrimitivesIntoOne.
  destruct (Nat.leb_spec (length prims) 1); [reflexivity | lia].
Qed.

Lemma merge_at_most_one_noop_witness :
  mergePrimitivesIntoOne [small_prim] = [small_prim].
Proof. apply (merge_at_most_one_noop [small_prim]). cbn. lia. Defined.

End MergerProps.

(** ** Input defects *)

Module DefectProps.
Import Packer Atlas Merger BasicFacts Predicates Samples.

Lemma newEntry_Ok opts areas mat tex img e :
  newEntry opts areas mat tex img = Ok e -> readable img /\ e_texture e = Some tex.
Proof.
  unfold newEntry. destruct img as [|[w|] [h|]]; cbn; try discriminate.
  destruct (Z.eqb_spec w 0) as [|Hw]; [discriminate|].
  destruct (Z.eqb_spec h 0) as [|Hh]; [discriminate|]. cbn.
  destruct (_ && _ && _)%bool; intros H; injection H as <-;
    (split; [exists w, h; auto | reflexivity]).
Qed.

Lemma newEntry_terminates opts areas mat tex img :
  newEntry opts areas mat tex img <> Diverge.
Proof.
  unfold newEntry. destruct img as [|[w|] [h|]]; cbn; try discriminate.
  destruct (_ || _)%bool; [discriminate|]. destruct (_ && _ && _)%bool; discriminate.
Qed.

Lemma newEntry_unreadable opts areas mat tex img :
  ~ readable img -> exists msg, newEntry opts areas mat tex img = Throw msg.
Proof.
  intros Hbad. destruct (newEntry opts areas mat tex img) as [e|msg|] eqn:E.
  - apply newEntry_Ok in E as [Hr _]. contradiction.
  - eauto.
  - exfalso. exact (newEntry_terminates _ _ _ _ _ E).
Qed.

Lemma push_material_Some tex mat : forall entries es,
  push_material tex mat entries = Some es ->
  (exists e, e ∈ entries /\ e_texture e = Some tex) /\
  (forall e', e' ∈ es -> exists e, e ∈ entries /\ e_texture e' = e_texture e).
Proof.
  induction entries as [|e0 rest IH]; intros es H; cbn [push_material] in H; [discriminate|].
  destruct (entry_has_texture tex e0) eqn:Eh.
  - injection H as <-. unfold entry_has_texture in Eh. apply bool_decide_eq_true in Eh.
    split; [exists e0; split; [apply list_elem_of_here | exact Eh]|].
    intros e' Hin. apply elem_of_cons in Hin as [-> | Hin].
    + exists e0. split; [apply list_elem_of_here | reflexivity].
    + exists e'. split; [by apply list_elem_of_further | reflexivity].
  - destruct (push_material tex mat rest) as [es'|] eqn:E; [|discriminate].
    cbn in H. injection H as <-.
    destruct (IH es' eq_refl) as [[e [He Ht]] Hall].
    split; [exists e; split; [by apply list_elem_of_further | exact Ht]|].
    intros e' Hin. apply elem_of_cons in Hin as [-> | Hin].
    + exists e0. split; [apply list_elem_of_here | reflexivity].
    + destruct (Hall e' Hin) as [e1 [H1 H2]]. exists e1.
      split; [by apply list_elem_of_further | exact H2].
Qed.

Lemma buildEntries_unreadable doc map opts areas mat tex img : forall materials entries,
  mat ∈ materials -> getter doc map mat = Some tex -> tex_image tex = Some img ->
  ~ readable img -> entries_readable entries ->
  exists msg, buildEntries doc map opts areas materials entries = Throw msg.
Proof.
  intros materials. induction materials as [|m0 rest IH];
    intros entries Hin Hget Himg Hbad Hinv; [by apply elem_of_nil in Hin|].
  cbn [buildEntries].
  destruct (decide (m0 = mat)) as [->|Hne].
  - rewrite Hget, Himg.
    destruct (push_material tex mat entries) as [entries'|] eqn:Ep.
    + exfalso. apply push_material_Some in Ep as [[e [He Ht]] _].
      apply Hbad. exact (Hinv e tex img He Ht Himg).
    + destruct (newEntry_unreadable opts areas mat tex img Hbad) as [msg ->].
      exists msg. reflexivity.
  - apply elem_of_cons in Hin as [Heq | Hin]; [congruence|].
    destruct (getter doc map m0) as [tex0|]; [|by apply IH].
    destruct (tex_image tex0) as [img0|] eqn:Ei0; [|by apply IH].
    destruct (push_material tex0 m0 entries) as [entries'|] eqn:Ep.
    + apply IH; try assumption.
      apply push_material_Some in Ep as [_ Hall].
      intros e t i He Ht Hi. destruct (Hall e He) as [e1 [H1 H2]].
      rewrite H2 in Ht. exact (Hinv e1 t i H1 Ht Hi).
    + destruct (newEntry opts areas m0 tex0 img0) as [ne|msg|] eqn:En.
      * cbn. apply IH; try assumption.
        apply newEntry_Ok in En as [Hr Ht0].
        intros e t i He Ht Hi. apply elem_of_app in He as [He|He].
        -- exact (Hinv e t i He Ht Hi).
        -- apply list_elem_of_singleton in He as ->. cbn [e_texture] in Ht.
           rewrite Ht0 in Ht. injection Ht as <-. rewrite Ei0 in Hi. by injection Hi as <-.
      * exists msg. reflexivity.
      * exfalso. exact (newEntry_terminates _ _ _ _ _ En).
Qed.

Section Defects.

Variable P : Z -> Z -> list PackItem -> list Bin.

Lemma atlasMap_unreadable doc areas opts map reuse mat tex img :
  mat ∈ doc_materials doc -> getter doc map mat = Some tex -> tex_image tex = Some img ->
  ~ readable img ->
  exists msg, atlasMap P doc areas opts map reuse = Throw msg.
Proof.
  intros Hin Hget Himg Hbad. unfold atlasMap.
  destruct (buildEntries_unreadable doc map opts areas mat tex img (doc_materials doc) [])
    as [msg ->]; try assumption.
  - intros e t i He. by apply elem_of_nil in He.
  - exists msg. reflexivity.
Qed.

End Defects.

(** *** The merger skips a primitive without POSITION *)

Lemma collect_step_no_position c prim :
  getAttribute prim POSITION = None -> collect_step c prim = c.
Proof. intros H. unfold collect_step. by rewrite H. Qed.

Lemma collect_skips prim before after :
  getAttribute prim POSITION = None ->
  collect (before ++ prim :: after) = collect (before ++ after).
Proof.
  intros H. unfold collect. rewrite !fold_left_app. cbn [fold_left].
  by rewrite collect_step_no_position.
Qed.

(** C7, as the code has it. A texture whose image dimensions cannot be read
    makes the channel pass of its map throw, whatever else the pass holds. A
    primitive without POSITION raises nothing: the merger passes over it, and
    the arrays it collects are those of the mesh without that primitive. *)
Theorem input_defects P doc areas opts map reuse mat tex img prim :
  mat ∈ doc_materials doc -> getter doc map mat = Some tex -> tex_image tex = Some img ->
  ~ readable img ->
  getAttribute prim POSITION = None ->
  (exists msg, atlasMap P doc areas opts map reuse = Throw msg) /\
  (forall before after, collect (before ++ prim :: after) = collect (before ++ after)).
Proof.
  intros Hin Hget Himg Hbad Hpos. split.
  - eapply atlasMap_unreadable; eauto.
  - intros before after. by apply collect_skips.
Qed.

Lemma input_defects_witness :
  (exists msg, atlasMap shelf_packer torn_doc ∅ sample_opts basecolor None = Throw msg) /\
  (forall before after,
     collect (before ++ no_position :: after) = collect (before ++ after)).
Proof.
  apply (input_defects shelf_packer torn_doc ∅ sample_opts basecolor None torn torn_texture
           (Sized None (Some 64)) no_position).
  - apply list_elem_of_here.
  - reflexivity.
  - reflexivity.
  - intros [w [h [E _]]]. discriminate.
  - reflexivity.
Defined.

(** C7, as stated, fails: a mesh whose first primitive has no POSITION is
    merged without a failure, into the two triangles of the other two. *)
Lemma merge_skips_missing_position :
  (fun p => (getCount <$> getAttribute p POSITION, indices p))
    <$> mergePrimitivesIntoOne [no_position; small_prim; small_prim] =
  [(Some 6, Some (Uint16Array [0; 1; 2; 3; 4; 5]))].
Proof. vm_compute. reflexivity. Qed.

End DefectProps.

(** ** Arrays and rational tests *)

Module ArrayFacts.

Lemma Qeq_bool_false a b : Qeq_bool a b = false -> ~ (a == b)%Q.
Proof. intros E H. apply Qeq_bool_iff in H. congruence. Qed.

Lemma Qeq_bool_true a b : (a == b)%Q -> Qeq_bool a b = true.
Proof. apply Qeq_bool_iff. Qed.

(** Whole three-component elements, one at a time. *)
Lemma whole3_ind (P : list num -> Prop) :
  P [] -> (forall x y z rest, P rest -> P (x :: y :: z :: rest)) ->
  forall l, (length l mod 3 = 0)%nat -> P l.
Proof.
  intros H0 H3 l. remember (length l) as n eqn:En. revert l En.
  induction (lt_wf n) as [n _ IH]. intros l En Hmod.
  destruct l as [|x [|y [|z rest]]]; [exact H0 | subst n; discriminate Hmod
    | subst n; discriminate Hmod |].
  apply H3. apply (IH (length rest)); [subst n; cbn; lia | reflexivity |].
  subst n. cbn [length] in Hmod.
  replace (S (S (S (length rest)))) with (length rest + 1 * 3)%nat in Hmod by lia.
  by rewrite Nat.Div0.mod_add in Hmod.
Qed.


End ArrayFacts.

(** ** Powers of two: what the three loops return *)

Module Pow2Props.
Import Pow2 Pow2Facts.

(** X1. [nearestPow2] rounds down: of a number of at least 1 it gives the largest
    power of two that does not exceed it. *)
Theorem nearestPow2_rounds_down n :
  1 <= n ->
  is_pow2 (nearestPow2 n) /\ nearestPow2 n <= n < 2 * nearestPow2 n.
Proof.
  intros Hn. destruct (nearestPow2_spec n Hn) as [k [Hk [-> [Hlo Hhi]]]].
  split; [by exists k|]. rewrite Z.pow_add_r in Hhi by lia. lia.
Qed.

Lemma nearestPow2_rounds_down_witness :
  1 <= 1000 /\ is_pow2 (nearestPow2 1000) /\ nearestPow2 1000 <= 1000 < 2 * nearestPow2 1000.
Proof. split; [lia | apply (nearestPow2_rounds_down 1000); lia]. Defined.

(** X2. [nextPow2] and [nextPow2Ceil] round up: of a number between 1 and 2^30
    both return the same power of two, the least that is not below it. *)
Theorem nextPow2_rounds_up n :
  1 <= n <= 1073741824 ->
  exists r, nextPow2 n = Some r /\ nextPow2Ceil n = Some r /\
            is_pow2 r /\ n <= r < 2 * n.
Proof.
  intros [Hlo Hhi].
  destruct (nextPow2_loop_spec n Hhi 64 0) as [k [Hk [E [Hle Hmin]]]]; [lia | lia |].
  change (2 ^ 0) with 1 in E. exists (2 ^ k).
  split; [exact E|]. split; [exact E|]. split; [exists k; split; [lia | reflexivity]|].
  split; [exact Hle|]. destruct Hmin as [Hmin|Hmin]; [subst k; change (2 ^ 0) with 1; lia|].
  destruct (Z.eq_dec k 0) as [->|Hk0]; [change (2 ^ 0) with 1; lia|].
  replace k with (k - 1 + 1) at 1 by lia. rewrite Z.pow_add_r by lia.
  change (2 ^ 1) with 2. lia.
Qed.

Lemma nextPow2_rounds_up_witness :
  1 <= 1000 <= 1073741824 /\
  exists r, nextPow2 1000 = Some r /\ nextPow2Ceil 1000 = Some r /\
            is_pow2 r /\ 1000 <= r < 2 * 1000.
Proof. split; [lia | apply (nextPow2_rounds_up 1000); lia]. Defined.

(** X3. Above 2^30 the loop of [nextPow2] has no last round: the 32-bit shift
    wraps to a negative number and then to 0, which stays below [n] for ever. *)
Theorem nextPow2_never_returns n :
  1073741824 < n -> forall rounds, nextPow2_loop rounds 1 n = None.
Proof.
  intros Hn rounds. apply (nextPow2_loop_wraps n Hn rounds 0). lia.
Qed.

Lemma nextPow2_never_returns_witness :
  1073741824 < 1073741825 /\ nextPow2_loop 1000 1 1073741825 = None.
Proof. split; [lia | apply (nextPow2_never_returns 1073741825); lia]. Defined.

End Pow2Props.

(** ** Atlas Packer: sizes tried, scales returned *)

Module PackerMore.
Import Pow2 Packer Pow2Facts BasicFacts PackerContract Predicates PackerProps ArrayFacts
  Samples.

Section Sizes.

Variable P : Z -> Z -> list PackItem -> list Bin.

(** Every size the loop passed over needed too many bins. *)
Lemma pack_loop_smallest fuel : forall size rects maxSize padding maxBins s bins,
  0 < size ->
  pack_loop P fuel size rects maxSize padding maxBins = Ok (s, bins) ->
  forall j, 0 <= j -> size * 2 ^ j < s ->
    maxBins < Z.of_nat (length (P (size * 2 ^ j) padding rects)).
Proof.
  induction fuel as [|fuel IH]; intros size rects maxSize padding maxBins s bins Hs E;
    cbn [pack_loop] in E; [discriminate|].
  destruct (Z.leb_spec size maxSize) as [Hle|Hgt]; [|discriminate].
  destruct (Z.leb_spec (Z.of_nat (length (P size padding rects))) maxBins) as [Hb|Hb].
  - injection E as <- <-. intros j Hj Hlt. pose proof (Z.pow_pos_nonneg 2 j). nia.
  - intros j Hj Hlt. destruct (Z.eq_dec j 0) as [->|Hne].
    + rewrite Z.mul_1_r. exact Hb.
    + specialize (IH (size * 2) rects maxSize padding maxBins s bins ltac:(lia) E (j - 1) ltac:(lia)).
      replace (size * 2 * 2 ^ (j - 1)) with (size * 2 ^ j) in IH.
      * apply IH. exact Hlt.
      * replace j with (j - 1 + 1) at 1 by lia. rewrite Z.pow_add_r by lia. lia.
Qed.

Lemma packIntoAtlas_covers rects maxSize padding maxBins s bins :
  packIntoAtlas P rects maxSize padding maxBins = Ok (s, bins) -> maxDim rects <= s.
Proof.
  unfold packIntoAtlas. destruct (nextPow2 _) as [size|] eqn:En; [|discriminate].
  intros E. destruct (nextPow2_Some _ _ En) as [_ [[k [Hk Hsize]] [Hge _]]].
  destruct (pack_loop_Ok P _ _ _ _ _ _ _ _ E) as [[j [Hj Hs]] _].
  assert (0 < size) by (subst size; apply Z.pow_pos_nonneg; lia).
  pose proof (Z.pow_pos_nonneg 2 j). nia.
Qed.

(** X4. What [packIntoAtlas] returns is the first size that fits: a power of two
    between 256 and [maxSize] that holds the largest side, with the bins the
    packer made at that size, no more than [maxBins]; at every smaller power
    of two from the start size on the packer needed more bins. *)
Theorem pack_picks_smallest_size rects maxSize padding maxBins s bins :
  packIntoAtlas P rects maxSize padding maxBins = Ok (s, bins) ->
  good_size maxSize s /\ maxDim rects <= s /\
  bins = P s padding rects /\ Z.of_nat (length bins) <= maxBins /\
  forall s', is_pow2 s' -> Z.max (maxDim rects) 256 <= s' < s ->
    maxBins < Z.of_nat (length (P s' padding rects)).
Proof.
  intros E. destruct (packIntoAtlas_Ok P _ _ _ _ _ _ E) as [Hgood [Hbins Hlen]].
  unfold packIntoAtlas in E. destruct (nextPow2 _) as [size|] eqn:En; [|discriminate].
  destruct (nextPow2_Some _ _ En) as [_ [[k [Hk Hsize]] [Hge [_ Hmin]]]].
  destruct (pack_loop_Ok P _ _ _ _ _ _ _ _ E) as [[j [Hj Hs]] _].
  assert (0 < size) by (subst size; apply Z.pow_pos_nonneg; lia).
  split; [exact Hgood|]. split.
  { pose proof (Z.pow_pos_nonneg 2 j). nia. }
  split; [exact Hbins|]. split; [exact Hlen|].
  intros s' [k' [Hk' ->]] [Hlo Hhi].
  pose proof (Hmin k' Hk' Hlo) as Hsk. subst size.
  assert (k <= k') as Hkk.
  { destruct (Z.le_gt_cases k k'); [assumption|].
    assert (2 ^ k' < 2 ^ k) by (apply Z.pow_lt_mono_r; lia). lia. }
  assert (0 < 2 ^ k) as Hpos by lia.
  pose proof (pack_loop_smallest _ _ _ _ _ _ _ _ Hpos E (k' - k) ltac:(lia)) as Hs'.
  replace (2 ^ k * 2 ^ (k' - k)) with (2 ^ k') in Hs'
    by (rewrite <- Z.pow_add_r by lia; f_equal; lia).
  apply Hs'. lia.
Qed.

Lemma packIntoAtlas_throws rects maxSize padding maxBins :
  maxDim rects <= 1073741824 ->
  (forall s, is_pow2 s -> Z.max (maxDim rects) 256 <= s <= maxSize ->
     maxBins < Z.of_nat (length (P s padding rects))) ->
  exists msg, packIntoAtlas P rects maxSize padding maxBins = Throw msg.
Proof.
  intros Hd Hnone.
  pose proof (packIntoAtlas_terminates P rects maxSize padding maxBins Hd) as Hterm.
  destruct (packIntoAtlas P rects maxSize padding maxBins) as [[s bins]|msg|] eqn:E;
    [|by exists msg|done].
  exfalso. destruct (packIntoAtlas_Ok P _ _ _ _ _ _ E) as [[Hpow [Hlo Hhi]] [Hbins Hlen]].
  pose proof (packIntoAtlas_covers _ _ _ _ _ _ E) as Hdim.
  specialize (Hnone s Hpow ltac:(lia)). subst bins. lia.
Qed.

(** X5. [packIntoAtlas] throws when the packer needs more than [maxBins] bins at
    every power of two from the start size up to [maxSize] (sides up to 2^30). *)
Theorem pack_fails_when_nothing_fits rects maxSize padding maxBins :
  maxDim rects <= 1073741824 ->
  (forall s, is_pow2 s -> Z.max (maxDim rects) 256 <= s <= maxSize ->
     maxBins < Z.of_nat (length (P s padding rects))) ->
  exists msg, packIntoAtlas P rects maxSize padding maxBins = Throw msg.
Proof. apply packIntoAtlas_throws. Qed.

End Sizes.

Lemma pack_picks_smallest_size_witness :
  exists bins,
    packIntoAtlas shelf_packer five 4096 0 1 = Ok (4096, bins) /\
    (good_size 4096 4096 /\ maxDim five <= 4096 /\
     bins = shelf_packer 4096 0 five /\ Z.of_nat (length bins) <= 1 /\
     forall s', is_pow2 s' -> Z.max (maxDim five) 256 <= s' < 4096 ->
       1 < Z.of_nat (length (shelf_packer s' 0 five))).
Proof.
  exists (shelf_packer 4096 0 five). split; [vm_compute; reflexivity|].
  apply (pack_picks_smallest_size shelf_packer five 4096 0 1). vm_compute. reflexivity.
Defined.

Lemma pack_fails_when_nothing_fits_witness :
  maxDim five <= 1073741824 /\
  (forall s, is_pow2 s -> Z.max (maxDim five) 256 <= s <= 1024 ->
     1 < Z.of_nat (length (shelf_packer s 0 five))) /\
  exists msg, packIntoAtlas shelf_packer five 1024 0 1 = Throw msg.
Proof.
  assert (forall s, is_pow2 s -> Z.max (maxDim five) 256 <= s <= 1024 ->
            1 < Z.of_nat (length (shelf_packer s 0 five))) as Hnone.
  { intros s _ Hs. change (maxDim five) with 1024 in Hs.
    replace s with 1024 by lia. vm_compute. reflexivity. }
  split; [vm_compute; discriminate|]. split; [exact Hnone|].
  apply (pack_fails_when_nothing_fits shelf_packer five 1024 0 1);
    [vm_compute; discriminate | exact Hnone].
Defined.

Section Scales.

Variable P : Z -> Z -> list PackItem -> list Bin.
Variables (rects : list PackItem) (maxSize padding : Z).

(** What the halving loop leaves in [high]. *)
Lemma shrink_Ok fuel : forall high r,
  shrink P fuel rects maxSize padding high = Ok r ->
  (0 < high <= 1)%Q ->
  (0 < r <= 1)%Q /\ (Qle_bool r (1 # 100) = false -> canPack P rects maxSize padding 1 r = Ok true).
Proof.
  induction fuel as [|fuel IH]; intros high r E Hh; cbn [shrink] in E; [discriminate|].
  destruct (Qle_bool high (1 # 100)) eqn:Efloor; cbn [negb] in E.
  - injection E as <-. split; [exact Hh|]. congruence.
  - apply bind_Ok in E as [b [Eb E]]. destruct b; cbn [negb] in E.
    + injection E as <-. split; [exact Hh | intros _; exact Eb].
    + apply IH in E; [exact E|]. lra.
Qed.

(** What the refinement keeps true. *)
Lemma refine_Ok n : forall s s',
  refine P n rects maxSize padding s = Ok s' ->
  (0 <= low s <= high s)%Q -> (0 < high s <= 1)%Q -> (0 < best s <= 1)%Q -> canPack P rects maxSize padding 1 (best s) = Ok true ->
  (0 < best s' <= 1)%Q /\ canPack P rects maxSize padding 1 (best s') = Ok true.
Proof.
  induction n as [|n IH]; intros s s' E Hl Hh Hb Hf; cbn [refine] in E.
  - injection E as <-. auto.
  - apply bind_Ok in E as [b [Eb E]].
    assert (0 < (low s + high s) / 2 <= high s)%Q as Hmid.
    { split; [apply Qlt_shift_div_l; lra | apply Qle_shift_div_r; lra]. }
    assert (low s <= (low s + high s) / 2)%Q as Hlow.
    { apply Qle_shift_div_l; lra. }
    destruct b.
    + apply IH in E; cbn [low high best]; [exact E | lra | lra | lra | exact Eb].
    + apply IH in E; cbn [low high best]; [exact E | lra | lra | lra | exact Hf].
Qed.

(** X6. The scale [findBestScaleForSingleBin] returns lies in (0, 1], and the
    textures resized to it fit a single bin. *)
Theorem best_scale_packs s :
  findBestScaleForSingleBin P rects maxSize padding = Ok s ->
  canPack P rects maxSize padding 1 s = Ok true /\ (0 < s <= 1)%Q.
Proof.
  unfold findBestScaleForSingleBin. intros E.
  apply bind_Ok in E as [full [Efull E]]. destruct full.
  { injection E as <-. split; [exact Efull | lra]. }
  apply bind_Ok in E as [hi [Ehigh E]].
  apply shrink_Ok in Ehigh as [Hh Hfit]; [|lra].
  apply bind_Ok in E as [failed [Efailed E]]. destruct failed; [discriminate|].
  apply bind_Ok in E as [st [Est E]]. injection E as <-.
  assert (canPack P rects maxSize padding 1 hi = Ok true) as Hhigh.
  { destruct (Qle_bool hi (1 # 100)); [|by apply Hfit].
    apply bind_Ok in Efailed as [b [Eb Efailed]]. injection Efailed as Eneg.
    destruct b; [exact Eb | discriminate]. }
  apply refine_Ok in Est; cbn [low high best]; [tauto | lra | lra | lra | exact Hhigh].
Qed.

(** The halving loop stays in (0, 1]; while nothing fits it reaches the floor. *)
Lemma shrink_none fuel : forall h,
  (forall scale, (0 < scale <= 1)%Q -> canPack P rects maxSize padding 1 scale = Ok false) ->
  (0 < h <= 1)%Q -> (h <= inject_Z (2 ^ Z.of_nat fuel) * (1 # 100))%Q ->
  exists r, shrink P (S fuel) rects maxSize padding h = Ok r /\
            (0 < r <= 1)%Q /\ Qle_bool r (1 # 100) = true.
Proof.
  induction fuel as [|fuel IH]; intros h Hnone Hh Hfuel; cbn [shrink].
  - change (inject_Z (2 ^ Z.of_nat 0) * (1 # 100))%Q with (1 * (1 # 100))%Q in Hfuel.
    assert (Qle_bool h (1 # 100) = true) as E by (apply Qle_bool_iff; lra).
    rewrite E. cbn [negb]. exists h. auto.
  - destruct (Qle_bool h (1 # 100)) eqn:E; cbn [negb]; [exists h; auto|].
    rewrite (Hnone h Hh). cbn [mbind outcome_bind negb].
    apply IH; [exact Hnone | lra |].
    rewrite Nat2Z.inj_succ, Z.pow_succ_r in Hfuel by lia.
    rewrite inject_Z_mult in Hfuel. change (inject_Z 2) with 2%Q in Hfuel.
    set (x := inject_Z (2 ^ Z.of_nat fuel)) in *. lra.
Qed.

(** X7. [findBestScaleForSingleBin] throws its error when the textures fit a
    single bin at no scale of (0, 1]. *)
Theorem best_scale_fails_when_nothing_fits :
  (forall scale, (0 < scale <= 1)%Q -> canPack P rects maxSize padding 1 scale = Ok false) ->
  findBestScaleForSingleBin P rects maxSize padding =
    Throw "Could not fit into a single atlas even after aggressive downscale.".
Proof.
  intros Hnone. unfold findBestScaleForSingleBin. rewrite Hnone by lra.
  cbn -[shrink refine canPack Qle_bool].
  destruct (shrink_none 15 1 Hnone ltac:(lra)) as [r [-> [Hr Hfloor]]].
  { vm_compute. discriminate. }
  cbn -[shrink refine canPack Qle_bool]. rewrite Hfloor, (Hnone r Hr). reflexivity.
Qed.

End Scales.

Lemma best_scale_packs_witness :
  exists s,
    findBestScaleForSingleBin shelf_packer five 2048 0 = Ok s /\
    (canPack shelf_packer five 2048 0 1 s = Ok true /\ (0 < s <= 1)%Q).
Proof.
  eexists. split; [vm_compute; reflexivity|].
  apply (best_scale_packs shelf_packer five 2048 0). vm_compute. reflexivity.
Defined.

(** Below 256 no size is ever tried. *)
Lemma canPack_below_floor P rects maxSize padding maxBins scale :
  maxSize < 256 ->
  Forall (fun item => 1 <= item_width item <= 1073741824 /\
                      1 <= item_height item <= 1073741824) rects ->
  (0 < scale <= 1)%Q ->
  canPack P rects maxSize padding maxBins scale = Ok false.
Proof.
  intros Hmax Hdims Hs. unfold canPack.
  set (scaled := map _ rects).
  assert (maxDim scaled <= 1073741824) as Hd.
  { unfold maxDim. assert (forall l m, m <= 1073741824 ->
      Forall (fun item => item_width item <= 1073741824 /\
                          item_height item <= 1073741824) l ->
      fold_left (fun m r => Z.max (Z.max m (item_width r)) (item_height r)) l m
        <= 1073741824) as Hfold.
    { induction l as [|i l IH]; intros m Hm Hl; cbn [fold_left]; [exact Hm|].
      apply Forall_cons in Hl as [[Hw Hh] Hl]. apply IH; [lia | exact Hl]. }
    apply Hfold; [lia|]. subst scaled. apply Forall_fmap.
    eapply Forall_impl; [exact Hdims|]. intros item [[Hw1 Hw2] [Hh1 Hh2]]. cbn.
    assert (forall d, 1 <= d -> scale_dim d scale <= d) as Hdim.
    { intros d Hd. unfold scale_dim. apply Z.max_lub; [lia|].
      rewrite Zle_Qle. pose proof (Qfloor_le (inject_Z d * scale)) as Hfl.
      assert (inject_Z 0 <= inject_Z d)%Q as Hd0 by (rewrite <- Zle_Qle; lia).
      change (inject_Z 0) with 0%Q in Hd0.
      set (x := inject_Z d) in *. set (y := inject_Z (Qfloor (x * scale))) in *. nra. }
    pose proof (Hdim _ Hw1). pose proof (Hdim _ Hh1). lia. }
  destruct (packIntoAtlas_throws P scaled maxSize padding maxBins Hd) as [msg ->];
    [|reflexivity].
  intros s _ Hlo. lia.
Qed.

Lemma best_scale_fails_when_nothing_fits_witness :
  (forall scale, (0 < scale <= 1)%Q -> canPack shelf_packer five 100 0 1 scale = Ok false) /\
  findBestScaleForSingleBin shelf_packer five 100 0 =
    Throw "Could not fit into a single atlas even after aggressive downscale.".
Proof.
  assert (forall scale, (0 < scale <= 1)%Q ->
            canPack shelf_packer five 100 0 1 scale = Ok false) as Hnone.
  { intros scale Hs. apply canPack_below_floor; [lia | | exact Hs].
    repeat constructor; cbn; lia. }
  split; [exact Hnone|].
  apply (best_scale_fails_when_nothing_fits shelf_packer five 100 0). exact Hnone.
Defined.

(** X8. [resizePackInputToScale] at a scale of (0, 1] keeps the items, in order,
    with their ids, textures and materials; each side shrinks but stays at
    least 1, and the entry carries the new size. *)
Theorem resize_keeps_items packInput scale :
  (0 < scale <= 1)%Q ->
  Forall (fun item => 1 <= item_width item /\ 1 <= item_height item) packInput ->
  Forall2
    (fun item out =>
       item_id out = item_id item /\
       1 <= item_width out <= item_width item /\
       1 <= item_height out <= item_height item /\
       e_width (item_data out) = item_width out /\
       e_height (item_data out) = item_height out /\
       e_texture (item_data out) = e_texture (item_data item) /\
       e_materials (item_data out) = e_materials (item_data item))
    packInput (resizePackInputToScale packInput scale).
Proof.
  intros Hs Hall. unfold resizePackInputToScale.
  apply Forall2_fmap_r, Forall_Forall2_diag.
  eapply Forall_impl; [exact Hall|]. intros item [Hw Hh]. cbn.
  assert (forall d, 1 <= d -> 1 <= scale_dim d scale <= d) as Hdim.
  { intros d Hd. unfold scale_dim. split; [lia|]. apply Z.max_lub; [lia|].
    rewrite Zle_Qle. pose proof (Qfloor_le (inject_Z d * scale)) as Hfl.
    assert (inject_Z 0 <= inject_Z d)%Q as Hd0 by (rewrite <- Zle_Qle; lia).
    change (inject_Z 0) with 0%Q in Hd0.
    set (x := inject_Z d) in *. set (y := inject_Z (Qfloor (x * scale))) in *. nra. }
  repeat split; try apply Hdim; auto.
Qed.

Lemma resize_keeps_items_witness :
  (0 < 1 # 2 <= 1)%Q /\
  Forall (fun item => 1 <= item_width item /\ 1 <= item_height item) five /\
  Forall2
    (fun item out =>
       item_id out = item_id item /\
       1 <= item_width out <= item_width item /\
       1 <= item_height out <= item_height item /\
       e_width (item_data out) = item_width out /\
       e_height (item_data out) = item_height out /\
       e_texture (item_data out) = e_texture (item_data item) /\
       e_materials (item_data out) = e_materials (item_data item))
    five (resizePackInputToScale five (1 # 2)).
Proof.
  assert (Forall (fun item => 1 <= item_width item /\ 1 <= item_height item) five) as Hall.
  { repeat constructor; cbn; lia. }
  split; [split; [reflexivity | discriminate]|]. split; [exact Hall|].
  apply (resize_keeps_items five (1 # 2)); [split; [reflexivity | discriminate] | exact Hall].
Defined.

End PackerMore.

(** ** Channel passes: entries, order, missing channels *)

Module AtlasMore.
Import Pow2 Sizer Packer Atlas Pow2Facts BasicFacts Predicates AtlasSpec ArrayFacts
  Samples MoreSamples.

Lemma buildEntries_untextured doc map opts areas : forall materials entries,
  (forall mat tex, mat ∈ materials -> getter doc map mat = Some tex ->
     tex_image tex = None) ->
  buildEntries doc map opts areas materials entries = Ok entries.
Proof.
  induction materials as [|mat rest IH]; intros entries Hnone; [reflexivity|].
  cbn [buildEntries].
  assert (Hrest : buildEntries doc map opts areas rest entries = Ok entries).
  { apply IH. intros m t Hm. apply Hnone. by apply list_elem_of_further. }
  destruct (getter doc map mat) as [tex|] eqn:E; [|exact Hrest].
  rewrite (Hnone mat tex); [exact Hrest | apply list_elem_of_here | exact E].
Qed.

Lemma is_pow2_min a b : is_pow2 a -> is_pow2 b -> is_pow2 (Z.min a b).
Proof. intros Ha Hb. destruct (Z.min_spec a b) as [[_ ->]|[_ ->]]; assumption. Qed.

Lemma is_pow2_max a b : is_pow2 a -> is_pow2 b -> is_pow2 (Z.max a b).
Proof. intros Ha Hb. destruct (Z.max_spec a b) as [[_ ->]|[_ ->]]; assumption. Qed.

Lemma is_pow2_256 : is_pow2 256.
Proof. exists 8. split; [lia | reflexivity]. Qed.

(** The size of the "Target sizing" block in every mode. *)
Lemma targetSize_bounds hasAreas mode matArea maxArea maxSize width height :
  is_pow2 maxSize -> 256 <= maxSize -> 1 <= width -> 1 <= height ->
  let t := targetSize hasAreas mode matArea maxArea maxSize width height in
  is_pow2 t /\ 1 <= t <= maxSize /\ t <= Z.min width height.
Proof.
  intros Hm Hmax Hw Hh. unfold targetSize.
  set (p1 := if hasAreas then _ else _).
  assert (is_pow2 p1) as Hp1.
  { subst p1. destruct hasAreas; [|apply nearestPow2_is_pow2].
    destruct mode; [|apply nearestPow2_is_pow2].
    destruct (suggestSizeBestFill _ _ _ _ _); [apply nearestPow2_is_pow2|].
    exists 0. split; [lia | reflexivity]. }
  cbn zeta. split; [|split].
  - apply is_pow2_min; [|apply nearestPow2_is_pow2].
    apply is_pow2_max; [apply is_pow2_256 | by apply is_pow2_min].
  - pose proof (nearestPow2_is_pow2 (Z.max 1 (Z.min width height))) as [k [Hk Ek]].
    pose proof (Z.pow_pos_nonneg 2 k). lia.
  - pose proof (nearestPow2_le (Z.max 1 (Z.min width height))). lia.
Qed.

(** X9. Every entry [atlasMap] builds from an image of at least one pixel each
    way is a square whose side is a power of two, no larger than [maxSize]
    and no larger than the smaller side of the image ([maxSize] a power of
    two of at least 256). *)
Theorem entry_is_square_pow2 opts areas mat tex width height e :
  newEntry opts areas mat tex (Sized (Some width) (Some height)) = Ok e ->
  is_pow2 (maxSize opts) -> 256 <= maxSize opts -> 1 <= width -> 1 <= height ->
  e_height e = e_width e /\ is_pow2 (e_width e) /\
  1 <= e_width e <= maxSize opts /\ e_width e <= Z.min width height.
Proof.
  unfold newEntry. cbn [sizeOf mbind outcome_bind]. intros E Hm Hmax Hw Hh.
  destruct (Z.eqb_spec width 0); [lia|]. destruct (Z.eqb_spec height 0); [lia|].
  cbn [orb] in E.
  destruct (downscale opts && (0 <? resizeCeil opts) &&
            ((resizeCeil opts <? width) || (resizeCeil opts <? height)))%bool eqn:Ed.
  - injection E as <-. cbn [e_width e_height]. split; [reflexivity|].
    set (scale := Qmin2 _ _).
    assert (forall d, 1 <= d -> (scale <= 1)%Q -> (0 <= scale)%Q ->
              1 <= Z.max 1 (Qfloor (inject_Z d * scale)) <= d) as Hdim.
    { intros d Hd Hs1 Hs0. split; [lia|]. apply Z.max_lub; [lia|].
      rewrite Zle_Qle. pose proof (Qfloor_le (inject_Z d * scale)) as Hfl.
      assert (inject_Z 0 <= inject_Z d)%Q as Hd0 by (rewrite <- Zle_Qle; lia).
      change (inject_Z 0) with 0%Q in Hd0.
      set (x := inject_Z d) in *. set (y := inject_Z (Qfloor (x * scale))) in *. nra. }
    apply andb_prop in Ed as [Ed Hbig]. apply andb_prop in Ed as [_ Hc].
    apply Z.ltb_lt in Hc.
    assert (0 < inject_Z (resizeCeil opts))%Q as Hc0.
    { change 0%Q with (inject_Z 0). rewrite <- Zlt_Qlt. exact Hc. }
    assert (0 < inject_Z width)%Q as Hw0.
    { change 0%Q with (inject_Z 0). rewrite <- Zlt_Qlt. lia. }
    assert (0 < inject_Z height)%Q as Hh0.
    { change 0%Q with (inject_Z 0). rewrite <- Zlt_Qlt. lia. }
    assert (0 <= scale)%Q as Hs0.
    { subst scale. unfold Qmin2. destruct (Qle_bool _ _);
        apply Qlt_le_weak, Qlt_shift_div_l; lra. }
    assert (scale <= 1)%Q as Hs1.
    { subst scale. unfold Qmin2.
      destruct (Qle_bool _ _) eqn:Eq; [apply Qle_bool_iff in Eq|].
      - apply orb_prop in Hbig as [Hb|Hb]; apply Z.ltb_lt in Hb.
        + apply Qle_shift_div_r; [exact Hw0|]. rewrite Qmult_1_l, <- Zle_Qle. lia.
        + eapply Qle_trans; [exact Eq|].
          apply Qle_shift_div_r; [exact Hh0|]. rewrite Qmult_1_l, <- Zle_Qle. lia.
      - assert (~ (inject_Z (resizeCeil opts) / inject_Z width
                   <= inject_Z (resizeCeil opts) / inject_Z height)%Q) as Hgt.
        { intros H. apply Qle_bool_iff in H. congruence. }
        apply Qnot_le_lt in Hgt.
        apply orb_prop in Hbig as [Hb|Hb]; apply Z.ltb_lt in Hb.
        + apply Qlt_le_weak. eapply Qlt_le_trans; [exact Hgt|].
          apply Qle_shift_div_r; [exact Hw0|]. rewrite Qmult_1_l, <- Zle_Qle. lia.
        + apply Qle_shift_div_r; [exact Hh0|]. rewrite Qmult_1_l, <- Zle_Qle. lia. }
    pose proof (Hdim width Hw Hs1 Hs0) as Hw'. pose proof (Hdim height Hh Hs1 Hs0) as Hh'.
    match goal with |- context [targetSize ?a ?b ?c ?d ?m ?w ?h] =>
      pose proof (targetSize_bounds a b c d m w h Hm Hmax
                    (Z.le_max_l 1 _) (Z.le_max_l 1 _)) as Ht;
      cbn zeta in Ht; change w with (Z.max 1 (Qfloor (inject_Z width * scale))) in *;
      change h with (Z.max 1 (Qfloor (inject_Z height * scale))) in *
    end.
    destruct Ht as [H1 [H2 H3]]. split; [exact H1|]. split; [exact H2|].
    revert H3 Hw' Hh'.
    generalize (Z.max 1 (Qfloor (inject_Z width * scale))) as w'.
    generalize (Z.max 1 (Qfloor (inject_Z height * scale))) as h'.
    intros h' w'. generalize (targetSize (negb (size areas =? 0)%nat) (sizeMode opts)
      (default 0%Q (areas !! mat_name mat)) (maxMatArea areas) (maxSize opts) w' h').
    intros. lia.
  - injection E as <-. cbn [e_width e_height]. split; [reflexivity|].
    pose proof (targetSize_bounds (negb (size areas =? 0)%nat) (sizeMode opts)
      (default 0%Q (areas !! mat_name mat)) (maxMatArea areas) (maxSize opts)
      width height Hm Hmax Hw Hh) as Ht.
    cbn zeta in Ht. exact Ht.
Qed.

Lemma entry_is_square_pow2_witness :
  exists e,
    newEntry sample_opts ∅ wood (square_texture 0) (Sized (Some 1000) (Some 600)) = Ok e /\
    is_pow2 (maxSize sample_opts) /\ 256 <= maxSize sample_opts /\ 1 <= 1000 /\ 1 <= 600 /\
    (e_height e = e_width e /\ is_pow2 (e_width e) /\
     1 <= e_width e <= maxSize sample_opts /\ e_width e <= Z.min 1000 600).
Proof.
  assert (is_pow2 (maxSize sample_opts)) as Hpow by (exists 12; split; [lia | reflexivity]).
  eexists. split; [vm_compute; reflexivity|].
  split; [exact Hpow|]. split; [cbn; lia|]. split; [lia|]. split; [lia|].
  apply (entry_is_square_pow2 sample_opts ∅ wood (square_texture 0) 1000 600);
    [vm_compute; reflexivity | exact Hpow | cbn; lia | lia | lia].
Defined.

(** *** One entry per texture *)

Lemma push_material_None tex mat : forall entries,
  push_material tex mat entries = None ->
  forall e, e ∈ entries -> e_texture e <> Some tex.
Proof.
  induction entries as [|e0 rest IH]; intros H e He; [by apply elem_of_nil in He|].
  cbn [push_material] in H. unfold entry_has_texture in H.
  destruct (bool_decide_reflect (e_texture e0 = Some tex)) as [|Hne]; [discriminate|].
  destruct (push_material tex mat rest) eqn:E; [discriminate|].
  apply elem_of_cons in He as [->|He]; [exact Hne | by apply IH].
Qed.

Lemma push_material_split tex mat : forall entries es,
  push_material tex mat entries = Some es ->
  exists l1 e l2,
    entries = l1 ++ e :: l2 /\ e_texture e = Some tex /\
    es = l1 ++ mkEntry (e_texture e) (e_buffer e) (e_width e) (e_height e)
                 (e_materials e ++ [mat]) :: l2.
Proof.
  induction entries as [|e0 rest IH]; intros es H; cbn [push_material] in H; [discriminate|].
  unfold entry_has_texture in H.
  destruct (bool_decide_reflect (e_texture e0 = Some tex)) as [Ht|Hne].
  - injection H as <-. by exists [], e0, rest.
  - destruct (push_material tex mat rest) as [es'|] eqn:E; [|discriminate].
    injection H as <-. destruct (IH es' eq_refl) as [l1 [e [l2 [-> [Ht ->]]]]].
    by exists (e0 :: l1), e, l2.
Qed.

Lemma filter_uses_snoc doc map tex done mat :
  filter (uses doc map tex) (done ++ [mat]) =
  filter (uses doc map tex) done ++
    (if decide (getter doc map mat = Some tex) then [mat] else []).
Proof.
  rewrite filter_app. reflexivity.
Qed.

Lemma filter_none doc map tex : forall l,
  (forall m, m ∈ l -> ~ uses doc map tex m) -> filter (uses doc map tex) l = [].
Proof.
  induction l as [|m l IH]; intros H; [reflexivity|].
  rewrite filter_cons_False by apply H, list_elem_of_here.
  apply IH. intros m' Hm'. apply H. by apply list_elem_of_further.
Qed.

(** A material that reads no texture with an image changes no entry. *)
Lemma entries_cover_skip doc map done entries mat :
  (forall tex, getter doc map mat = Some tex -> tex_image tex = None) ->
  entries_cover doc map done entries -> entries_cover doc map (done ++ [mat]) entries.
Proof.
  intros Hskip [Hnd [Hent Hall]]. split; [exact Hnd|]. split.
  - intros e He. destruct (Hent e He) as [tex [Ht [Hi Hm]]].
    exists tex. split; [exact Ht|]. split; [exact Hi|].
    rewrite filter_uses_snoc, Hm.
    destruct (decide (getter doc map mat = Some tex)) as [Hg|]; [|by rewrite app_nil_r].
    rewrite (Hskip tex Hg) in Hi. by destruct Hi.
  - intros m tex Hm Hg Hi. apply elem_of_app in Hm as [Hm|Hm]; [by eapply Hall|].
    apply list_elem_of_singleton in Hm as ->. rewrite (Hskip tex Hg) in Hi. by destruct Hi.
Qed.

Lemma entries_cover_step doc map opts areas : forall materials done entries es,
  entries_cover doc map done entries ->
  buildEntries doc map opts areas materials entries = Ok es ->
  entries_cover doc map (done ++ materials) es.
Proof.
  induction materials as [|mat rest IH]; intros done entries es Hinv E;
    cbn [buildEntries] in E.
  { injection E as <-. by rewrite app_nil_r. }
  replace (done ++ mat :: rest) with ((done ++ [mat]) ++ rest) by (by rewrite <- app_assoc).
  destruct (getter doc map mat) as [tex|] eqn:Eg.
  2:{ eapply IH; [|exact E]. apply entries_cover_skip; [|exact Hinv].
      intros t Ht. rewrite Eg in Ht. discriminate. }
  destruct (tex_image tex) as [img|] eqn:Ei.
  2:{ eapply IH; [|exact E]. apply entries_cover_skip; [|exact Hinv].
      intros t Ht. rewrite Eg in Ht. by injection Ht as <-. }
  destruct Hinv as [Hnd [Hent Hall]].
  destruct (push_material tex mat entries) as [entries'|] eqn:Ep.
  - eapply IH; [|exact E].
    apply push_material_split in Ep as [l1 [e [l2 [-> [Ht ->]]]]].
    split; [|split].
    + rewrite fmap_app in *. exact Hnd.
    + intros e' He'. rewrite fmap_app, fmap_cons in Hnd.
      apply NoDup_app in Hnd as [_ [Hl1 Hnd]]. apply NoDup_cons in Hnd as [Hl2 _].
      assert (Hother : forall e0, e0 ∈ l1 ++ e :: l2 -> e_texture e0 <> Some tex ->
                exists tex0, e_texture e0 = Some tex0 /\ is_Some (tex_image tex0) /\
                  e_materials e0 = filter (uses doc map tex0) (done ++ [mat])).
      { intros e0 He0 Hne. destruct (Hent e0 He0) as [tex0 [Ht0 [Hi0 Hm0]]].
        exists tex0. split; [exact Ht0|]. split; [exact Hi0|].
        rewrite filter_uses_snoc, Hm0. rewrite decide_False; [by rewrite app_nil_r|].
        rewrite Eg. intros H. injection H as <-. by apply Hne. }
      apply elem_of_app in He' as [He'|He'].
      * apply Hother; [apply elem_of_app; by left|].
        intros H. apply (Hl1 (e_texture e')); [by apply list_elem_of_fmap_2|].
        rewrite H, <- Ht. apply list_elem_of_here.
      * apply elem_of_cons in He' as [->|He'].
        -- cbn [e_texture e_materials]. exists tex. split; [exact Ht|].
           split; [by rewrite Ei|].
           destruct (Hent e) as [tex0 [Ht0 [_ Hm0]]].
           { apply elem_of_app. right. apply list_elem_of_here. }
           rewrite Ht in Ht0. injection Ht0 as <-.
           rewrite filter_uses_snoc, Hm0. by rewrite decide_True.
        -- apply Hother; [apply elem_of_app; right; by apply list_elem_of_further|].
           intros H. apply Hl2. rewrite Ht, <- H. by apply list_elem_of_fmap_2.
    + intros m t Hm Hg Hi. apply elem_of_app in Hm as [Hm|Hm].
      * destruct (Hall m t Hm Hg Hi) as [e0 [He0 Ht0]].
        apply elem_of_app in He0 as [He0|He0].
        -- exists e0. split; [apply elem_of_app; by left | exact Ht0].
        -- apply elem_of_cons in He0 as [->|He0].
           ++ eexists. split; [apply elem_of_app; right; apply list_elem_of_here|].
              exact Ht0.
           ++ exists e0. split; [|exact Ht0].
              apply elem_of_app. right. by apply list_elem_of_further.
      * apply list_elem_of_singleton in Hm as ->. rewrite Eg in Hg. injection Hg as <-.
        eexists. split; [apply elem_of_app; right; apply list_elem_of_here|]. exact Ht.
  - apply bind_Ok in E as [ne [En E]]. eapply IH; [|exact E].
    pose proof (push_material_None _ _ _ Ep) as Hfresh.
    assert (e_texture ne = Some tex) as Hne.
    { revert En. unfold newEntry. destruct img as [|[w|] [h|]]; cbn; try discriminate.
      destruct (_ || _)%bool; [discriminate|].
      destruct (_ && _ && _)%bool; intros H; by injection H as <-. }
    split; [|split].
    + rewrite fmap_app. apply NoDup_app. split; [exact Hnd|]. split.
      * intros t Ht Hin. apply list_elem_of_singleton in Hin. cbn in Hin. subst t.
        apply list_elem_of_fmap in Ht as [e0 [Ht He0]]. apply (Hfresh e0 He0).
        by rewrite <- Ht, Hne.
      * apply NoDup_singleton.
    + intros e' He'. apply elem_of_app in He' as [He'|He'].
      * destruct (Hent e' He') as [tex0 [Ht0 [Hi0 Hm0]]].
        exists tex0. split; [exact Ht0|]. split; [exact Hi0|].
        rewrite filter_uses_snoc, Hm0. rewrite decide_False; [by rewrite app_nil_r|].
        rewrite Eg. intros H. injection H as <-. by apply (Hfresh e' He').
      * apply list_elem_of_singleton in He' as ->. cbn [e_texture e_materials].
        exists tex. split; [exact Hne|]. split; [by rewrite Ei|].
        rewrite filter_uses_snoc, decide_True by exact Eg.
        assert (filter (uses doc map tex) done = []) as ->; [|reflexivity].
        apply filter_none. intros m Hm Hu.
        destruct (Hall m tex Hm Hu ltac:(by rewrite Ei)) as [e0 [He0 Ht0]].
        by apply (Hfresh e0 He0).
    + intros m t Hm Hg Hi. apply elem_of_app in Hm as [Hm|Hm].
      * destruct (Hall m t Hm Hg Hi) as [e0 [He0 Ht0]].
        exists e0. split; [apply elem_of_app; by left | exact Ht0].
      * apply list_elem_of_singleton in Hm as ->. rewrite Eg in Hg. injection Hg as <-.
        eexists. split; [apply elem_of_app; right; apply list_elem_of_here|]. exact Hne.
Qed.

(** X10. The entries [atlasMap] builds hold every texture once: one entry per
    texture with an image, listing exactly the materials that read it, in
    the order of the document. *)
Theorem entries_share_textures doc map opts areas es :
  buildEntries doc map opts areas (doc_materials doc) [] = Ok es ->
  entries_cover doc map (doc_materials doc) es.
Proof.
  intros E. apply (entries_cover_step doc map opts areas (doc_materials doc) [] [] es);
    [|exact E].
  split; [constructor|]. split; [intros e He|intros m t Hm]; by apply elem_of_nil in He || by apply elem_of_nil in Hm.
Qed.

Lemma entries_share_textures_witness :
  exists es,
    buildEntries shared_doc basecolor sample_opts ∅ (doc_materials shared_doc) [] = Ok es /\
    length es = 1%nat /\ entries_cover shared_doc basecolor (doc_materials shared_doc) es.
Proof.
  eexists. split; [vm_compute; reflexivity|]. split; [reflexivity|].
  apply (entries_share_textures shared_doc basecolor sample_opts ∅). vm_compute. reflexivity.
Defined.

Section Passes.

Variable P : Z -> Z -> list PackItem -> list Bin.

Lemma atlasMap_untextured doc areas opts map reuse :
  untextured doc map -> atlasMap P doc areas opts map reuse = Ok None.
Proof.
  intros Hnone. unfold atlasMap.
  rewrite buildEntries_untextured by exact Hnone. reflexivity.
Qed.

Lemma reuse_passes_untextured doc areas opts canonical reuse map : forall maps,
  map ∈ maps -> map <> canonical -> untextured doc map ->
  fails (reuse_passes P doc areas opts canonical reuse maps).
Proof.
  induction maps as [|m maps IH]; intros Hin Hne Hnone; [by apply elem_of_nil in Hin|].
  cbn [reuse_passes]. destruct (decide (m = canonical)) as [->|Hm].
  - apply IH; [|done..]. apply elem_of_cons in Hin as [->|]; [done | assumption].
  - destruct (decide (m = map)) as [->|Hmm].
    + by rewrite atlasMap_untextured.
    + apply elem_of_cons in Hin as [->|Hin]; [done|]. specialize (IH Hin Hne Hnone).
      destruct (atlasMap P doc areas opts m (Some reuse)) as [[pass|]| |]; cbn; [|done..].
      by destruct (reuse_passes P doc areas opts canonical reuse maps).
Qed.

(** X11. A requested channel that no material of the document has an image for
    makes [processAtlas] fail: the run does not return. *)
Theorem missing_channel_fails doc areas opts validMaps map :
  map ∈ validMaps -> untextured doc map ->
  fails (processAtlas P doc areas opts validMaps).
Proof.
  intros Hin Hnone. unfold processAtlas.
  destruct (canonicalMap validMaps) as [canonical|] eqn:Ec.
  - destruct (decide (map = canonical)) as [<-|Hne].
    + by rewrite atlasMap_untextured.
    + destruct (atlasMap P doc areas opts canonical None) as [[pass|]| |]; cbn; [|done..].
      pose proof (reuse_passes_untextured doc areas opts canonical
        (mkReuseRects (default [] (la_rects <$> head (pass_atlases pass)))
           ((fun a => (la_width a, la_height a)) <$> head (pass_atlases pass)))
        map validMaps Hin Hne Hnone) as Hf.
      by destruct (reuse_passes _ _ _ _ _ _ _).
  - unfold canonicalMap in Ec. destruct (bool_decide _); [discriminate|].
    destruct validMaps; [by apply elem_of_nil in Hin | discriminate].
Qed.

Lemma reuse_passes_maps doc areas opts canonical reuse : forall maps others,
  reuse_passes P doc areas opts canonical reuse maps = Ok others ->
  fst <$> others = filter (fun m => m <> canonical) maps.
Proof.
  induction maps as [|m maps IH]; intros others E; cbn [reuse_passes] in E.
  - by injection E as <-.
  - destruct (decide (m = canonical)) as [->|Hm].
    + rewrite filter_cons_False by (intros H; by apply H). by apply IH.
    + rewrite filter_cons_True by done.
      apply bind_Ok in E as [[pass|] [_ E]]; [|discriminate].
      apply bind_Ok in E as [rest [Er E]]. injection E as <-.
      cbn. f_equal. by apply IH.
Qed.

(** X12. The passes of a run that returns: the canonical channel first (basecolor
    when requested, else the first requested), then the other requested
    channels in the order they were asked for. *)
Theorem passes_follow_request doc areas opts validMaps passes :
  processAtlas P doc areas opts validMaps = Ok passes ->
  fst <$> passes =
  match validMaps with
  | [] => []
  | first :: _ =>
      let canonical := if bool_decide (basecolor ∈ validMaps) then basecolor else first in
      canonical :: filter (fun m => m <> canonical) validMaps
  end.
Proof.
  unfold processAtlas, canonicalMap. intros E.
  destruct validMaps as [|first rest].
  { rewrite bool_decide_eq_false_2 in E by apply not_elem_of_nil.
    by injection E as <-. }
  cbn [head] in E. cbn zeta.
  assert ((if bool_decide (basecolor ∈ first :: rest) then Some basecolor else Some first)
          = Some (if bool_decide (basecolor ∈ first :: rest) then basecolor else first))
    as Hc by (by destruct (bool_decide _)).
  rewrite Hc in E. clear Hc.
  set (canonical := if bool_decide (basecolor ∈ first :: rest) then basecolor else first) in *.
  apply bind_Ok in E as [[pass|] [_ E]]; [|discriminate].
  apply bind_Ok in E as [others [Eo E]]. injection E as <-.
  cbn [fmap list_fmap fst]. f_equal. by eapply reuse_passes_maps.
Qed.

End Passes.

Lemma emissive_untextured : untextured pair_doc emissive.
Proof. intros mat tex _ H. discriminate H. Qed.

Lemma missing_channel_fails_witness :
  emissive ∈ [basecolor; emissive] /\ untextured pair_doc emissive /\
  fails (processAtlas shelf_packer pair_doc ∅ sample_opts [basecolor; emissive]).
Proof.
  assert (emissive ∈ [basecolor; emissive]) as Hin.
  { apply list_elem_of_further, list_elem_of_here. }
  split; [exact Hin|]. split; [exact emissive_untextured|].
  apply (missing_channel_fails shelf_packer pair_doc ∅ sample_opts [basecolor; emissive]
           emissive Hin emissive_untextured).
Defined.

Lemma passes_follow_request_witness :
  processAtlas shelf_packer pair_doc ∅ sample_opts [basecolor; normal] =
    Ok [(basecolor, pass_of pair_run 0); (normal, pass_of pair_run 1)] /\
  fst <$> [(basecolor, pass_of pair_run 0); (normal, pass_of pair_run 1)] =
    [basecolor; normal].
Proof.
  split; [exact AtlasProps.pair_run_passes|].
  apply (passes_follow_request shelf_packer pair_doc ∅ sample_opts [basecolor; normal]
           _ AtlasProps.pair_run_passes).
Defined.

End AtlasMore.

(** ** UV Remapper: the two remaps, the next texcoord set *)

Module RemapMore.
Import Pow2 Atlas Remap Predicates RemapSpec BasicFacts ArrayFacts Samples MoreSamples.

Lemma inject_Z_nonzero z : z <> 0 -> ~ (inject_Z z == 0)%Q.
Proof.
  intros Hz H. apply Hz. change 0%Q with (inject_Z 0) in H.
  apply inject_Z_injective. exact H.
Qed.

(** The two remaps are the same rational function of a coordinate. *)
Lemma remap_orders_agree rect size arr :
  size <> 0 ->
  Forall2 num_equiv (remapUVsInPlace arr rect size) (remap_uv rect size size arr).
Proof.
  intros Hs. unfold remapUVsInPlace, remap_uv.
  destruct (Z.eqb_spec size 0) as [|_]; [contradiction|].
  pose proof (inject_Z_nonzero size Hs) as Hq.
  assert (Hone : forall (a w : Z) (u : num),
    num_equiv ((of_Z a + u * of_Z w) * Fin (1 / inject_Z size))%num
              (u * Fin (inject_Z w / inject_Z size) + Fin (inject_Z a / inject_Z size))%num).
  { intros a w [u|]; [|exact I]. cbn -[Qmult Qplus Qdiv]. field. exact Hq. }
  remember (length arr) as n eqn:En. revert arr En.
  induction (lt_wf n) as [n _ IH]. intros arr En.
  destruct arr as [|u [|v rest]]; cbn [worker_loop remap_loop].
  - constructor.
  - constructor; [apply Hone | constructor].
  - constructor; [apply Hone|]. constructor; [apply Hone|].
    apply (IH (length rest)); [subst n; cbn; lia | reflexivity].
Qed.

(** X13. On a square atlas whose side is a power of two up to 2^30, as the
    sides of the library's atlases are, and for a rect that lies in it, the
    worker's [remapUVsInPlace] and the remap loop of the library compute the
    same coordinates. Dividing by a power of two is exact in binary floating
    point, so the two orders of the operations round alike. *)
Theorem worker_remap_agrees rect size arr :
  is_pow2 size -> size <= 1073741824 -> rect_within size rect ->
  Forall2 num_equiv (remapUVsInPlace arr rect size) (remap_uv rect size size arr).
Proof.
  intros [k [Hk ->]] _ _. apply remap_orders_agree.
  pose proof (Z.pow_pos_nonneg 2 k). lia.
Qed.

Lemma worker_remap_agrees_witness :
  is_pow2 1024 /\ 1024 <= 1073741824 /\ rect_within 1024 quarter /\
  Forall2 num_equiv (remapUVsInPlace [Fin 1; Fin 1] quarter 1024)
                    (remap_uv quarter 1024 1024 [Fin 1; Fin 1]).
Proof.
  assert (is_pow2 1024) as Hp by (exists 10; split; [lia | reflexivity]).
  assert (rect_within 1024 quarter) as Hr by (unfold rect_within; cbn; lia).
  split; [exact Hp|]. split; [lia|]. split; [exact Hr|].
  apply (worker_remap_agrees quarter 1024 [Fin 1; Fin 1] Hp); [lia | exact Hr].
Defined.

Lemma next_index_fold (attrs : list (Semantic * Accessor)) : forall start,
  -1 <= start ->
  let max :=
    fold_left
      (fun max attr =>
         match texcoord_of_name (acc_name (snd attr)) with
         | Some idx => Z.max max (Z.of_nat idx)
         | None => max
         end) attrs start in
  start <= max /\
  (forall sa idx, sa ∈ attrs -> texcoord_of_name (acc_name sa.2) = Some idx ->
     Z.of_nat idx <= max) /\
  ((forall sa, sa ∈ attrs -> texcoord_of_name (acc_name sa.2) = None) -> max = start).
Proof.
  induction attrs as [|a attrs IH]; intros start Hs; cbn [fold_left].
  - split; [lia|]. split; [intros sa idx H; by apply elem_of_nil in H | done].
  - set (start' := match texcoord_of_name (acc_name a.2) with
                   | Some idx => Z.max start (Z.of_nat idx)
                   | None => start
                   end).
    assert (start <= start') as Hle by (subst start'; destruct (texcoord_of_name _); lia).
    destruct (IH start' ltac:(lia)) as [H1 [H2 H3]]. cbn zeta in *.
    split; [lia|]. split.
    + intros sa idx Hin E. apply elem_of_cons in Hin as [->|Hin]; [|by eapply H2].
      subst start'. rewrite E in H1 |- *. lia.
    + intros Hnone. rewrite H3.
      * subst start'. rewrite (Hnone a) by apply list_elem_of_here. reflexivity.
      * intros sa Hin. apply Hnone. by apply list_elem_of_further.
Qed.

(** X14. [nextTexcoordIndex] counts from the names of the accessors, not from the
    semantics: when no accessor is named TEXCOORD_n it answers 0, whatever
    texcoord sets the primitive has. *)
Theorem next_texcoord_reads_accessor_names prim :
  (forall sa, sa ∈ attributes prim -> texcoord_of_name (acc_name sa.2) = None) ->
  nextTexcoordIndex prim = 0%nat.
Proof.
  unfold nextTexcoordIndex.
  destruct (next_index_fold (attributes prim) (-1) ltac:(lia)) as [_ [_ H3]].
  cbn zeta in *. intros Hnone. rewrite (H3 Hnone). reflexivity.
Qed.

Lemma next_texcoord_reads_accessor_names_witness :
  (forall sa, sa ∈ attributes uv_prim -> texcoord_of_name (acc_name sa.2) = None) /\
  is_Some (getAttribute uv_prim (TEXCOORD 0)) /\
  is_Some (getAttribute uv_prim (TEXCOORD 1)) /\
  nextTexcoordIndex uv_prim = 0%nat.
Proof.
  assert (forall sa, sa ∈ attributes uv_prim -> texcoord_of_name (acc_name sa.2) = None)
    as Hnone.
  { intros sa Hin. apply elem_of_cons in Hin as [->|Hin]; [reflexivity|].
    apply elem_of_cons in Hin as [->|Hin]; [reflexivity | by apply elem_of_nil in Hin]. }
  split; [exact Hnone|]. split; [by eexists|]. split; [by eexists|].
  apply (next_texcoord_reads_accessor_names uv_prim Hnone).
Defined.

End RemapMore.

(** ** Primitive Merger: what the merged primitive holds *)

Module MergerFacts.
Import Merger MergerSpec BasicFacts ArrayFacts Samples MoreSamples.

Lemma addVec3_whole : forall array,
  (length array mod 3 = 0)%nat -> addVec3 array = array.
Proof.
  apply whole3_ind; [reflexivity|].
  intros x y z rest IH. cbn [addVec3]. by rewrite IH.
Qed.

Lemma addVec3_nonempty array : array <> [] -> addVec3 array <> [].
Proof. by destruct array as [|x [|y [|z rest]]]. Qed.

(** The copy of an array starts with the array. *)
Lemma addVec3_prefix : forall array, exists pad, addVec3 array = array ++ pad.
Proof.
  intros array. remember (length array) as n eqn:En. revert array En.
  induction (lt_wf n) as [n _ IH]. intros array En.
  destruct array as [|x [|y [|z rest]]].
  - by exists [].
  - by exists [NaN; NaN].
  - by exists [NaN].
  - destruct (IH (length rest)) with (array := rest) as [pad E];
      [subst n; cbn; lia | reflexivity |].
    exists pad. cbn [addVec3]. by rewrite E.
Qed.

Lemma addVec3_length_mono : forall a b,
  (length a <= length b)%nat -> (length (addVec3 a) <= length (addVec3 b))%nat.
Proof.
  intros a. remember (length a) as n eqn:En. revert a En.
  induction (lt_wf n) as [n _ IH]. intros a En b Hab.
  destruct a as [|x [|y [|z rest]]]; [cbn; lia | | |].
  - destruct b as [|? [|? [|? ?]]]; cbn in *; lia.
  - destruct b as [|? [|? [|? ?]]]; cbn in *; lia.
  - destruct b as [|x' [|y' [|z' rest']]]; subst n; cbn in Hab; try lia.
    cbn [addVec3 length].
    pose proof (IH (length rest) ltac:(cbn; lia) rest eq_refl rest' ltac:(lia)). lia.
Qed.

Lemma upto_nonempty n : 1 <= n -> upto n <> [].
Proof.
  intros Hn. unfold upto. destruct (Z.to_nat n) as [|k] eqn:E; [lia | done].
Qed.

(** The running arrays only grow. *)
Lemma collect_step_grows c prim :
  exists ps ns is_,
    positions (collect_step c prim) = positions c ++ ps /\
    normals (collect_step c prim) = normals c ++ ns /\
    merged_indices (collect_step c prim) = merged_indices c ++ is_.
Proof.
  unfold collect_step. destruct (getAttribute prim POSITION) as [pos|].
  - cbn. destruct (getAttribute prim NORMAL); cbn; eexists _, _, _;
      (split; [reflexivity|]); (split; [|reflexivity]);
      [reflexivity | by rewrite app_nil_r].
  - exists [], [], []. by rewrite !app_nil_r.
Qed.

Lemma collect_grows : forall prims c,
  exists ps ns is_,
    positions (fold_left collect_step prims c) = positions c ++ ps /\
    normals (fold_left collect_step prims c) = normals c ++ ns /\
    merged_indices (fold_left collect_step prims c) = merged_indices c ++ is_.
Proof.
  induction prims as [|p prims IH]; intros c; cbn [fold_left].
  - exists [], [], []. by rewrite !app_nil_r.
  - destruct (IH (collect_step c p)) as [ps [ns [is_ [E1 [E2 E3]]]]].
    destruct (collect_step_grows c p) as [ps' [ns' [is' [F1 [F2 F3]]]]].
    exists (ps' ++ ps), (ns' ++ ns), (is' ++ is_).
    rewrite E1, E2, E3, F1, F2, F3. by rewrite !app_assoc.
Qed.

Lemma contributes_step c prim :
  contributes prim ->
  positions (collect_step c prim) <> [] /\ merged_indices (collect_step c prim) <> [].
Proof.
  intros [pos [E [Hpos Hidx]]]. unfold collect_step. rewrite E. cbn. split.
  - intros H. apply app_eq_nil in H as [_ H]. by apply addVec3_nonempty in H.
  - intros H. apply app_eq_nil in H as [_ H].
    destruct (indices prim) as [idx|].
    + by destruct (index_values idx).
    + apply fmap_nil_inv in H. by apply upto_nonempty in H.
Qed.

Lemma collect_contributes prims q :
  q ∈ prims -> contributes q ->
  positions (collect prims) <> [] /\ merged_indices (collect prims) <> [].
Proof.
  intros Hin Hq. apply list_elem_of_split in Hin as [before [after ->]].
  unfold collect. rewrite fold_left_app. cbn [fold_left].
  destruct (contributes_step (fold_left collect_step before collect_start) q Hq)
    as [Hp Hi].
  destruct (collect_grows after
              (collect_step (fold_left collect_step before collect_start) q))
    as [ps [ns [is_ [-> [_ ->]]]]].
  split; intros H; apply app_eq_nil in H as [H _]; contradiction.
Qed.

(** A mesh with a contributing primitive ends as one primitive. *)
Lemma merge_yields_one_primitive prims q :
  q ∈ prims -> contributes q -> length (mergePrimitivesIntoOne prims) = 1%nat.
Proof.
  intros Hin Hq. unfold mergePrimitivesIntoOne.
  destruct (Nat.leb_spec (length prims) 1) as [Hle|Hgt].
  - destruct prims as [|p [|p' rest]]; [by apply elem_of_nil in Hin | done | cbn in Hle; lia].
  - destruct (collect_contributes prims q Hin Hq) as [Hp Hi].
    destruct (positions (collect prims)); [done|].
    destruct (merged_indices (collect prims)); [done|]. reflexivity.
Qed.

(** The index base counts the vertex slots filled so far. *)
Lemma collect_step_base c prim :
  whole_position prim ->
  3 * indexBase c = Z.of_nat (length (positions c)) ->
  3 * indexBase (collect_step c prim) = Z.of_nat (length (positions (collect_step c prim))).
Proof.
  intros Hw Hc. unfold collect_step.
  destruct (getAttribute prim POSITION) as [pos|] eqn:E; [|exact Hc].
  destruct (Hw pos E) as [Ht Hmod]. cbn.
  rewrite addVec3_whole by exact Hmod. rewrite length_app, Nat2Z.inj_add.
  unfold getCount. rewrite Ht. cbn [getElementSize].
  assert (Z.of_nat (length (acc_array pos)) mod 3 = 0) as Hz.
  { change 3 with (Z.of_nat 3). rewrite <- Nat2Z.inj_mod, Hmod. reflexivity. }
  pose proof (Z.div_mod (Z.of_nat (length (acc_array pos))) 3 ltac:(lia)).
  change (Z.of_nat 3) with 3. lia.
Qed.

Lemma collect_base : forall prims c,
  Forall whole_position prims ->
  3 * indexBase c = Z.of_nat (length (positions c)) ->
  3 * indexBase (fold_left collect_step prims c) =
    Z.of_nat (length (positions (fold_left collect_step prims c))).
Proof.
  induction prims as [|p prims IH]; intros c Hw Hc; cbn [fold_left]; [exact Hc|].
  apply Forall_cons in Hw as [Hp Hw]. apply IH; [exact Hw|]. by apply collect_step_base.
Qed.

Lemma collect_split before prim after :
  collect (before ++ prim :: after) =
  fold_left collect_step after (collect_step (collect before) prim).
Proof. unfold collect. by rewrite fold_left_app. Qed.

(** Where the running arrays keep the vertices and the indices of a
    primitive that follows primitives with whole positions. *)
Lemma collect_rebases before prim after pos :
  Forall whole_position before -> getAttribute prim POSITION = Some pos ->
  let base := indexBase (collect before) in
  let c := collect (before ++ prim :: after) in
  base = total_vertex_count before /\
  3 * base = Z.of_nat (length (positions (collect before))) /\
  (forall i, (i < length (acc_array pos))%nat ->
     nth (length (positions (collect before)) + i) (positions c) NaN =
     nth i (acc_array pos) NaN) /\
  exists rest,
    merged_indices c =
    merged_indices (collect before) ++ map (fun v => v + base) (own_indices prim pos) ++ rest.
Proof.
  intros Hw E base c. split; [reflexivity|]. split.
  { apply collect_base; [exact Hw | reflexivity]. }
  subst c. rewrite collect_split.
  destruct (collect_grows after (collect_step (collect before) prim))
    as [ps [ns [is_ [-> [_ ->]]]]].
  unfold collect_step. rewrite E. cbn. split.
  - intros i Hi. destruct (addVec3_prefix (acc_array pos)) as [pad ->].
    rewrite <- !app_assoc. rewrite app_nth2_plus. by rewrite app_nth1.
  - exists is_. rewrite <- app_assoc. f_equal. f_equal. unfold own_indices.
    by destruct (indices prim).
Qed.

Lemma set_if_other cond s t type arr p :
  s <> t -> getAttribute (set_if cond s type arr p) t = getAttribute p t.
Proof.
  intros Hne. unfold set_if. destruct cond; [|reflexivity]. by apply lookup_set_attr_ne.
Qed.

Lemma index_accessor_values l :
  index_values (index_accessor l) =
  (fun z => z mod (if is_32bit (index_accessor l) then 4294967296 else 65536)) <$> l.
Proof. unfold index_accessor. by destruct (65535 <? Z.of_nat (length l)). Qed.

(** X15. In a merge of two or more primitives, vertex [i] of a contributing
    primitive sits at slot [base + i] of the merged POSITION array and its
    index [v] is stored as [v + base], reduced to the index width, where
    [base] counts the vertices of the primitives before it (whose POSITION
    arrays hold whole VEC3 elements). *)
Theorem merge_rebases_indices before prim after pos :
  Forall whole_position before -> getAttribute prim POSITION = Some pos ->
  contributes prim -> (1 <= length before + length after)%nat ->
  let base := total_vertex_count before in
  exists merged mpos midx,
    mergePrimitivesIntoOne (before ++ prim :: after) = [merged] /\
    getAttribute merged POSITION = Some mpos /\ indices merged = Some midx /\
    0 <= base /\
    (forall i, (i < length (acc_array pos))%nat ->
       nth (Z.to_nat (3 * base) + i) (acc_array mpos) NaN = nth i (acc_array pos) NaN) /\
    (forall k v, own_indices prim pos !! k = Some v ->
       index_values midx !! (length (merged_indices (collect before)) + k)%nat =
       Some ((v + base) mod (if is_32bit midx then 4294967296 else 65536))).
Proof.
  intros Hw E Hq Hlen base.
  destruct (collect_rebases before prim after pos Hw E) as [_ [Hbase [Hpos [rest Hidx]]]].
  assert (Hin : prim ∈ before ++ prim :: after).
  { apply elem_of_app. right. apply list_elem_of_here. }
  destruct (collect_contributes _ prim Hin Hq) as [Hp Hi].
  unfold mergePrimitivesIntoOne.
  destruct (Nat.leb_spec (length (before ++ prim :: after)) 1) as [Hle|_].
  { rewrite length_app in Hle. cbn in Hle. lia. }
  destruct (positions (collect (before ++ prim :: after))) as [|x ps] eqn:Eps; [done|].
  destruct (merged_indices (collect (before ++ prim :: after))) as [|j js] eqn:Eis; [done|].
  cbn [length Nat.eqb orb].
  eexists _, (createAccessor VEC3 (x :: ps)), _. split; [reflexivity|].
  split.
  { unfold build_merged. cbn [attributes]. unfold getAttribute. cbn [attributes].
    change (lookup_attr ?s (attributes ?p)) with (getAttribute p s).
    rewrite !set_if_other by done. rewrite Eps. by rewrite getAttribute_set_eq. }
  split; [reflexivity|].
  unfold base, total_vertex_count. split; [lia|]. split.
  - intros i Hi'. cbn [createAccessor acc_array]. rewrite Hbase, Nat2Z.id.
    by apply Hpos.
  - intros k v Hk. rewrite index_accessor_values, Eis, Hidx.
    rewrite list_lookup_fmap, lookup_app_r by lia.
    replace (length (merged_indices (collect before)) + k
             - length (merged_indices (collect before)))%nat with k by lia.
    rewrite lookup_app_l.
    + rewrite list_lookup_fmap, Hk. reflexivity.
    + rewrite length_fmap. by eapply lookup_lt_Some.
Qed.

Lemma small_prim_contributes : contributes small_prim.
Proof.
  exists (flat_positions 3). split; [reflexivity|]. split; [discriminate|]. discriminate.
Qed.

Lemma merge_rebases_indices_witness :
  Forall whole_position [small_prim] /\
  getAttribute small_prim POSITION = Some (flat_positions 3) /\
  contributes small_prim /\ (1 <= length [small_prim] + length (@nil Primitive))%nat /\
  exists merged mpos midx,
    mergePrimitivesIntoOne ([small_prim] ++ small_prim :: []) = [merged] /\
    getAttribute merged POSITION = Some mpos /\ indices merged = Some midx /\
    0 <= total_vertex_count [small_prim] /\
    (forall i, (i < length (acc_array (flat_positions 3)))%nat ->
       nth (Z.to_nat (3 * total_vertex_count [small_prim]) + i) (acc_array mpos) NaN =
       nth i (acc_array (flat_positions 3)) NaN) /\
    (forall k v, own_indices small_prim (flat_positions 3) !! k = Some v ->
       index_values midx !! (length (merged_indices (collect [small_prim])) + k)%nat =
       Some ((v + total_vertex_count [small_prim])
             mod (if is_32bit midx then 4294967296 else 65536))).
Proof.
  assert (Forall whole_position [small_prim]) as Hw.
  { constructor; [|constructor]. intros pos E. injection E as <-. split; reflexivity. }
  split; [exact Hw|]. split; [reflexivity|]. split; [exact small_prim_contributes|].
  split; [cbn; lia|].
  apply (merge_rebases_indices [small_prim] small_prim [] (flat_positions 3) Hw eq_refl
           small_prim_contributes).
  cbn. lia.
Defined.

Lemma collect_normals_short : forall prims c,
  Forall normals_fit prims ->
  (length (normals c) <= length (positions c))%nat ->
  (length (normals (fold_left collect_step prims c))
   <= length (positions (fold_left collect_step prims c)))%nat.
Proof.
  induction prims as [|p prims IH]; intros c Hf Hc; cbn [fold_left]; [exact Hc|].
  apply Forall_cons in Hf as [Hp Hf]. apply IH; [exact Hf|].
  unfold collect_step. destruct (getAttribute p POSITION) as [pos|] eqn:E; [|exact Hc].
  cbn. destruct (getAttribute p NORMAL) as [norm|] eqn:En; cbn.
  - rewrite !length_app. pose proof (addVec3_length_mono _ _ (Hp pos norm E En)). lia.
  - rewrite length_app. lia.
Qed.

Lemma collect_normals_missing before q after :
  Forall normals_fit (before ++ q :: after) -> contributes q ->
  getAttribute q NORMAL = None ->
  (length (normals (collect (before ++ q :: after)))
   < length (positions (collect (before ++ q :: after))))%nat.
Proof.
  intros Hf [pos [E [Hpos _]]] En.
  apply Forall_app in Hf as [Hb Hf]. apply Forall_cons in Hf as [_ Ha].
  unfold collect. rewrite fold_left_app. cbn [fold_left].
  pose proof (collect_normals_short before collect_start Hb ltac:(cbn; lia)) as Hbefore.
  set (c0 := fold_left collect_step before collect_start) in *.
  assert (Hq : (length (normals (collect_step c0 q))
                < length (positions (collect_step c0 q)))%nat).
  { unfold collect_step. rewrite E, En. cbn. rewrite length_app.
    pose proof (addVec3_nonempty _ Hpos). destruct (addVec3 (acc_array pos)); [done|].
    cbn. lia. }
  revert Hq. generalize (collect_step c0 q) as c1. clear - Ha.
  induction after as [|p after IH]; intros c1 Hq; cbn [fold_left]; [exact Hq|].
  apply Forall_cons in Ha as [Hp Ha]. apply IH; [exact Ha|].
  unfold collect_step. destruct (getAttribute p POSITION) as [pos|] eqn:E; [|exact Hq].
  cbn. destruct (getAttribute p NORMAL) as [norm|] eqn:En; cbn.
  - rewrite !length_app. pose proof (addVec3_length_mono _ _ (Hp pos norm E En)). lia.
  - rewrite length_app. lia.
Qed.

(** X16. One contributing primitive without NORMAL strips the normals of the
    whole merged primitive, which still has its positions (no NORMAL array
    being longer than its POSITION array). *)
Theorem merge_drops_partial_normals prims q :
  (2 <= length prims)%nat -> q ∈ prims -> contributes q ->
  getAttribute q NORMAL = None -> Forall normals_fit prims ->
  exists merged, mergePrimitivesIntoOne prims = [merged] /\
                 getAttribute merged NORMAL = None /\
                 is_Some (getAttribute merged POSITION).
Proof.
  intros Hlen Hin Hq En Hf. unfold mergePrimitivesIntoOne.
  destruct (Nat.leb_spec (length prims) 1) as [Hle|_]; [lia|].
  destruct (collect_contributes prims q Hin Hq) as [Hp Hi].
  assert (Hshort : (length (normals (collect prims))
                    < length (positions (collect prims)))%nat).
  { apply list_elem_of_split in Hin as [before [after ->]].
    by apply collect_normals_missing. }
  destruct (positions (collect prims)) as [|x ps] eqn:Eps; [done|].
  destruct (merged_indices (collect prims)) as [|i is_] eqn:Eis; [done|].
  cbn [length Nat.eqb orb]. eexists. split; [reflexivity|].
  unfold build_merged. cbn [attributes]. unfold getAttribute. cbn [attributes].
  change (lookup_attr ?s (attributes ?p)) with (getAttribute p s).
  rewrite Eps. split.
  - rewrite !set_if_other by done.
    unfold set_if. rewrite (proj2 (Nat.eqb_neq _ _)) by lia.
    reflexivity.
  - rewrite !set_if_other by done. by rewrite getAttribute_set_eq.
Qed.

Lemma merge_drops_partial_normals_witness :
  (2 <= length [lit_prim; small_prim])%nat /\ small_prim ∈ [lit_prim; small_prim] /\
  contributes small_prim /\ getAttribute small_prim NORMAL = None /\
  is_Some (getAttribute lit_prim NORMAL) /\
  Forall normals_fit [lit_prim; small_prim] /\
  exists merged, mergePrimitivesIntoOne [lit_prim; small_prim] = [merged] /\
                 getAttribute merged NORMAL = None /\
                 is_Some (getAttribute merged POSITION).
Proof.
  assert (small_prim ∈ [lit_prim; small_prim]) as Hin.
  { apply list_elem_of_further, list_elem_of_here. }
  assert (Forall normals_fit [lit_prim; small_prim]) as Hfit.
  { constructor; [|constructor; [|constructor]].
    - intros pos norm Ep En. injection Ep as <-. injection En as <-. cbn. lia.
    - intros pos norm _ En. discriminate En. }
  split; [cbn; lia|]. split; [exact Hin|]. split; [exact small_prim_contributes|].
  split; [reflexivity|]. split; [by eexists|]. split; [exact Hfit|].
  apply (merge_drops_partial_normals [lit_prim; small_prim] small_prim);
    [cbn; lia | exact Hin | exact small_prim_contributes | reflexivity | exact Hfit].
Defined.

(** X17. A mesh none of whose primitives has POSITION is left as it is. *)
Theorem merge_without_positions prims :
  (forall p, p ∈ prims -> getAttribute p POSITION = None) ->
  mergePrimitivesIntoOne prims = prims.
Proof.
  intros Hnone. unfold mergePrimitivesIntoOne.
  destruct (length prims <=? 1)%nat; [reflexivity|].
  assert (collect prims = collect_start) as ->; [|reflexivity].
  unfold collect. generalize collect_start as c.
  induction prims as [|p prims IH]; intros c; cbn [fold_left]; [reflexivity|].
  unfold collect_step at 2. rewrite (Hnone p) by apply list_elem_of_here.
  apply IH. intros p' Hp'. apply Hnone. by apply list_elem_of_further.
Qed.

Lemma merge_without_positions_witness :
  (forall p, p ∈ [no_position; no_position] -> getAttribute p POSITION = None) /\
  mergePrimitivesIntoOne [no_position; no_position] = [no_position; no_position].
Proof.
  assert (forall p, p ∈ [no_position; no_position] -> getAttribute p POSITION = None)
    as Hnone.
  { intros p Hin. apply elem_of_cons in Hin as [->|Hin]; [reflexivity|].
    apply elem_of_cons in Hin as [->|Hin]; [reflexivity | by apply elem_of_nil in Hin]. }
  split; [exact Hnone | apply (merge_without_positions _ Hnone)].
Defined.

End MergerFacts.

(** ** Geometry Baker: matrices, accessors, nodes *)

Module BakerProps.
Import Geometry Merger Baker MergerSpec BakerSpec Predicates BasicFacts ArrayFacts MergerFacts.
Import Samples MoreSamples.

Ltac mat16 H :=
  let qs := fresh "qs" in
  destruct H as [qs [Hlen ->]];
  do 16 (destruct qs as [|? qs]; [discriminate Hlen|]);
  destruct qs; [clear Hlen|discriminate Hlen].

Ltac vec3 H :=
  let x := fresh "x" in let y := fresh "y" in let z := fresh "z" in
  destruct H as [x [y [z ->]]].

Lemma finite_mat4_of_Z (l : list Z) : length l = 16%nat -> finite_mat4 (of_Z <$> l).
Proof.
  intros Hl. exists (inject_Z <$> l). split; [by rewrite length_fmap|].
  by rewrite <- list_fmap_compose.
Qed.

Lemma affine_of_Z (l : list Z) :
  nth 3 l 1 = 0 -> nth 7 l 1 = 0 -> nth 11 l 1 = 0 -> nth 15 l 0 = 1 ->
  length l = 16%nat -> affine (of_Z <$> l).
Proof.
  intros H3 H7 H11 H15 Hl.
  do 16 (destruct l as [|? l]; [discriminate Hl|]).
  cbn in H3, H7, H11, H15. subst. repeat split; reflexivity.
Qed.

Lemma small_mat4_finite m : small_mat4 m -> finite_mat4 m.
Proof.
  intros [zs [Hl [-> _]]]. exists (inject_Z <$> zs).
  split; [by rewrite length_fmap | by rewrite <- list_fmap_compose].
Qed.

Lemma small_vec_finite v : small_vec v -> finite_vec v.
Proof. intros [x [y [z [-> _]]]]. by eexists _, _, _. Qed.

Lemma small_mat4_of_Z (l : list Z) :
  length l = 16%nat -> Forall (fun z => -1024 <= z <= 1024) l -> small_mat4 (of_Z <$> l).
Proof. intros Hl Hb. by exists l. Qed.

Lemma unimodular_not_falsy d : unimodular d -> falsy d = false.
Proof.
  intros [H|H]; destruct d as [q|]; try contradiction; cbn in H |- *;
    apply not_true_is_false; intros E; apply Qeq_bool_iff in E; rewrite E in H;
    discriminate H.
Qed.

(** An affine matrix moves a point without a perspective divide. *)
Lemma transformPoint_affine m x y z :
  finite_mat4 m -> affine m ->
  exists qs, m = Fin <$> qs /\ length qs = 16%nat /\
  transformPoint m (Fin x, Fin y, Fin z) =
    (Fin (nth 0 qs 0 * x + nth 4 qs 0 * y + nth 8 qs 0 * z + nth 12 qs 0)%Q,
     Fin (nth 1 qs 0 * x + nth 5 qs 0 * y + nth 9 qs 0 * z + nth 13 qs 0)%Q,
     Fin (nth 2 qs 0 * x + nth 6 qs 0 * y + nth 10 qs 0 * z + nth 14 qs 0)%Q).
Proof.
  intros Hm [H3 [H7 [H11 H15]]]. mat16 Hm.
  eexists. split; [reflexivity|]. split; [reflexivity|].
  cbn in H3, H7, H11, H15. cbn -[Qeq_bool Qmult Qplus Qdiv].
  rewrite (Qeq_bool_true _ 1); [|rewrite H3, H7, H11, H15; ring].
  rewrite andb_false_r. reflexivity.
Qed.

(** For affine matrices the product moves a point as its factors do in turn. *)
Lemma multiplyMat4_composes a b v :
  finite_mat4 a -> finite_mat4 b -> affine a -> affine b -> finite_vec v ->
  vec_equiv (transformPoint (multiplyMat4 a b) v)
            (transformPoint a (transformPoint b v)).
Proof.
  intros Ha Hb Aa Ab Hv. vec3 Hv.
  destruct (transformPoint_affine b x y z Hb Ab) as [qb [-> [Lb ->]]].
  destruct (transformPoint_affine a
              (nth 0 qb 0 * x + nth 4 qb 0 * y + nth 8 qb 0 * z + nth 12 qb 0)%Q
              (nth 1 qb 0 * x + nth 5 qb 0 * y + nth 9 qb 0 * z + nth 13 qb 0)%Q
              (nth 2 qb 0 * x + nth 6 qb 0 * y + nth 10 qb 0 * z + nth 14 qb 0)%Q
              Ha Aa) as [qa [-> [La ->]]].
  destruct Aa as [A3 [A7 [A11 A15]]]. destruct Ab as [B3 [B7 [B11 B15]]].
  do 16 (destruct qa as [|? qa]; [discriminate La|]).
  destruct qa; [clear La|discriminate La].
  do 16 (destruct qb as [|? qb]; [discriminate Lb|]).
  destruct qb; [clear Lb|discriminate Lb].
  cbn in A3, A7, A11, A15, B3, B7, B11, B15.
  cbn -[Qeq_bool Qmult Qplus Qdiv].
  rewrite (Qeq_bool_true _ 1).
  2:{ rewrite A3, A7, A11, A15, B3, B7, B11, B15. ring. }
  rewrite andb_false_r. unfold vec_equiv, num_equiv. cbn -[Qmult Qplus].
  repeat split; rewrite B3, B7, B11, B15; ring.
Qed.

(** X18. [multiplyMat4] composes transforms: for affine matrices and a point
    of integers up to 1024, which the product and the points hold exactly,
    moving the point by [multiplyMat4(a, b)] is moving it by [b] and then by
    [a]. This is how the baker builds a world matrix from a parent and a
    local one. *)
Theorem world_matrix_composes a b v :
  small_mat4 a -> small_mat4 b -> affine a -> affine b -> small_vec v ->
  vec_equiv (transformPoint (multiplyMat4 a b) v)
            (transformPoint a (transformPoint b v)).
Proof.
  intros Ha Hb Aa Ab Hv.
  apply multiplyMat4_composes;
    [by apply small_mat4_finite | by apply small_mat4_finite | exact Aa | exact Ab
    | by apply small_vec_finite].
Qed.

Lemma world_matrix_composes_witness :
  small_mat4 shift_x /\ small_mat4 twice /\ affine shift_x /\ affine twice /\
  small_vec (of_Z 1, of_Z 1, of_Z 1) /\
  vec_equiv (transformPoint (multiplyMat4 shift_x twice) (of_Z 1, of_Z 1, of_Z 1))
            (transformPoint shift_x (transformPoint twice (of_Z 1, of_Z 1, of_Z 1))).
Proof.
  assert (small_mat4 shift_x) as Ha.
  { apply small_mat4_of_Z; [reflexivity | repeat constructor; lia]. }
  assert (small_mat4 twice) as Hb.
  { apply small_mat4_of_Z; [reflexivity | repeat constructor; lia]. }
  assert (affine shift_x) as Aa by (by apply affine_of_Z).
  assert (affine twice) as Ab by (by apply affine_of_Z).
  assert (small_vec (of_Z 1, of_Z 1, of_Z 1)) as Hv.
  { exists 1, 1, 1. split; [reflexivity | lia]. }
  repeat (split; [assumption|]).
  apply (world_matrix_composes shift_x twice (of_Z 1, of_Z 1, of_Z 1) Ha Hb Aa Ab Hv).
Defined.

(** Applied by [transformVector], the matrix [computeNormalMatrix] returns
    is the inverse of the upper-left block. *)
Lemma lib_normal_matrix_inverts m v :
  finite_mat4 m -> finite_vec v -> falsy (det3 m) = false ->
  vec_equiv (transformVector (computeNormalMatrix m) (linear_part m v)) v.
Proof.
  intros Hm Hv Hdet. mat16 Hm. vec3 Hv.
  cbn -[Qeq_bool Qmult Qplus Qdiv Qminus Qopp] in Hdet.
  unfold computeNormalMatrix, vec_equiv, transformVector, linear_part.
  cbn -[Qeq_bool Qmult Qplus Qdiv Qminus Qopp].
  rewrite Hdet. cbn -[Qeq_bool Qmult Qplus Qdiv Qminus Qopp].
  rewrite Hdet. cbn -[Qeq_bool Qmult Qplus Qdiv Qminus Qopp].
  apply Qeq_bool_false in Hdet. change (inject_Z 1) with 1%Q.
  repeat split; field; exact Hdet.
Qed.

(** X19. The matrix [computeNormalMatrix] of the library returns, applied by
    [transformVector], is the inverse of the upper-left 3x3 block, not its
    inverse transpose (the transposed load and the transposed store cancel):
    it takes a direction the matrix has moved back to where it was. Stated
    for matrices and directions of integers up to 1024 with a determinant of
    1 or -1 (quarter turns, mirrors, shears), on which every value the code
    forms is an integer it holds exactly. *)
Theorem normal_matrix_undoes_linear_part m v :
  small_mat4 m -> unimodular (det3 m) -> small_vec v ->
  vec_equiv (transformVector (computeNormalMatrix m) (linear_part m v)) v.
Proof.
  intros Hm Hdet Hv.
  apply lib_normal_matrix_inverts;
    [by apply small_mat4_finite | by apply small_vec_finite
    | by apply unimodular_not_falsy].
Qed.

Lemma normal_matrix_undoes_linear_part_witness :
  small_mat4 shear_xy /\ unimodular (det3 shear_xy) /\ small_vec (of_Z 0, of_Z 1, of_Z 0) /\
  linear_part shear_xy (of_Z 0, of_Z 1, of_Z 0) = (Fin 1, Fin 1, Fin 0) /\
  vec_equiv (transformVector (computeNormalMatrix shear_xy)
               (linear_part shear_xy (of_Z 0, of_Z 1, of_Z 0)))
            (of_Z 0, of_Z 1, of_Z 0).
Proof.
  assert (small_mat4 shear_xy) as Hm.
  { apply small_mat4_of_Z; [reflexivity | repeat constructor; lia]. }
  assert (unimodular (det3 shear_xy)) as Hd by (left; reflexivity).
  assert (small_vec (of_Z 0, of_Z 1, of_Z 0)) as Hv.
  { exists 0, 1, 0. split; [reflexivity | lia]. }
  split; [exact Hm|]. split; [exact Hd|]. split; [exact Hv|].
  split; [vm_compute; reflexivity|].
  apply (normal_matrix_undoes_linear_part shear_xy (of_Z 0, of_Z 1, of_Z 0) Hm Hd Hv).
Defined.

(** The same holds of the worker's matrix, in the worker's own terms. *)
Lemma worker_normal_matrix_inverts m v :
  finite_mat4 m -> finite_vec v -> falsy (worker_det3 m) = false ->
  vec_equiv
    (worker_transformVector (worker_transformVector v m) (worker_computeNormalMatrix m))
    v.
Proof.
  intros Hm Hv Hdet. mat16 Hm. vec3 Hv.
  cbn -[Qeq_bool Qmult Qplus Qdiv Qminus Qopp] in Hdet.
  apply Qeq_bool_false in Hdet.
  unfold worker_computeNormalMatrix, vec_equiv, worker_transformVector.
  cbn -[Qeq_bool Qmult Qplus Qdiv Qminus Qopp].
  match goal with |- context [Qeq_bool ?d 0] => destruct (Qeq_bool d 0) eqn:E end.
  { exfalso. apply Hdet. apply Qeq_bool_iff in E. rewrite <- E. ring. }
  cbn -[Qeq_bool Qmult Qplus Qdiv Qminus Qopp].
  apply Qeq_bool_false in E. change (inject_Z 1) with 1%Q. change (inject_Z 0) with 0%Q.
  repeat split; field; exact E.
Qed.

(** X20. The same holds in the worker: its [computeNormalMatrix], applied by
    its [transformVector], undoes what [transformVector] with the matrix
    itself does to a direction: it is the plain inverse too. Stated for
    matrices and directions of integers up to 1024 with a determinant of 1
    or -1, whose inverse the [Float32Array] of the worker holds exactly. *)
Theorem worker_normal_matrix_undoes_transform m v :
  small_mat4 m -> unimodular (worker_det3 m) -> small_vec v ->
  vec_equiv
    (worker_transformVector (worker_transformVector v m) (worker_computeNormalMatrix m))
    v.
Proof.
  intros Hm Hdet Hv.
  apply worker_normal_matrix_inverts;
    [by apply small_mat4_finite | by apply small_vec_finite
    | by apply unimodular_not_falsy].
Qed.

Lemma worker_normal_matrix_undoes_transform_witness :
  small_mat4 shear_xy /\ unimodular (worker_det3 shear_xy) /\
  small_vec (of_Z 0, of_Z 1, of_Z 0) /\
  worker_transformVector (of_Z 0, of_Z 1, of_Z 0) shear_xy = (Fin 1, Fin 1, Fin 0) /\
  vec_equiv
    (worker_transformVector (worker_transformVector (of_Z 0, of_Z 1, of_Z 0) shear_xy)
       (worker_computeNormalMatrix shear_xy))
    (of_Z 0, of_Z 1, of_Z 0).
Proof.
  assert (small_mat4 shear_xy) as Hm.
  { apply small_mat4_of_Z; [reflexivity | repeat constructor; lia]. }
  assert (unimodular (worker_det3 shear_xy)) as Hd by (left; reflexivity).
  assert (small_vec (of_Z 0, of_Z 1, of_Z 0)) as Hv.
  { exists 0, 1, 0. split; [reflexivity | lia]. }
  split; [exact Hm|]. split; [exact Hd|]. split; [exact Hv|].
  split; [vm_compute; reflexivity|].
  apply (worker_normal_matrix_undoes_transform shear_xy (of_Z 0, of_Z 1, of_Z 0) Hm Hd Hv).
Defined.

(** *** Accessors *)

Section Accessors.

Variable hypot : Q -> Q -> Q -> Q.

Lemma normalizeInPlace_finite v :
  finite_vec v -> finite_vec (normalizeInPlace hypot v).
Proof.
  intros Hv. vec3 Hv. unfold normalizeInPlace.
  destruct (Qeq_bool (hypot x y z) 0) eqn:E; cbn -[Qdiv]; [|rewrite E]; by eexists _, _, _.
Qed.

Lemma normal_matrix_finite m :
  finite_mat4 m -> exists qs, length qs = 9%nat /\ computeNormalMatrix m = Fin <$> qs.
Proof.
  intros Hm. mat16 Hm. unfold computeNormalMatrix.
  cbn -[Qeq_bool Qmult Qplus Qdiv Qminus Qopp].
  match goal with |- context [Qeq_bool ?d 0] => destruct (Qeq_bool d 0) eqn:E end;
    cbn -[Qeq_bool Qmult Qplus Qdiv Qminus Qopp]; [|rewrite E];
    by eexists [_; _; _; _; _; _; _; _; _].
Qed.

Lemma transformVector_finite m3 v :
  (exists qs, length qs = 9%nat /\ m3 = Fin <$> qs) -> finite_vec v ->
  finite_vec (transformVector m3 v).
Proof.
  intros [qs [Hlen ->]] Hv. vec3 Hv.
  do 9 (destruct qs as [|? qs]; [discriminate Hlen|]).
  by eexists _, _, _.
Qed.

Lemma transformVec3_length m : forall src,
  length (transformVec3 m src) = length src.
Proof.
  intros src. remember (length src) as n eqn:En. revert src En.
  induction (lt_wf n) as [n _ IH]. intros src En.
  destruct src as [|x [|y [|z rest]]]; [done..|].
  cbn [transformVec3 length]. rewrite (IH (length rest)); [subst n; reflexivity | subst n; cbn; lia | done].
Qed.

Lemma transformNormals_length m3 : forall src,
  length (transformNormals hypot m3 src) = length src.
Proof.
  intros src. remember (length src) as n eqn:En. revert src En.
  induction (lt_wf n) as [n _ IH]. intros src En.
  destruct src as [|x [|y [|z rest]]]; [done..|].
  cbn [transformNormals length]. rewrite (IH (length rest)); [subst n; reflexivity | subst n; cbn; lia | done].
Qed.

Lemma transformTangents_length m3 : forall src,
  length (transformTangents hypot m3 src) = length src.
Proof.
  intros src. remember (length src) as n eqn:En. revert src En.
  induction (lt_wf n) as [n _ IH]. intros src En.
  destruct src as [|x [|y [|z [|w rest]]]]; [done..|].
  cbn [transformTangents length]. rewrite (IH (length rest)); [subst n; reflexivity | subst n; cbn; lia | done].
Qed.

(** Baking finite normals by a finite matrix yields finite values. *)
Lemma transformNormalAccessor_finite accessor m :
  finite_mat4 m -> Forall finite (acc_array accessor) ->
  (length (acc_array accessor) mod 3 = 0)%nat ->
  Forall finite (acc_array (transformNormalAccessor hypot accessor m)) /\
  length (acc_array (transformNormalAccessor hypot accessor m)) =
    length (acc_array accessor).
Proof.
  intros Hm Hfin Hlen. split; [|apply transformNormals_length].
  cbn [transformNormalAccessor createAccessor acc_array].
  pose proof (normal_matrix_finite m Hm) as Hn.
  revert Hfin. pattern (acc_array accessor).
  apply whole3_ind; [constructor | | exact Hlen].
  intros x y z rest IH Hfin.
  apply Forall_cons in Hfin as [[qx ->] Hfin].
  apply Forall_cons in Hfin as [[qy ->] Hfin].
  apply Forall_cons in Hfin as [[qz ->] Hfin].
  cbn [transformNormals].
  destruct (normalizeInPlace_finite
              (transformVector (computeNormalMatrix m) (Fin qx, Fin qy, Fin qz)))
    as [a [b [c ->]]].
  { apply transformVector_finite; [exact Hn | by eexists _, _, _]. }
  cbn. repeat (constructor; [by eexists|]). by apply IH.
Qed.

(** X21. Baking normals by a matrix of integers up to 1024 never yields NaN:
    finite normals within the range of single precision come out as finite
    numbers, as many as before, a singular matrix and a zero normal
    included. With such a matrix the inverse has entries of magnitude up to
    2^21, so no product the code forms overflows. *)
Theorem baked_normals_are_numbers accessor m :
  small_mat4 m -> Forall float32_range (acc_array accessor) ->
  (length (acc_array accessor) mod 3 = 0)%nat ->
  Forall finite (acc_array (transformNormalAccessor hypot accessor m)) /\
  length (acc_array (transformNormalAccessor hypot accessor m)) =
    length (acc_array accessor).
Proof.
  intros Hm Hr Hlen.
  apply transformNormalAccessor_finite; [by apply small_mat4_finite | | exact Hlen].
  eapply Forall_impl; [exact Hr|]. intros a [q [-> _]]. by exists q.
Qed.

(** X22. [transformTangentAccessor] keeps the length of the array and copies the
    fourth component (the handedness) of every tangent. *)
Theorem tangent_handedness_kept accessor m k :
  (4 * k + 3 < length (acc_array accessor))%nat ->
  nth (4 * k + 3) (acc_array (transformTangentAccessor hypot accessor m)) NaN =
    nth (4 * k + 3) (acc_array accessor) NaN /\
  length (acc_array (transformTangentAccessor hypot accessor m)) =
    length (acc_array accessor).
Proof.
  intros Hk. split; [|apply transformTangents_length].
  cbn [transformTangentAccessor createAccessor acc_array].
  revert Hk. generalize (acc_array accessor) as src.
  induction k as [|k IH]; intros src Hk.
  - destruct src as [|x [|y [|z [|w rest]]]]; cbn in Hk; try lia. reflexivity.
  - destruct src as [|x [|y [|z [|w rest]]]]; cbn [length] in Hk; try lia.
    replace (4 * S k + 3)%nat with (S (S (S (S (4 * k + 3))))) by lia.
    cbn [transformTangents nth]. apply IH. lia.
Qed.

(** *** Primitives and nodes *)

Lemma bake_unfold prim matrix :
  bakePrimitiveTransform hypot prim matrix =
  fold_left (bake_step hypot prim matrix) (listSemantics prim) (mkPrimitive [] (indices prim) None).
Proof.
  unfold bakePrimitiveTransform.
  generalize (mkPrimitive [] (indices prim) None) as out.
  induction (listSemantics prim) as [|s l IH]; intros out; [reflexivity|].
  cbn [fold_left]. rewrite IH. f_equal. unfold bake_step.
  destruct (getAttribute prim s); [|reflexivity]. by destruct s.
Qed.

Lemma bake_fold_shape prim matrix : forall l out,
  indices (fold_left (bake_step hypot prim matrix) l out) = indices out /\
  material (fold_left (bake_step hypot prim matrix) l out) = material out.
Proof.
  induction l as [|s l IH]; intros out; [done|].
  cbn [fold_left]. destruct (IH (bake_step hypot prim matrix out s)) as [-> ->].
  unfold bake_step. by destruct (getAttribute prim s).
Qed.

Lemma bake_fold_lookup prim matrix s : forall l out,
  getAttribute (fold_left (bake_step hypot prim matrix) l out) s =
  match getAttribute prim s with
  | Some a => if bool_decide (s ∈ l) then Some (baked hypot matrix s a) else getAttribute out s
  | None => getAttribute out s
  end.
Proof.
  induction l as [|t l IH]; intros out.
  - cbn [fold_left]. destruct (getAttribute prim s); [|done].
    rewrite bool_decide_eq_false_2; [done | apply not_elem_of_nil].
  - cbn [fold_left]. rewrite IH. unfold bake_step.
    destruct (decide (t = s)) as [->|Hne].
    + destruct (getAttribute prim s) as [a|] eqn:E; [|done].
      rewrite (bool_decide_eq_true_2 (s ∈ s :: l)) by apply list_elem_of_here.
      destruct (bool_decide (s ∈ l)); [done | apply getAttribute_set_eq].
    + assert (Hout : getAttribute
                (match getAttribute prim t with
                 | Some accessor => setAttribute out t (baked hypot matrix t accessor)
                 | None => out
                 end) s = getAttribute out s).
      { destruct (getAttribute prim t); [|done]. by apply lookup_set_attr_ne. }
      rewrite Hout. destruct (getAttribute prim s); [|done].
      destruct (decide (s ∈ l)) as [Hin|Hin].
      * rewrite !bool_decide_eq_true_2; [done | by apply list_elem_of_further | done].
      * rewrite !bool_decide_eq_false_2; [done | | done].
        intros Hin'. apply elem_of_cons in Hin' as [->|]; [by apply Hne | by apply Hin].
Qed.

Lemma lookup_attr_semantic s : forall l a,
  lookup_attr s l = Some a -> s ∈ (fst <$> l).
Proof.
  induction l as [|[k b] l IH]; intros a; cbn; [done|].
  destruct (decide (k = s)) as [->|]; [intros _; apply list_elem_of_here|].
  intros E. apply list_elem_of_further. by eapply IH.
Qed.

(** What the baked primitive holds under every semantic. *)
Lemma baked_primitive_attributes prim matrix s :
  getAttribute (bakePrimitiveTransform hypot prim matrix) s =
    baked hypot matrix s <$> getAttribute prim s /\
  indices (bakePrimitiveTransform hypot prim matrix) = indices prim.
Proof.
  rewrite bake_unfold. split; [|apply (bake_fold_shape prim matrix _ (mkPrimitive [] (indices prim) None))].
  rewrite bake_fold_lookup. destruct (getAttribute prim s) as [a|] eqn:E; [|done].
  rewrite bool_decide_eq_true_2; [done|]. by eapply lookup_attr_semantic.
Qed.

Lemma baked_length matrix s a :
  length (acc_array (baked hypot matrix s a)) = length (acc_array a).
Proof.
  destruct s; cbn; [apply transformVec3_length | apply transformNormals_length
    | apply transformTangents_length | done | done].
Qed.

Lemma bake_is_baked_from mat prim matrix :
  baked_from mat prim (setMaterial (bakePrimitiveTransform hypot prim matrix) mat).
Proof.
  split; [reflexivity|]. split; [apply baked_primitive_attributes; exact POSITION|].
  intros s. change (getAttribute (setMaterial ?p mat) s) with (getAttribute p s).
  rewrite (proj1 (baked_primitive_attributes prim matrix s)).
  destruct (getAttribute prim s) as [a|]; [|done].
  eexists. split; [reflexivity|]. split; [apply baked_length|].
  split; [by intros ->|]. intros. by destruct s.
Qed.

Lemma Node_induction (P : Node -> Prop) :
  (forall local mesh children, Forall P children -> P (mkNode local mesh children)) ->
  forall node, P node.
Proof.
  intros H. fix IH 1. intros [local mesh children]. apply H.
  induction children as [|c children IHc]; constructor; [apply IH | exact IHc].
Qed.

Lemma bakeNodeRecursive_baked mat node parentMatrix :
  Forall2 (baked_from mat) (node_prims node)
          (bakeNodeRecursive hypot mat node parentMatrix).
Proof.
  revert parentMatrix. induction node as [local mesh children IH] using Node_induction.
  intros parentMatrix. cbn [node_prims bakeNodeRecursive].
  apply Forall2_app.
  - destruct mesh as [prims|]; [|constructor]. cbn [default].
    apply Forall2_fmap_r, Forall_Forall2_diag, Forall_forall.
    intros prim _. apply bake_is_baked_from.
  - generalize (Some
      match parentMatrix with
      | Some parent => multiplyMat4 parent (default identityMat4 local)
      | None => default identityMat4 local
      end) as world.
    intros world. induction IH as [|c children Hc _ IHc]; [constructor|].
    cbn [flat_map]. apply Forall2_app; [apply Hc | apply IHc].
Qed.

(** X23. [bakeNodeRecursive] adds one primitive per primitive below the node, in
    depth-first order: each with the merged material, the index accessor of
    its source, and an accessor of the same length under every semantic of
    the source and under no other. *)
Theorem bake_keeps_every_primitive mat node parentMatrix :
  Forall2 (baked_from mat) (node_prims node)
          (bakeNodeRecursive hypot mat node parentMatrix) /\
  length (bakeNodeRecursive hypot mat node parentMatrix) = length (node_prims node).
Proof.
  pose proof (bakeNodeRecursive_baked mat node parentMatrix) as H.
  split; [exact H | symmetry; by eapply Forall2_length].
Qed.

Lemma baked_contributes mat p q :
  baked_from mat p q -> has_geometry p -> contributes q.
Proof.
  intros [_ [Hidx Hattr]] [[pos [E Hlen]] Hi].
  specialize (Hattr POSITION). rewrite E in Hattr.
  destruct Hattr as [b [Eb [Hb [Ht _]]]]. exists b. split; [exact Eb|]. split.
  - intros Hnil. rewrite Hnil in Hb. cbn in Hb. lia.
  - rewrite Hidx. destruct (indices p) as [idx|]; [by apply Hi|].
    unfold getCount. rewrite (Ht eq_refl), Hb. cbn [getElementSize].
    apply Z.div_le_lower_bound; lia.
Qed.

(** X24. A document with a primitive that has geometry collapses to a merged mesh
    of exactly one primitive. *)
Theorem collapse_yields_one_primitive mat scenes p :
  p ∈ scene_prims scenes -> has_geometry p ->
  length (collapseToSingleMeshAndMaterial hypot mat scenes) = 1%nat.
Proof.
  intros Hin Hp. unfold collapseToSingleMeshAndMaterial.
  assert (Hall : Forall2 (baked_from mat) (scene_prims scenes)
            (flat_map
               (fun sc => flat_map (fun child => bakeNodeRecursive hypot mat child None) sc)
               scenes)).
  { clear Hin. unfold scene_prims. induction scenes as [|sc scenes IH]; [constructor|].
    cbn [flat_map]. apply Forall2_app; [|apply IH].
    clear. induction sc as [|child sc IH]; [constructor|].
    cbn [flat_map]. apply Forall2_app; [apply bakeNodeRecursive_baked | apply IH]. }
  apply list_elem_of_lookup in Hin as [i Hi].
  destruct (Forall2_lookup_l _ _ _ _ _ Hall Hi) as [q [Hq Hpq]].
  apply (merge_yields_one_primitive _ q).
  - by eapply list_elem_of_lookup_2.
  - by eapply baked_contributes.
Qed.

End Accessors.

Lemma float32_range_zero n : Forall float32_range (repeat (Fin 0) n).
Proof.
  induction n as [|n IH]; constructor; [|exact IH].
  exists 0%Q. split; [reflexivity|]. split; by vm_compute.
Qed.

Lemma baked_normals_are_numbers_witness :
  small_mat4 flatten_z /\ Forall float32_range (acc_array (flat_positions 3)) /\
  (length (acc_array (flat_positions 3)) mod 3 = 0)%nat /\
  Forall finite (acc_array (transformNormalAccessor squares (flat_positions 3) flatten_z)) /\
  length (acc_array (transformNormalAccessor squares (flat_positions 3) flatten_z)) =
    length (acc_array (flat_positions 3)).
Proof.
  assert (small_mat4 flatten_z) as Hm.
  { apply small_mat4_of_Z; [reflexivity | repeat constructor; lia]. }
  assert (Forall float32_range (acc_array (flat_positions 3))) as Hf
    by apply float32_range_zero.
  split; [exact Hm|]. split; [exact Hf|]. split; [reflexivity|].
  apply (baked_normals_are_numbers squares (flat_positions 3) flatten_z Hm Hf). reflexivity.
Defined.

Lemma tangent_handedness_kept_witness :
  (4 * 0 + 3 < length (acc_array one_tangent))%nat /\
  nth (4 * 0 + 3) (acc_array (transformTangentAccessor squares one_tangent quarter_turn)) NaN =
    nth (4 * 0 + 3) (acc_array one_tangent) NaN /\
  length (acc_array (transformTangentAccessor squares one_tangent quarter_turn)) =
    length (acc_array one_tangent).
Proof.
  split; [cbn; lia|].
  apply (tangent_handedness_kept squares one_tangent quarter_turn 0). cbn. lia.
Defined.

Lemma small_prim_has_geometry : has_geometry small_prim.
Proof.
  split; [exists (flat_positions 3); split; [reflexivity | vm_compute; lia]|].
  intros idx E. injection E as <-. discriminate.
Qed.

Lemma collapse_yields_one_primitive_witness :
  small_prim ∈ scene_prims two_meshes /\ has_geometry small_prim /\
  length (collapseToSingleMeshAndMaterial squares wood two_meshes) = 1%nat.
Proof.
  assert (small_prim ∈ scene_prims two_meshes) as Hin by apply list_elem_of_here.
  split; [exact Hin|]. split; [exact small_prim_has_geometry|].
  apply (collapse_yields_one_primitive squares wood two_meshes small_prim Hin
           small_prim_has_geometry).
Defined.

End BakerProps.

(** ** The packer of the worker *)

Module WorkerProps.
Import Pow2 Packer Worker Predicates Pow2Facts BasicFacts ArrayFacts Samples MoreSamples.

Section Grow.

Variable P : Z -> Z -> list PackItem -> list Bin.









End Grow.


End WorkerProps.

(** ** The texture optimizer and the encodings *)

Module EncodingProps.
Import Atlas Optimizer Encoding.

(** X26. The texture optimizer never enlarges an image and never exceeds the
    limit: for a limit and an image of at least one pixel, each target side
    is between 1 and the least of the source side and [maxSize], and an image
    within the limit keeps its size. *)
Theorem optimizer_target_dims maxSize width height :
  1 <= maxSize -> 1 <= width -> 1 <= height ->
  let '(targetW, targetH) := targetDims maxSize width height in
  1 <= targetW <= Z.min width maxSize /\ 1 <= targetH <= Z.min height maxSize /\
  (Z.max width height <= maxSize -> targetW = width /\ targetH = height).
Proof.
  intros Hm Hw Hh. unfold targetDims.
  set (big := Z.max width height).
  set (scale := Qmin2 1 (inject_Z maxSize / inject_Z big)).
  assert (0 < inject_Z big)%Q as Hbig.
  { change 0%Q with (inject_Z 0). rewrite <- Zlt_Qlt. lia. }
  assert (0 < inject_Z maxSize)%Q as Hmax.
  { change 0%Q with (inject_Z 0). rewrite <- Zlt_Qlt. lia. }
  assert (0 <= scale <= 1)%Q as [Hs0 Hs1].
  { subst scale. unfold Qmin2. destruct (Qle_bool _ _) eqn:E.
    - lra.
    - assert (~ (1 <= inject_Z maxSize / inject_Z big)%Q) as Hlt.
      { intros H. apply Qle_bool_iff in H. congruence. }
      apply Qnot_le_lt in Hlt. split; [|lra].
      apply Qlt_le_weak, Qlt_shift_div_l; lra. }
  assert (scale * inject_Z big <= inject_Z maxSize)%Q as Hcap.
  { subst scale. unfold Qmin2. destruct (Qle_bool _ _) eqn:E.
    - apply Qle_bool_iff in E.
      apply (Qmult_le_compat_r _ _ (inject_Z big)) in E; [|lra].
      assert (inject_Z maxSize / inject_Z big * inject_Z big == inject_Z maxSize)%Q as Hq
        by (field; lra).
      rewrite Hq in E. exact E.
    - assert (inject_Z maxSize / inject_Z big * inject_Z big == inject_Z maxSize)%Q as Hq
        by (field; lra).
      rewrite Hq. lra. }
  assert (forall d, 1 <= d <= big ->
            1 <= Z.max 1 (Qfloor (inject_Z d * scale)) <= Z.min d maxSize) as Hdim.
  { intros d Hd. split; [lia|]. apply Z.max_lub; [lia|].
    assert (inject_Z 1 <= inject_Z d <= inject_Z big)%Q as [Hd1 Hd2]
      by (rewrite <- !Zle_Qle; lia).
    change (inject_Z 1) with 1%Q in Hd1.
    pose proof (Qfloor_le (inject_Z d * scale)) as Hfl.
    apply Z.min_glb; rewrite Zle_Qle;
      set (x := inject_Z d) in *; set (b := inject_Z big) in *;
      set (y := inject_Z (Qfloor (x * scale))) in *; nra. }
  split; [apply Hdim; lia|]. split; [apply Hdim; lia|].
  intros Hfit.
  assert (scale == 1)%Q as Hone.
  { subst scale. unfold Qmin2. destruct (Qle_bool _ _) eqn:E; [reflexivity|].
    exfalso. assert (1 <= inject_Z maxSize / inject_Z big)%Q as H.
    { apply Qle_shift_div_l; [exact Hbig|]. rewrite Qmult_1_l, <- Zle_Qle. exact Hfit. }
    apply Qle_bool_iff in H. congruence. }
  assert (forall d, 1 <= d -> Z.max 1 (Qfloor (inject_Z d * scale)) = d) as Hsame.
  { intros d Hd. rewrite Hone, Qmult_1_r, Qfloor_Z. lia. }
  split; apply Hsame; lia.
Qed.

Lemma optimizer_target_dims_witness :
  1 <= 1024 /\ 1 <= 4000 /\ 1 <= 3000 /\
  let '(targetW, targetH) := targetDims 1024 4000 3000 in
  1 <= targetW <= Z.min 4000 1024 /\ 1 <= targetH <= Z.min 3000 1024 /\
  (Z.max 4000 3000 <= 1024 -> targetW = 4000 /\ targetH = 3000).
Proof.
  split; [lia|]. split; [lia|]. split; [lia|].
  apply (optimizer_target_dims 1024 4000 3000); lia.
Defined.

(** X27. The media type [atlasMap] labels an atlas with is the type of the bytes
    it encodes for the formats png, jpeg, jpg and webp, and for no other: an
    unknown format is encoded as PNG and labelled image/jpeg. *)
Theorem mime_matches_encoder map fmt :
  mime fmt = media_type (encoder map fmt) <->
  fmt = "png" \/ fmt = "jpeg" \/ fmt = "jpg" \/ fmt = "webp".
Proof.
  unfold mime, encoder.
  destruct (decide (fmt = "png")) as [->|Hpng]; [cbn; tauto|].
  destruct (decide (fmt = "webp")) as [->|Hwebp]; [cbn; tauto|].
  destruct (decide (fmt = "jpeg" \/ fmt = "jpg")) as [Hj|Hj]; cbn.
  - split; [tauto | reflexivity].
  - split; [discriminate | tauto].
Qed.

End EncodingProps.

(** ** The duplicate check of the layout verifier *)

Module VerifyProps.
Import Verify VerifySpec.

Lemma seen_push_keys key s : forall seen,
  fst <$> seen_push key s seen =
  if bool_decide (key ∈ fst <$> seen) then fst <$> seen else (fst <$> seen) ++ [key].
Proof.
  induction seen as [|[k l] rest IH]; cbn [seen_push]; [reflexivity|].
  destruct (decide (k = key)) as [->|Hne].
  - cbn. by rewrite bool_decide_eq_true_2 by apply list_elem_of_here.
  - cbn [fmap list_fmap fst]. rewrite IH.
    destruct (decide (key ∈ fst <$> rest)) as [Hin|Hin].
    + rewrite !bool_decide_eq_true_2; [done | by apply list_elem_of_further | done].
    + rewrite !bool_decide_eq_false_2; [done | | done].
      intros H. apply elem_of_cons in H as [->|]; [by apply Hne | by apply Hin].
Qed.

Lemma seen_push_spread key s : forall seen,
  spread (seen_push key s seen) ≡ₚ key :: spread seen.
Proof.
  induction seen as [|[k l] rest IH]; cbn [seen_push]; [reflexivity|].
  destruct (decide (k = key)) as [->|Hne].
  - unfold spread. cbn [flat_map fst snd]. rewrite length_app. cbn [length].
    rewrite Nat.add_comm. reflexivity.
  - unfold spread in *. cbn [flat_map fst snd]. rewrite IH.
    by rewrite Permutation_middle.
Qed.

Lemma seen_push_nonempty key s : forall seen,
  Forall (fun kl => snd kl <> []) seen ->
  Forall (fun kl : Key * list string => snd kl <> []) (seen_push key s seen).
Proof.
  induction seen as [|[k l] rest IH]; intros H; cbn [seen_push].
  - by repeat constructor.
  - apply Forall_cons in H as [Hl Hrest]. destruct (decide (k = key)).
    + constructor; [|exact Hrest]. cbn. by destruct l.
    + constructor; [exact Hl | by apply IH].
Qed.

(** What the loop over the rects keeps true of [seen]. *)
Lemma seen_fold (rects : list LayoutRect) : forall seen,
  NoDup (fst <$> seen) -> Forall (fun kl => snd kl <> []) seen ->
  let seen' :=
    fold_left (fun seen rect =>
                 seen_push (layout_geometry rect) (join (l_materials rect)) seen)
      rects seen in
  NoDup (fst <$> seen') /\ Forall (fun kl => snd kl <> []) seen' /\
  spread seen' ≡ₚ (layout_geometry <$> rects) ++ spread seen.
Proof.
  induction rects as [|r rects IH]; intros seen Hnd Hne; cbn [fold_left].
  - by repeat split.
  - destruct (IH (seen_push (layout_geometry r) (join (l_materials r)) seen))
      as [H1 [H2 H3]].
    + rewrite seen_push_keys. case_bool_decide; [exact Hnd|].
      apply NoDup_app. split; [exact Hnd|]. split; [|apply NoDup_singleton].
      intros k Hk Hin. apply list_elem_of_singleton in Hin. by subst k.
    + by apply seen_push_nonempty.
    + split; [exact H1|]. split; [exact H2|]. cbn zeta in H3. rewrite H3.
      rewrite seen_push_spread. cbn [fmap list_fmap]. symmetry. apply Permutation_middle.
Qed.

Lemma omap_nil_iff {A B} (f : A -> option B) (l : list A) :
  omap f l = [] <-> Forall (fun x => f x = None) l.
Proof.
  induction l as [|x l IH]; cbn [omap list_omap]; [by split|].
  destruct (f x) eqn:E.
  - split; [discriminate|]. intros H. apply Forall_cons in H as [H _]. congruence.
  - rewrite IH. split; [by constructor | intros H; by apply Forall_cons in H as [_ H]].
Qed.

Lemma flat_map_nil_iff {A B} (f : A -> list B) (l : list A) :
  flat_map f l = [] <-> Forall (fun x => f x = []) l.
Proof.
  induction l as [|x l IH]; cbn [flat_map]; [by split|].
  split.
  - intros H. apply app_eq_nil in H as [H1 H2]. constructor; [exact H1 | by apply IH].
  - intros H. apply Forall_cons in H as [H1 H2]. rewrite H1. by apply IH.
Qed.

Lemma spread_singletons : forall seen : list (Key * list string),
  Forall (fun kl => length (snd kl) = 1%nat) seen -> spread seen = fst <$> seen.
Proof.
  induction seen as [|[k l] rest IH]; intros H; [reflexivity|].
  apply Forall_cons in H as [Hl Hrest]. unfold spread in *. cbn [flat_map fst snd] in *.
  rewrite Hl, IH by exact Hrest. reflexivity.
Qed.

Lemma spread_NoDup : forall seen : list (Key * list string),
  NoDup (spread seen) -> Forall (fun kl => (length (snd kl) <= 1)%nat) seen.
Proof.
  induction seen as [|[k l] rest IH]; intros H; [constructor|].
  unfold spread in *. cbn [flat_map fst snd] in H.
  apply NoDup_app in H as [Hk [_ Hrest]]. constructor; [|by apply IH].
  cbn. destruct l as [|a [|b l]]; cbn; [lia | lia |].
  cbn in Hk. apply NoDup_cons in Hk as [Hk _]. exfalso. apply Hk, list_elem_of_here.
Qed.

(** X28. [findDuplicateRects] reports nothing exactly when, record by record, no
    two rects share their position and size. *)
Theorem no_duplicates_reported layout :
  findDuplicateRects layout = [] <->
  forall entry, entry ∈ layout -> NoDup (layout_geometry <$> rects_of entry).
Proof.
  unfold findDuplicateRects. rewrite flat_map_nil_iff, Forall_forall.
  apply forall_proper. intros entry. apply forall_proper. intros _.
  rewrite omap_nil_iff. unfold seen_of.
  destruct (seen_fold (rects_of entry) [] ltac:(constructor) ltac:(constructor))
    as [Hnd [Hne Hperm]].
  cbn zeta in Hperm. rewrite app_nil_r in Hperm. rewrite <- Hperm.
  set (seen := fold_left _ _ _) in *. clearbody seen. split.
  - intros Hall. rewrite spread_singletons; [exact Hnd|].
    rewrite Forall_forall in Hall, Hne |- *. intros kl Hkl.
    specialize (Hall kl Hkl). specialize (Hne kl Hkl). cbn beta in Hall, Hne.
    destruct (snd kl) as [|a [|b l]]; [done | done | discriminate].
  - intros Hspread. apply spread_NoDup in Hspread.
    eapply Forall_impl; [exact Hspread|]. intros kl Hle. cbn beta in *.
    destruct (Nat.ltb_spec 1 (length (snd kl))); [lia | reflexivity].
Qed.

End VerifyProps.
